(** * The Transformer encoder block of transformer.cpp

    A shallow embedding of [util::uniform_init],
    [util::scaled_dot_product_attention], [MultiHeadAttention],
    [FeedForward], [LayerNorm], [TransformerEncoderBlock] and [main], and
    the properties of them that the specification states.

    Scalars.  The classes are templates over [Scalar], a floating-point
    type.  A scalar is modelled as a real number or one of the three
    special values of IEEE-754; an operation on finite operands is the
    exact real operation followed by the overflow test of the format
    (a result beyond the largest finite number becomes an infinity).
    Rounding of the mantissa, underflow and the sign of zero are not
    modelled: finite arithmetic is exact.  The vectors that the source
    declares as [Eigen::VectorXd] hold scalars of the same format, which
    is the case of [Scalar = double].  Sums run from left to right.

    Matrices.  An [Eigen::Matrix<Scalar, Dynamic, Dynamic>] is a row count,
    a column count and the coefficients; a vector is a matrix of one
    column.  The operations of Eigen check the dimensions of their
    operands with [eigen_assert]; the build line of the file header does
    not define NDEBUG, so a failed check aborts the program.  A call
    therefore returns a [result]: a value, or the source expression whose
    check failed.  Dimensions are natural numbers; the [int] arguments
    of the constructors, which can be negative or zero, are treated in
    the last section. *)

From Stdlib Require Import String Reals Lra Lia Arith ZArith Bool List.
Import ListNotations.


#[local] Open Scope R_scope.

(** ** Scalars *)

(** The format of [Scalar]: its largest finite number, which is at least
    4 in every IEEE-754 format. *)
Class Format : Type := {
  fmax : R;
  fmax_large : 4 <= fmax
}.

Inductive scalar : Type :=
| Fin (r : R)
| PInf
| NInf
| NaN.

Section Scalars.

Context {F : Format}.

(** Overflow test applied to the exact result of an operation. *)
Definition rnd (r : R) : scalar :=
  if Rlt_dec fmax r then PInf
  else if Rlt_dec r (- fmax) then NInf
  else Fin r.

Definition zero : scalar := Fin 0.
Definition one : scalar := Fin 1.

Definition neg (x : scalar) : scalar :=
  match x with
  | Fin a => Fin (- a)
  | PInf => NInf
  | NInf => PInf
  | NaN => NaN
  end.

Definition add (x y : scalar) : scalar :=
  match x, y with
  | NaN, _ | _, NaN => NaN
  | Fin a, Fin b => rnd (a + b)
  | PInf, NInf | NInf, PInf => NaN
  | PInf, _ | _, PInf => PInf
  | NInf, _ | _, NInf => NInf
  end.

Definition sub (x y : scalar) : scalar := add x (neg y).

(** An infinity of sign [pos] times the finite number [a]. *)
Definition inf_times (pos : bool) (a : R) : scalar :=
  if Rlt_dec 0 a then (if pos then PInf else NInf)
  else if Rlt_dec a 0 then (if pos then NInf else PInf)
  else NaN.

Definition mul (x y : scalar) : scalar :=
  match x, y with
  | NaN, _ | _, NaN => NaN
  | Fin a, Fin b => rnd (a * b)
  | PInf, Fin a | Fin a, PInf => inf_times true a
  | NInf, Fin a | Fin a, NInf => inf_times false a
  | PInf, PInf | NInf, NInf => PInf
  | PInf, NInf | NInf, PInf => NInf
  end.

(** An infinity of sign [pos] divided by the finite number [b]
    (a zero divisor is the positive zero). *)
Definition inf_over (pos : bool) (b : R) : scalar :=
  if Rlt_dec b 0 then (if pos then NInf else PInf)
  else (if pos then PInf else NInf).

Definition div (x y : scalar) : scalar :=
  match x, y with
  | NaN, _ | _, NaN => NaN
  | Fin a, Fin b =>
      if Req_dec_T b 0 then
        (if Req_dec_T a 0 then NaN
         else if Rlt_dec 0 a then PInf else NInf)
      else rnd (a / b)
  | Fin _, PInf | Fin _, NInf => Fin 0
  | PInf, Fin b => inf_over true b
  | NInf, Fin b => inf_over false b
  | _, _ => NaN
  end.

(** [std::sqrt] *)
Definition sqrt_s (x : scalar) : scalar :=
  match x with
  | Fin a => if Rlt_dec a 0 then NaN else rnd (sqrt a)
  | PInf => PInf
  | NInf | NaN => NaN
  end.

(** [std::exp] *)
Definition exp_s (x : scalar) : scalar :=
  match x with
  | Fin a => rnd (exp a)
  | PInf => PInf
  | NInf => Fin 0
  | NaN => NaN
  end.

(** [x < y] on scalars; every comparison with NaN is false. *)
Definition lt_s (x y : scalar) : bool :=
  match x, y with
  | NaN, _ | _, NaN => false
  | Fin a, Fin b => if Rlt_dec a b then true else false
  | NInf, NInf | PInf, _ | _, NInf => false
  | NInf, _ | _, PInf => true
  end.

(** [std::max(a, b)] is [(a < b) ? b : a]. *)
Definition max_s (a b : scalar) : scalar := if lt_s a b then b else a.

(** [static_cast<Scalar>(n)] for a non-negative [int]. *)
Definition of_nat (n : nat) : scalar := rnd (INR n).

(** Sum of a sequence, left to right; the sum of no term is 0. *)
Definition sum_s (l : list scalar) : scalar := fold_left add l zero.

(** A finite scalar of the format. *)
Definition finite (x : scalar) : Prop :=
  match x with
  | Fin a => - fmax <= a <= fmax
  | _ => False
  end.

(** A value an operation of the format can produce or store. *)
Definition representable (x : scalar) : Prop :=
  match x with
  | Fin a => - fmax <= a <= fmax
  | _ => True
  end.

End Scalars.

(** ** Results *)

Inductive result (A : Type) : Type :=
| Ok (a : A)
| Aborted (site : string).

Arguments Ok {A} a.
Arguments Aborted {A} site.

Definition bind {A B : Type} (r : result A) (k : A -> result B) : result B :=
  match r with
  | Ok a => k a
  | Aborted s => Aborted s
  end.

Declare Scope result_scope.
Delimit Scope result_scope with result.
Notation "x <- e ;; k" := (bind e (fun x => k))
  (at level 61, e at next level, right associativity) : result_scope.
#[local] Open Scope result_scope.

(** [eigen_assert(c)] at the source expression [site]. *)
Definition eigen_assert (c : bool) (site : string) : result unit :=
  if c then Ok tt else Aborted site.

(** [assert(c)] of <cassert>, and the integer division, which stops the
    program on a zero divisor. *)
Definition cassert (c : bool) (site : string) : result unit :=
  if c then Ok tt else Aborted site.

(** Results of a loop body run for each element, in order. *)
Fixpoint for_each {A B : Type} (f : A -> result B) (l : list A) : result (list B) :=
  match l with
  | [] => Ok []
  | a :: l' => b <- f a ;; bs <- for_each f l' ;; Ok (b :: bs)
  end.

(** ** Matrices *)

Record matrix : Type := Matrix {
  rows : nat;
  cols : nat;
  coeffs : list (list scalar)
}.

(** [m(i, j)] *)
Definition coeff (m : matrix) (i j : nat) : scalar :=
  nth j (nth i (coeffs m) []) NaN.

(** The [r] by [c] matrix whose coefficient at [(i, j)] is [f i j]. *)
Definition tabulate (r c : nat) (f : nat -> nat -> scalar) : matrix :=
  Matrix r c (map (fun i => map (fun j => f i j) (seq 0 c)) (seq 0 r)).

(** A matrix given by its rows, all of length [c]. *)
Definition of_rows (c : nat) (l : list (list scalar)) : matrix :=
  Matrix (length l) c l.

Definition all_coeffs (P : scalar -> Prop) (m : matrix) : Prop :=
  forall i j, (i < rows m)%nat -> (j < cols m)%nat -> P (coeff m i j).

Section MatrixOps.

Context {F : Format}.

(** [m.transpose()] *)
Definition transpose (m : matrix) : matrix :=
  tabulate (cols m) (rows m) (fun i j => coeff m j i).

(** [a * b], the matrix product. *)
Definition product (site : string) (a b : matrix) : result matrix :=
  _ <- eigen_assert (cols a =? rows b)%nat site ;;
  Ok (tabulate (rows a) (cols b)
        (fun i j => sum_s (map (fun k => mul (coeff a i k) (coeff b k j))
                               (seq 0 (cols a))))).

(** [m / s] and [m.array() + s] for a scalar [s]; [m.unaryExpr(f)]. *)
Definition unaryExpr (f : scalar -> scalar) (m : matrix) : matrix :=
  tabulate (rows m) (cols m) (fun i j => f (coeff m i j)).

(** Coefficient-wise binary operation on operands of the same shape:
    [a + b], [a += b], [a.array() + b.array()]. *)
Definition cwise (site : string) (op : scalar -> scalar -> scalar)
    (a b : matrix) : result matrix :=
  _ <- eigen_assert ((rows a =? rows b)%nat && (cols a =? cols b)%nat) site ;;
  Ok (tabulate (rows a) (cols a) (fun i j => op (coeff a i j) (coeff b i j))).

(** [m.rowwise() op v] for a row vector [v]: [v] is combined with every
    row of [m], so it must have as many columns as [m]. *)
Definition rowwise (site : string) (op : scalar -> scalar -> scalar)
    (m v : matrix) : result matrix :=
  _ <- eigen_assert ((rows v =? 1)%nat && (cols v =? cols m)%nat) site ;;
  Ok (tabulate (rows m) (cols m) (fun i j => op (coeff m i j) (coeff v 0 j))).

(** [m.colwise() op v] for a column vector [v]: [v] is combined with
    every column of [m], so it must have as many rows as [m]. *)
Definition colwise (site : string) (op : scalar -> scalar -> scalar)
    (m v : matrix) : result matrix :=
  _ <- eigen_assert ((cols v =? 1)%nat && (rows v =? rows m)%nat) site ;;
  Ok (tabulate (rows m) (cols m) (fun i j => op (coeff m i j) (coeff v i 0))).

(** [m.rowwise().sum()]: the column vector of the sums of the rows. *)
Definition rowwise_sum (m : matrix) : matrix :=
  tabulate (rows m) 1
    (fun i _ => sum_s (map (fun j => coeff m i j) (seq 0 (cols m)))).

(** [m.rowwise().mean()]: the sum of each row divided by the column count. *)
Definition rowwise_mean (m : matrix) : matrix :=
  tabulate (rows m) 1
    (fun i _ => div (sum_s (map (fun j => coeff m i j) (seq 0 (cols m))))
                    (of_nat (cols m))).

(** [m.block(i0, j0, r, c)] *)
Definition block (site : string) (m : matrix) (i0 j0 r c : nat) : result matrix :=
  _ <- eigen_assert ((i0 + r <=? rows m)%nat && (j0 + c <=? cols m)%nat) site ;;
  Ok (tabulate r c (fun i j => coeff m (i0 + i) (j0 + j))).

(** [m.block(i0, j0, r, c) = b]: the block keeps its shape, so [b] must
    have it. *)
Definition set_block (site : string) (m : matrix) (i0 j0 r c : nat) (b : matrix)
  : result matrix :=
  _ <- eigen_assert ((i0 + r <=? rows m)%nat && (j0 + c <=? cols m)%nat) site ;;
  _ <- eigen_assert ((rows b =? r)%nat && (cols b =? c)%nat) site ;;
  Ok (tabulate (rows m) (cols m)
        (fun i j =>
           if ((i0 <=? i) && (i <? i0 + r) && (j0 <=? j) && (j <? j0 + c))%nat
           then coeff b (i - i0) (j - j0)
           else coeff m i j)).

(** [setZero], [setOnes], the identity. *)
Definition constant (r c : nat) (v : scalar) : matrix := tabulate r c (fun _ _ => v).
Definition identity (n : nat) : matrix :=
  tabulate n n (fun i j => if (i =? j)%nat then one else zero).

End MatrixOps.

(** ** util::uniform_init *)

(** [std::mt19937] and the draw in [[0, 1)] that
    [std::uniform_real_distribution] takes from it belong to the C++
    library: the engine state and the draw are parameters. *)
Class Engine : Type := {
  engine : Type;
  canonical : engine -> R * engine;
  canonical_range : forall g, 0 <= fst (canonical g) < 1
}.

Section Program.

Context {F : Format} {E : Engine}.

(** [dist(rng)] for [std::uniform_real_distribution<T> dist(a, b)]:
    [a + (b - a) * u] for the canonical draw [u]. *)
Definition uniform_real_distribution (a b : scalar) (g : engine) : scalar * engine :=
  let (u, g') := canonical g in
  (add a (mul (sub b a) (Fin u)), g').

(** The inner loop of [uniform_init], over the columns of one row. *)
Fixpoint init_row (c : nat) (init_range : scalar) (g : engine) : list scalar * engine :=
  match c with
  | O => ([], g)
  | S c' =>
      let (v, g1) := uniform_real_distribution (neg init_range) init_range g in
      let (vs, g2) := init_row c' init_range g1 in
      (v :: vs, g2)
  end.

(** The outer loop, over the rows. *)
Fixpoint init_rows (r c : nat) (init_range : scalar) (g : engine)
  : list (list scalar) * engine :=
  match r with
  | O => ([], g)
  | S r' =>
      let (row, g1) := init_row c init_range g in
      let (rest, g2) := init_rows r' c init_range g1 in
      (row :: rest, g2)
  end.

(** [uniform_init(m, init_range)].  The engine [rng] is a static local of
    the function, seeded from [std::random_device] at the first call: it
    is state of the program that no caller can reach.  The call reads the
    state [g] that the previous call left and leaves its own. *)
Definition uniform_init (g : engine) (m : matrix) (init_range : scalar)
  : matrix * engine :=
  let (l, g') := init_rows (rows m) (cols m) init_range g in
  (Matrix (rows m) (cols m) l, g').

(** The default [init_range = T(0.1)]. *)
Definition default_init_range : scalar := Fin (1 / 10).

(** [Matrix(r, c)]: storage allocated, coefficients not yet assigned. *)
Definition uninitialized (r c : nat) : matrix := constant r c NaN.

(** ** util::scaled_dot_product_attention *)

(** The local [attn]: the softmax of the scaled, masked scores. *)
Definition attention_weights (Q K : matrix) (mask : option matrix) : result matrix :=
  let d_k := cols Q in
  qk <- product "Q * K.transpose()" Q (transpose K) ;;
  let scores := unaryExpr (fun v => div v (sqrt_s (of_nat d_k))) qk in
  scores <- match mask with
            | Some m => cwise "scores += *mask" add scores m
            | None => Ok scores
            end ;;
  let exp_scores := unaryExpr exp_s scores in
  let sum_exp := rowwise_sum exp_scores in
  colwise "exp_scores.array().colwise() / sum_exp.array()" div exp_scores sum_exp.

Definition scaled_dot_product_attention (Q K V : matrix) (mask : option matrix)
  : result matrix :=
  attn <- attention_weights Q K mask ;;
  product "attn * V" attn V.

(** ** MultiHeadAttention *)

Record MultiHeadAttention : Type := {
  d_model_ : nat;
  num_heads_ : nat;
  d_k_ : nat;
  d_v_ : nat;
  W_Q_ : matrix;
  W_K_ : matrix;
  W_V_ : matrix;
  W_O_ : matrix
}.

(** The constructor, on arguments that are not negative.
    [d_model / num_heads] is evaluated by the member initializers, before
    the [assert] of the body.  The source takes [int]s:
    [MultiHeadAttention_ctor], at the end of the file, is the constructor
    on every pair of them, and this definition is its restriction to the
    natural numbers with [num_heads > 0] (lemma
    [MultiHeadAttention_ctor_of_nat]).  With [num_heads = 0] the
    division has no defined result in the source; that this definition
    stops there is one of the things an implementation may do, and no
    statement below is about that case. *)
Definition MultiHeadAttention_new (d_model num_heads : nat) (g : engine)
  : result (MultiHeadAttention * engine) :=
  _ <- cassert (negb (num_heads =? 0)%nat) "d_model / num_heads" ;;
  let d_k := (d_model / num_heads)%nat in
  _ <- cassert (d_model mod num_heads =? 0)%nat
         "assert(d_model % num_heads == 0)" ;;
  let (wq, g1) := uniform_init g (uninitialized d_model d_model) default_init_range in
  let (wk, g2) := uniform_init g1 (uninitialized d_model d_model) default_init_range in
  let (wv, g3) := uniform_init g2 (uninitialized d_model d_model) default_init_range in
  let (wo, g4) := uniform_init g3 (uninitialized d_model d_model) default_init_range in
  Ok ({| d_model_ := d_model; num_heads_ := num_heads; d_k_ := d_k; d_v_ := d_k;
         W_Q_ := wq; W_K_ := wk; W_V_ := wv; W_O_ := wo |}, g4).

(** The first loop of [operator()]: the three blocks of head [h]. *)
Definition split_head (a : MultiHeadAttention) (Q K V : matrix) (seq_len h : nat)
  : result (matrix * matrix * matrix) :=
  qh <- block "Q.block(0, h * d_k_, seq_len, d_k_)" Q 0 (h * d_k_ a) seq_len (d_k_ a) ;;
  kh <- block "K.block(0, h * d_k_, seq_len, d_k_)" K 0 (h * d_k_ a) seq_len (d_k_ a) ;;
  vh <- block "V.block(0, h * d_v_, seq_len, d_v_)" V 0 (h * d_v_ a) seq_len (d_v_ a) ;;
  Ok (qh, kh, vh).

(** The third loop: the outputs written into [concat], head by head. *)
Fixpoint concat_heads (a : MultiHeadAttention) (seq_len : nat)
    (head_outputs : list matrix) (h : nat) (concat : matrix) : result matrix :=
  match head_outputs with
  | [] => Ok concat
  | o :: rest =>
      concat' <- set_block "concat.block(0, h * d_k_, seq_len, d_k_) = head_outputs[h]"
                   concat 0 (h * d_k_ a) seq_len (d_k_ a) o ;;
      concat_heads a seq_len rest (S h) concat'
  end.

(** [MultiHeadAttention::operator()(x, mask)] *)
Definition MultiHeadAttention_call (a : MultiHeadAttention) (x : matrix)
    (mask : option matrix) : result matrix :=
  let seq_len := rows x in
  Q <- product "x * W_Q_" x (W_Q_ a) ;;
  K <- product "x * W_K_" x (W_K_ a) ;;
  V <- product "x * W_V_" x (W_V_ a) ;;
  heads <- for_each (split_head a Q K V seq_len) (seq 0 (num_heads_ a)) ;;
  head_outputs <-
    for_each (fun '(qh, kh, vh) => scaled_dot_product_attention qh kh vh mask) heads ;;
  concat <- concat_heads a seq_len head_outputs 0
              (uninitialized seq_len (d_model_ a)) ;;
  product "concat * W_O_" concat (W_O_ a).

(** ** FeedForward *)

Record FeedForward : Type := {
  ff_d_model_ : nat;
  d_ff_ : nat;
  W1_ : matrix;
  W2_ : matrix;
  b1_ : matrix;
  b2_ : matrix
}.

(** The constructor, on sizes that are not negative; [FeedForward_ctor],
    at the end of the file, takes the [int]s of the source. *)
Definition FeedForward_new (d_model d_ff : nat) (g : engine) : FeedForward * engine :=
  let (w1, g1) := uniform_init g (uninitialized d_model d_ff) default_init_range in
  let (w2, g2) := uniform_init g1 (uninitialized d_ff d_model) default_init_range in
  ({| ff_d_model_ := d_model; d_ff_ := d_ff; W1_ := w1; W2_ := w2;
      b1_ := constant d_ff 1 zero; b2_ := constant d_model 1 zero |}, g2).

(** [FeedForward::operator()(x)].  Eigen has no product of a matrix by
    [W1_.rowwise()]; the expression [x * W1_.rowwise() + b1_.transpose()]
    is taken as the product [x * W1_] with [b1_.transpose()] added to each
    of its rows, and likewise for the second layer. *)
Definition FeedForward_call (f : FeedForward) (x : matrix) : result matrix :=
  xw <- product "x * W1_" x (W1_ f) ;;
  pre <- rowwise "x * W1_.rowwise() + b1_.transpose()" add xw (transpose (b1_ f)) ;;
  let hidden := unaryExpr (fun v => max_s v zero) pre in
  hw <- product "hidden * W2_" hidden (W2_ f) ;;
  rowwise "hidden * W2_.rowwise() + b2_.transpose()" add hw (transpose (b2_ f)).

(** ** LayerNorm *)

Record LayerNorm : Type := {
  ln_d_model_ : nat;
  eps_ : scalar;
  gamma_ : matrix;
  beta_ : matrix
}.

(** The default [eps = 1e-5]. *)
Definition default_eps : scalar := Fin (1 / 100000).

Definition LayerNorm_new (d_model : nat) (eps : scalar) : LayerNorm :=
  {| ln_d_model_ := d_model; eps_ := eps;
     gamma_ := constant d_model 1 one; beta_ := constant d_model 1 zero |}.

(** [x.rowwise() - mean.transpose()], which the body writes twice.
    [mean] has one entry per row of [x], and [rowwise()] subtracts the row
    vector [mean.transpose()] from every row of [x]. *)
Definition centered (x : matrix) : result matrix :=
  let mean := rowwise_mean x in
  rowwise "x.rowwise() - mean.transpose()" sub x (transpose mean).

(** [(var.array() + eps_).sqrt()], the divisor of each row. *)
Definition denominators (l : LayerNorm) (x : matrix) : result matrix :=
  c <- centered x ;;
  let var := rowwise_mean (unaryExpr (fun v => mul v v) c) in
  Ok (unaryExpr (fun v => sqrt_s (add v (eps_ l))) var).

(** [LayerNorm::operator()(x)] *)
Definition LayerNorm_call (l : LayerNorm) (x : matrix) : result matrix :=
  den <- denominators l x ;;
  c <- centered x ;;
  norm <- colwise "(x.rowwise() - mean.transpose()).array().colwise() / (var.array() + eps_).sqrt()"
            div c den ;;
  scaled <- rowwise "norm.array().rowwise() * gamma_.transpose().array()"
              mul norm (transpose (gamma_ l)) ;;
  cwise "norm.array().rowwise() * gamma_.transpose().array() + beta_.transpose().array()"
    add scaled (transpose (beta_ l)).

(** ** TransformerEncoderBlock *)

Record TransformerEncoderBlock : Type := {
  attn_ : MultiHeadAttention;
  ff_ : FeedForward;
  ln1_ : LayerNorm;
  ln2_ : LayerNorm
}.

(** The constructor, on arguments that are not negative;
    [TransformerEncoderBlock_ctor], at the end of the file, takes the
    [int]s of the source. *)
Definition TransformerEncoderBlock_new (d_model num_heads d_ff : nat) (g : engine)
  : result (TransformerEncoderBlock * engine) :=
  ag <- MultiHeadAttention_new d_model num_heads g ;;
  let (a, g1) := ag : MultiHeadAttention * engine in
  let (f, g2) := FeedForward_new d_model d_ff g1 in
  Ok ({| attn_ := a; ff_ := f;
         ln1_ := LayerNorm_new d_model default_eps;
         ln2_ := LayerNorm_new d_model default_eps |}, g2).

(** [TransformerEncoderBlock::operator()(x, mask)] *)
Definition TransformerEncoderBlock_call (b : TransformerEncoderBlock) (x : matrix)
    (mask : option matrix) : result matrix :=
  attn_out <- MultiHeadAttention_call (attn_ b) x mask ;;
  s1 <- cwise "x + attn_out" add x attn_out ;;
  x1 <- LayerNorm_call (ln1_ b) s1 ;;
  ff_out <- FeedForward_call (ff_ b) x1 ;;
  s2 <- cwise "x1 + ff_out" add x1 ff_out ;;
  LayerNorm_call (ln2_ b) s2.

End Program.

(** ** The formats of [float] and [double] *)

Definition binary32_max : R := (2 ^ 24 - 1) * 2 ^ 104.
Definition binary64_max : R := (2 ^ 53 - 1) * 2 ^ 971.

Lemma pow2_ge_1 (n : nat) : 1 <= 2 ^ n.
Proof. apply pow_R1_Rle; lra. Qed.

Lemma pow2_ge_4 (n : nat) : 4 <= 2 ^ (2 + n).
Proof.
  rewrite pow_add. pose proof (pow2_ge_1 n) as H.
  replace (2 ^ 2) with 4 by (simpl; lra). lra.
Qed.

Lemma binary_max_large (p e : nat) : 4 <= (2 ^ (1 + p) - 1) * 2 ^ (2 + e).
Proof.
  pose proof (pow2_ge_4 e) as H4. pose proof (pow2_ge_1 p) as H1.
  rewrite (pow_add 2 1 p). replace (2 ^ 1) with 2 by (simpl; lra).
  assert (1 <= 2 * 2 ^ p - 1) by lra.
  replace 4 with (1 * 4) by lra.
  apply Rmult_le_compat; lra.
Qed.

Lemma binary32_max_large : 4 <= binary32_max.
Proof. exact (binary_max_large 23 102). Qed.

Lemma binary64_max_large : 4 <= binary64_max.
Proof. exact (binary_max_large 52 969). Qed.

Definition binary32 : Format := {| fmax := binary32_max; fmax_large := binary32_max_large |}.
Definition binary64 : Format := {| fmax := binary64_max; fmax_large := binary64_max_large |}.

(** ** Matrices: shape and coefficients *)

Lemma nth_map_seq {A : Type} (f : nat -> A) (n i : nat) (d : A) :
  (i < n)%nat -> nth i (map f (seq 0 n)) d = f i.
Proof.
  intros Hi.
  rewrite (nth_indep _ d (f 0%nat)) by (rewrite length_map, length_seq; exact Hi).
  rewrite map_nth, seq_nth by exact Hi. reflexivity.
Qed.

Lemma coeff_tabulate (r c : nat) (f : nat -> nat -> scalar) (i j : nat) :
  (i < r)%nat -> (j < c)%nat -> coeff (tabulate r c f) i j = f i j.
Proof.
  intros Hi Hj. unfold coeff, tabulate; simpl.
  rewrite (nth_map_seq (fun i => map (fun j => f i j) (seq 0 c))) by exact Hi.
  apply nth_map_seq; exact Hj.
Qed.

Lemma tabulate_ext (r c : nat) (f g : nat -> nat -> scalar) :
  (forall i j, (i < r)%nat -> (j < c)%nat -> f i j = g i j) ->
  tabulate r c f = tabulate r c g.
Proof.
  intros H. unfold tabulate. f_equal.
  apply map_ext_in; intros i Hi. apply in_seq in Hi.
  apply map_ext_in; intros j Hj. apply in_seq in Hj.
  apply H; lia.
Qed.

Lemma map_seq_ext {A : Type} (f g : nat -> A) (n : nat) :
  (forall k, (k < n)%nat -> f k = g k) -> map f (seq 0 n) = map g (seq 0 n).
Proof.
  intros H. apply map_ext_in; intros k Hk. apply in_seq in Hk. apply H; lia.
Qed.

Lemma bind_ok {A B : Type} (r : result A) (k : A -> result B) (b : B) :
  bind r k = Ok b -> exists a, r = Ok a /\ k a = Ok b.
Proof. destruct r as [a | s]; simpl; intros H; [eauto | discriminate]. Qed.

(** ** Scalars: sums of exponentials *)

Section ScalarFacts.

Context {F : Format}.

Lemma fmax_pos : 0 < fmax.
Proof. pose proof fmax_large; lra. Qed.

(** Neither negative nor the negative infinity. *)
Definition nonneg (x : scalar) : Prop :=
  match x with
  | Fin a => 0 <= a
  | NInf => False
  | PInf | NaN => True
  end.

Definition inf_or_nan (x : scalar) : Prop := x = PInf \/ x = NaN.

Lemma rnd_nonneg (r : R) : 0 <= r -> nonneg (rnd r).
Proof.
  intros Hr. unfold rnd. pose proof fmax_pos.
  destruct (Rlt_dec fmax r); [exact I |].
  destruct (Rlt_dec r (- fmax)); [lra | exact Hr].
Qed.

Lemma rnd_representable (r : R) : representable (rnd r).
Proof.
  unfold rnd. destruct (Rlt_dec fmax r); [exact I |].
  destruct (Rlt_dec r (- fmax)); [exact I | simpl; lra].
Qed.

Lemma rnd_in_range (r : R) : - fmax <= r <= fmax -> rnd r = Fin r.
Proof.
  intros Hr. unfold rnd.
  destruct (Rlt_dec fmax r); [lra |].
  destruct (Rlt_dec r (- fmax)); [lra | reflexivity].
Qed.

Lemma rnd_overflow (r : R) : fmax < r -> rnd r = PInf.
Proof. intros Hr. unfold rnd. destruct (Rlt_dec fmax r); [reflexivity | lra]. Qed.

Lemma exp_s_nonneg (x : scalar) : nonneg (exp_s x).
Proof.
  destruct x as [a | | |]; simpl; try exact I; try lra.
  apply rnd_nonneg. left; apply exp_pos.
Qed.

Lemma add_nonneg (x y : scalar) : nonneg x -> nonneg y -> nonneg (add x y).
Proof.
  destruct x as [a | | |], y as [b | | |]; simpl; intros Hx Hy;
    try exact I; try contradiction.
  apply rnd_nonneg; lra.
Qed.

Lemma add_inf_or_nan_l (x y : scalar) :
  inf_or_nan x -> nonneg y -> inf_or_nan (add x y).
Proof.
  intros [-> | ->] Hy; destruct y as [b | | |]; simpl in *;
    try contradiction; unfold inf_or_nan; auto.
Qed.

Lemma add_inf_or_nan_r (x y : scalar) :
  nonneg x -> inf_or_nan y -> inf_or_nan (add x y).
Proof.
  intros Hx [-> | ->]; destruct x as [a | | |]; simpl in *;
    try contradiction; unfold inf_or_nan; auto.
Qed.

Lemma fold_add_nonneg (l : list scalar) (acc : scalar) :
  nonneg acc -> Forall nonneg l -> nonneg (fold_left add l acc).
Proof.
  revert acc. induction l as [| y l IH]; intros acc Hacc Hl; simpl.
  - exact Hacc.
  - inversion Hl; subst. apply IH; [apply add_nonneg |]; assumption.
Qed.

Lemma fold_add_absorbed (l : list scalar) (acc : scalar) :
  inf_or_nan acc -> Forall nonneg l -> inf_or_nan (fold_left add l acc).
Proof.
  revert acc. induction l as [| y l IH]; intros acc Hacc Hl; simpl.
  - exact Hacc.
  - inversion Hl; subst. apply IH; [apply add_inf_or_nan_l |]; assumption.
Qed.

Lemma fold_add_absorbs (l : list scalar) (acc : scalar) :
  nonneg acc -> Forall nonneg l -> Exists inf_or_nan l ->
  inf_or_nan (fold_left add l acc).
Proof.
  revert acc. induction l as [| y l IH]; intros acc Hacc Hl Hex; simpl.
  - inversion Hex.
  - inversion Hl; subst. inversion Hex; subst.
    + apply fold_add_absorbed; [apply add_inf_or_nan_r |]; assumption.
    + apply IH; [apply add_nonneg | |]; assumption.
Qed.

(** A row sum of exponentials with an infinite or undefined term is
    itself infinite or undefined. *)
Lemma sum_exp_absorbs (f : nat -> scalar) (n j : nat) :
  (j < n)%nat -> inf_or_nan (exp_s (f j)) ->
  inf_or_nan (sum_s (map (fun k => exp_s (f k)) (seq 0 n))).
Proof.
  intros Hj Hinf. unfold sum_s. apply fold_add_absorbs.
  - simpl; lra.
  - apply Forall_forall; intros y Hy. apply in_map_iff in Hy.
    destruct Hy as [k [<- _]]. apply exp_s_nonneg.
  - apply Exists_exists. exists (exp_s (f j)). split; [| exact Hinf].
    apply in_map_iff. exists j. split; [reflexivity |]. apply in_seq; lia.
Qed.

Lemma div_inf_or_nan (x y : scalar) :
  inf_or_nan x -> inf_or_nan y -> div x y = NaN.
Proof. intros [-> | ->] [-> | ->]; reflexivity. Qed.

Lemma add_pinf (x : scalar) : inf_or_nan (add x PInf).
Proof. destruct x; simpl; unfold inf_or_nan; auto. Qed.

Lemma exp_s_inf_or_nan (x : scalar) : inf_or_nan x -> inf_or_nan (exp_s x).
Proof. intros [-> | ->]; simpl; unfold inf_or_nan; auto. Qed.

End ScalarFacts.

(** ** Attention: the coefficients of the weights *)

Lemma rows_tabulate (r c : nat) (f : nat -> nat -> scalar) : rows (tabulate r c f) = r.
Proof. reflexivity. Qed.

Lemma cols_tabulate (r c : nat) (f : nat -> nat -> scalar) : cols (tabulate r c f) = c.
Proof. reflexivity. Qed.

Lemma tabulate_2_2 (f : nat -> nat -> scalar) :
  tabulate 2 2 f = Matrix 2 2 [[f 0%nat 0%nat; f 0%nat 1%nat]; [f 1%nat 0%nat; f 1%nat 1%nat]].
Proof. reflexivity. Qed.

#[local] Opaque tabulate.

Section AttentionFacts.

Context {F : Format}.

(** [scores(i, j)] before the mask is added. *)
Definition score (Q K : matrix) (i j : nat) : scalar :=
  div (sum_s (map (fun k => mul (coeff Q i k) (coeff K j k)) (seq 0 (cols Q))))
      (sqrt_s (of_nat (cols Q))).

(** [scores(i, j)] after the mask is added. *)
Definition masked_score (mask : option matrix) (Q K : matrix) (i j : nat) : scalar :=
  match mask with
  | Some m => add (score Q K i j) (coeff m i j)
  | None => score Q K i j
  end.

(** [attn(i, j)] *)
Definition weight (mask : option matrix) (Q K : matrix) (i j : nat) : scalar :=
  div (exp_s (masked_score mask Q K i j))
      (sum_s (map (fun k => exp_s (masked_score mask Q K i k)) (seq 0 (rows K)))).

(** The shape [scores += *mask] requires of the mask. *)
Definition mask_fits (r c : nat) (mask : option matrix) : bool :=
  match mask with
  | Some m => (r =? rows m)%nat && (c =? cols m)%nat
  | None => true
  end.

Lemma product_transpose (site : string) (Q K : matrix) :
  product site Q (transpose K) =
  if (cols Q =? cols K)%nat
  then Ok (tabulate (rows Q) (rows K)
             (fun i j => sum_s (map (fun k => mul (coeff Q i k) (coeff K j k))
                                    (seq 0 (cols Q)))))
  else Aborted site.
Proof.
  unfold product, transpose. rewrite rows_tabulate, cols_tabulate.
  destruct (cols Q =? cols K)%nat eqn:Hc; simpl; [| reflexivity].
  f_equal. apply tabulate_ext; intros i j Hi Hj. f_equal.
  apply map_seq_ext; intros k Hk. apply Nat.eqb_eq in Hc.
  rewrite coeff_tabulate by lia. reflexivity.
Qed.

Lemma unaryExpr_tabulate (f : scalar -> scalar) (r c : nat) (s : nat -> nat -> scalar) :
  unaryExpr f (tabulate r c s) = tabulate r c (fun i j => f (s i j)).
Proof.
  unfold unaryExpr. rewrite rows_tabulate, cols_tabulate.
  apply tabulate_ext; intros i j Hi Hj. rewrite coeff_tabulate by lia. reflexivity.
Qed.

Lemma cwise_tabulate (site : string) (op : scalar -> scalar -> scalar)
    (r c : nat) (s : nat -> nat -> scalar) (m : matrix) :
  cwise site op (tabulate r c s) m =
  if (r =? rows m)%nat && (c =? cols m)%nat
  then Ok (tabulate r c (fun i j => op (s i j) (coeff m i j)))
  else Aborted site.
Proof.
  unfold cwise. rewrite rows_tabulate, cols_tabulate.
  destruct ((r =? rows m)%nat && (c =? cols m)%nat); cbn [eigen_assert bind];
    [| reflexivity].
  f_equal. apply tabulate_ext; intros i j Hi Hj.
  rewrite coeff_tabulate by lia. reflexivity.
Qed.

Lemma softmax_tabulate (site : string) (r c : nat) (e : nat -> nat -> scalar) :
  colwise site div (tabulate r c e) (rowwise_sum (tabulate r c e)) =
  Ok (tabulate r c
        (fun i j => div (e i j) (sum_s (map (fun k => e i k) (seq 0 c))))).
Proof.
  unfold colwise, rowwise_sum.
  rewrite !rows_tabulate, !cols_tabulate, !Nat.eqb_refl.
  cbn [andb eigen_assert bind].
  f_equal. apply tabulate_ext; intros i j Hi Hj.
  rewrite !coeff_tabulate by lia. f_equal. f_equal.
  apply map_seq_ext; intros k Hk.
  rewrite !coeff_tabulate by lia. reflexivity.
Qed.

Lemma attention_weights_eq (Q K : matrix) (mask : option matrix) :
  attention_weights Q K mask =
  if (cols Q =? cols K)%nat then
    if mask_fits (rows Q) (rows K) mask
    then Ok (tabulate (rows Q) (rows K) (weight mask Q K))
    else Aborted "scores += *mask"
  else Aborted "Q * K.transpose()".
Proof.
  unfold attention_weights. rewrite product_transpose.
  destruct (cols Q =? cols K)%nat; [| reflexivity].
  cbn [bind]. rewrite unaryExpr_tabulate.
  destruct mask as [m |]; cbn [mask_fits].
  - rewrite cwise_tabulate.
    destruct ((rows Q =? rows m)%nat && (rows K =? cols m)%nat); [| reflexivity].
    cbn [bind]. rewrite unaryExpr_tabulate, softmax_tabulate. reflexivity.
  - cbn [bind]. rewrite unaryExpr_tabulate, softmax_tabulate. reflexivity.
Qed.

(** A key masked with [+inf] gets the weight NaN, whatever [Q] and [K]
    hold: its score becomes [+inf] (or NaN), the exponential [+inf], the
    row sum [+inf], and the quotient of two infinities is NaN. *)
Lemma weight_masked_nan (m Q K : matrix) (i j : nat) :
  (j < rows K)%nat -> coeff m i j = PInf -> weight (Some m) Q K i j = NaN.
Proof.
  intros Hj Hm. unfold weight.
  assert (He : inf_or_nan (exp_s (masked_score (Some m) Q K i j))).
  { apply exp_s_inf_or_nan. cbn [masked_score]. rewrite Hm. apply add_pinf. }
  apply div_inf_or_nan; [exact He |].
  apply (sum_exp_absorbs (fun k => masked_score (Some m) Q K i k)) with (j := j);
    assumption.
Qed.

End AttentionFacts.

(** ** Scalars: evaluation *)

Section ScalarEval.

Context {F : Format}.

Lemma div_fin (a b : R) : b <> 0 -> div (Fin a) (Fin b) = rnd (a / b).
Proof. intros Hb. simpl. destruct (Req_dec_T b 0); [contradiction | reflexivity]. Qed.

Lemma sqrt_s_fin (a : R) : 0 <= a -> sqrt_s (Fin a) = rnd (sqrt a).
Proof. intros Ha. simpl. destruct (Rlt_dec a 0); [lra | reflexivity]. Qed.

Lemma add_zero_r (x : scalar) : representable x -> add x zero = x.
Proof.
  destruct x as [a | | |]; simpl; intros Hx; try reflexivity.
  rewrite Rplus_0_r. apply rnd_in_range; exact Hx.
Qed.

Lemma div_representable (x y : scalar) : representable (div x y).
Proof.
  pose proof fmax_pos as Hf.
  destruct x as [a | | |], y as [b | | |]; simpl; try exact I; try lra.
  - destruct (Req_dec_T b 0).
    + destruct (Req_dec_T a 0); [exact I |]. destruct (Rlt_dec 0 a); exact I.
    + apply rnd_representable.
  - unfold inf_over. destruct (Rlt_dec b 0); exact I.
  - unfold inf_over. destruct (Rlt_dec b 0); exact I.
Qed.

Lemma of_nat_1 : of_nat 1 = Fin 1.
Proof. unfold of_nat. simpl INR. apply rnd_in_range. pose proof fmax_large; lra. Qed.

Lemma sqrt_s_one : sqrt_s (Fin 1) = Fin 1.
Proof.
  rewrite sqrt_s_fin by lra. rewrite sqrt_1.
  apply rnd_in_range. pose proof fmax_large; lra.
Qed.

Lemma sum_s_nan (l : list scalar) : In NaN l -> sum_s l = NaN.
Proof.
  unfold sum_s. generalize zero as acc.
  induction l as [| y l IH]; intros acc Hin; simpl in *; [contradiction |].
  destruct Hin as [-> | Hin]; [| apply IH; exact Hin].
  replace (add acc NaN) with NaN by (destruct acc; reflexivity).
  clear IH. induction l as [| z l IHl]; simpl; [reflexivity | exact IHl].
Qed.

End ScalarEval.

(** ** The exponential overflows *)

Lemma exp_INR_ge_pow2 (n : nat) : 2 ^ n <= exp (INR n).
Proof.
  induction n as [| n IH].
  - simpl. rewrite exp_0. lra.
  - rewrite S_INR, exp_plus. simpl pow.
    pose proof (exp_ineq1_le 1) as H1.
    pose proof (pow2_ge_1 n) as Hn.
    pose proof (exp_pos (INR n)) as Hp.
    rewrite Rmult_comm. apply Rmult_le_compat; lra.
Qed.

Lemma binary_max_bounds (p e : nat) :
  2 ^ (p + e) <= (2 ^ (1 + p) - 1) * 2 ^ e < 2 ^ (1 + p + e).
Proof.
  rewrite !pow_add. replace (2 ^ 1) with 2 by (simpl; lra).
  pose proof (pow2_ge_1 e) as Hb. pose proof (pow2_ge_1 p) as Ha.
  generalize dependent (2 ^ e). generalize dependent (2 ^ p).
  intros a Ha b Hb.
  assert (0 <= (a - 1) * b) by (apply Rmult_le_pos; lra).
  replace ((2 * a - 1) * b) with (a * b + (a - 1) * b) by ring.
  replace (2 * a * b) with (a * b + (a - 1) * b + b) by ring.
  lra.
Qed.

Lemma binary64_max_lt_pow2 : binary64_max < 2 ^ 1024.
Proof. exact (proj2 (binary_max_bounds 52 971)). Qed.

Lemma binary64_max_ge_pow2 : 2 ^ 1023 <= binary64_max.
Proof. exact (proj1 (binary_max_bounds 52 971)). Qed.

Lemma INR_1024 : INR 1024 = 1024.
Proof. rewrite INR_IZR_INZ. reflexivity. Qed.

Lemma pow2_10 : 2 ^ 10 = 1024.
Proof. simpl. lra. Qed.

Lemma binary64_max_ge_1024 : 1024 <= binary64_max.
Proof.
  pose proof binary64_max_ge_pow2 as H.
  change (2 ^ 1023) with (2 ^ (10 + 1013)) in H.
  rewrite pow_add, pow2_10 in H. pose proof (pow2_ge_1 1013) as Hb.
  generalize dependent (2 ^ 1013). intros b H Hb. lra.
Qed.

Lemma exp_1024_overflows_binary64 : binary64_max < exp 1024.
Proof.
  pose proof (exp_INR_ge_pow2 1024) as H. rewrite INR_1024 in H.
  pose proof binary64_max_lt_pow2. lra.
Qed.

(** ** Masking with [+inf] *)

(** Two queries and two keys of one feature, all zero. *)
Definition zero_pair : matrix := of_rows 1 [[Fin 0]; [Fin 0]].

(** The second key hidden from the first query. *)
Definition mask_second_key : matrix := of_rows 2 [[Fin 0; PInf]; [Fin 0; Fin 0]].

Ltac in_range := pose proof fmax_large; simpl; lra.

Section MaskingFacts.

Context {F : Format}.

Lemma score_zero_pair (i j : nat) :
  (i < 2)%nat -> (j < 2)%nat -> score zero_pair zero_pair i j = Fin 0.
Proof.
  intros Hi Hj. unfold score. cbn [zero_pair of_rows cols seq map].
  rewrite of_nat_1, sqrt_s_one.
  assert (Hc : forall k, (k < 2)%nat -> coeff zero_pair k 0 = Fin 0).
  { intros k Hk. destruct k as [| [| k]]; [reflexivity | reflexivity | lia]. }
  fold zero_pair. rewrite !Hc by assumption.
  unfold sum_s. cbn [fold_left mul]. rewrite Rmult_0_l.
  rewrite (rnd_in_range 0) by in_range.
  unfold zero. cbn [add]. rewrite Rplus_0_l, (rnd_in_range 0) by in_range.
  rewrite div_fin by lra.
  replace (0 / 1) with 0 by lra. apply rnd_in_range; in_range.
Qed.

End MaskingFacts.

(** C1: a key whose mask entry is [+inf] does not get the weight 0.  The
    mask is added to the scores, the exponential of [+inf] is [+inf], and
    so is the sum of the row: the weight of the masked key is the
    quotient of two infinities, NaN, and the weight of the key that is
    not masked is [1 / +inf = 0]. *)
Theorem masked_key_weight_is_nan (F : Format) :
  exists W : matrix,
    attention_weights zero_pair zero_pair (Some mask_second_key) = Ok W /\
    coeff mask_second_key 0 1 = PInf /\
    coeff W 0 1 = NaN /\
    coeff mask_second_key 0 0 = Fin 0 /\
    coeff W 0 0 = Fin 0.
Proof.
  rewrite attention_weights_eq. cbn [zero_pair mask_second_key of_rows rows cols
    length Nat.eqb mask_fits andb].
  eexists; split; [reflexivity |].
  split; [reflexivity |].
  rewrite !coeff_tabulate by lia.
  split; [apply weight_masked_nan; [simpl; lia | reflexivity] |].
  split; [reflexivity |].
  unfold weight. cbn [masked_score].
  change (of_rows 1 [[Fin 0]; [Fin 0]]) with zero_pair.
  change (of_rows 2 [[Fin 0; PInf]; [Fin 0; Fin 0]]) with mask_second_key.
  cbn [rows zero_pair of_rows length seq map].
  fold zero_pair. rewrite !score_zero_pair by lia.
  change (coeff mask_second_key 0 0) with (Fin 0).
  change (coeff mask_second_key 0 1) with PInf.
  cbn [add]. rewrite Rplus_0_l, (rnd_in_range 0) by in_range.
  cbn [exp_s]. rewrite exp_0, (rnd_in_range 1) by in_range.
  unfold sum_s, zero. cbn [fold_left add].
  rewrite Rplus_0_l, (rnd_in_range 1) by in_range. reflexivity.
Qed.

(** ** Softmax on a large score *)

Definition one_by_one (v : scalar) : matrix := of_rows 1 [[v]].

(** Row [i] of [W] holds numbers of [[0, 1]] whose sum is within [1e-6]
    of 1. *)
Definition row_is_distribution (W : matrix) (i : nat) : Prop :=
  exists l : list R,
    length l = cols W /\
    (forall j, (j < cols W)%nat -> coeff W i j = Fin (nth j l 0)) /\
    Forall (fun a => 0 <= a <= 1) l /\
    Rabs (fold_right Rplus 0 l - 1) <= 1 / 1000000.

Section OverflowFacts.

Context {F : Format}.

Lemma score_one_by_one (s : R) :
  - fmax <= s <= fmax ->
  score (one_by_one (Fin s)) (one_by_one (Fin 1)) 0 0 = Fin s.
Proof.
  intros Hs. unfold score.
  cbn [one_by_one of_rows cols seq map coeff coeffs nth].
  rewrite of_nat_1, sqrt_s_one.
  unfold sum_s, zero. cbn [fold_left mul].
  rewrite Rmult_1_r, (rnd_in_range s) by exact Hs.
  cbn [add]. rewrite Rplus_0_l, (rnd_in_range s) by exact Hs.
  rewrite div_fin by lra.
  replace (s / 1) with s by lra. apply rnd_in_range; exact Hs.
Qed.

(** A single score whose exponential exceeds the largest finite number:
    the exponential and the row sum are both [+inf]. *)
Lemma weight_overflow (s : R) :
  - fmax <= s <= fmax -> fmax < exp s ->
  weight None (one_by_one (Fin s)) (one_by_one (Fin 1)) 0 0 = NaN.
Proof.
  intros Hs Hexp. unfold weight. cbn [masked_score].
  change (rows (one_by_one (Fin 1))) with 1%nat. cbn [seq map].
  rewrite score_one_by_one by exact Hs.
  cbn [exp_s]. rewrite rnd_overflow by exact Hexp. reflexivity.
Qed.

Lemma nan_row_is_no_distribution (W : matrix) (i j : nat) :
  (j < cols W)%nat -> coeff W i j = NaN -> ~ row_is_distribution W i.
Proof.
  intros Hj Hnan [l [_ [Hl _]]]. specialize (Hl j Hj).
  rewrite Hnan in Hl. discriminate.
Qed.

End OverflowFacts.

(** C2: the row of a finite score matrix need not sum to 1.  In the
    format of [double] the single score [1024 * 1 / sqrt(1) = 1024] is
    finite, its exponential overflows to [+inf], the row sum is [+inf]
    and the weight is [+inf / +inf], NaN: the softmax subtracts no row
    maximum before it exponentiates. *)
Theorem softmax_row_of_large_score_is_nan :
  exists W : matrix,
    attention_weights (F := binary64)
      (one_by_one (Fin 1024)) (one_by_one (Fin 1)) None = Ok W /\
    score (F := binary64) (one_by_one (Fin 1024)) (one_by_one (Fin 1)) 0 0 = Fin 1024 /\
    rows W = 1%nat /\ cols W = 1%nat /\
    coeff W 0 0 = NaN /\
    ~ row_is_distribution W 0.
Proof.
  assert (Hs : - @fmax binary64 <= 1024 <= @fmax binary64).
  { pose proof binary64_max_ge_1024. change (@fmax binary64) with binary64_max. lra. }
  rewrite attention_weights_eq.
  cbn [one_by_one of_rows rows cols length Nat.eqb mask_fits].
  eexists; split; [reflexivity |].
  split; [apply (score_one_by_one (F := binary64)); exact Hs |].
  split; [reflexivity |]. split; [reflexivity |].
  assert (Hnan : coeff (tabulate 1 1
            (weight (F := binary64) None (of_rows 1 [[Fin 1024]]) (of_rows 1 [[Fin 1]])))
            0 0 = NaN).
  { rewrite coeff_tabulate by lia.
    apply (weight_overflow (F := binary64)); [exact Hs |].
    exact exp_1024_overflows_binary64. }
  split; [exact Hnan |].
  apply nan_row_is_no_distribution with (j := 0%nat);
    [rewrite cols_tabulate; lia | exact Hnan].
Qed.

(** ** A row with every key masked *)

Section FullyMaskedFacts.

Context {F : Format}.

Lemma product_tabulate (site : string) (r c : nat) (f : nat -> nat -> scalar)
    (b : matrix) :
  product site (tabulate r c f) b =
  if (c =? rows b)%nat
  then Ok (tabulate r (cols b)
             (fun i j => sum_s (map (fun k => mul (f i k) (coeff b k j)) (seq 0 c))))
  else Aborted site.
Proof.
  unfold product. rewrite rows_tabulate, cols_tabulate.
  destruct (c =? rows b)%nat; cbn [eigen_assert bind]; [| reflexivity].
  f_equal. apply tabulate_ext; intros i j Hi Hj. f_equal.
  apply map_seq_ext; intros k Hk. rewrite coeff_tabulate by lia. reflexivity.
Qed.

Lemma scaled_dot_product_attention_eq (Q K V : matrix) (mask : option matrix) :
  scaled_dot_product_attention Q K V mask =
  if (cols Q =? cols K)%nat then
    if mask_fits (rows Q) (rows K) mask then
      if (rows K =? rows V)%nat
      then Ok (tabulate (rows Q) (cols V)
                 (fun i j => sum_s (map (fun k => mul (weight mask Q K i k) (coeff V k j))
                                        (seq 0 (rows K)))))
      else Aborted "attn * V"
    else Aborted "scores += *mask"
  else Aborted "Q * K.transpose()".
Proof.
  unfold scaled_dot_product_attention. rewrite attention_weights_eq.
  destruct (cols Q =? cols K)%nat; [| reflexivity].
  destruct (mask_fits (rows Q) (rows K) mask); [| reflexivity].
  cbn [bind]. apply product_tabulate.
Qed.

End FullyMaskedFacts.

(** C4, as the code has it: when every key of query [i] is masked with
    [+inf] (and there is at least one key), the attention reports no
    error.  It returns a matrix of the shape of a regular result, and
    every entry of row [i] of it is NaN. *)
Theorem fully_masked_row_yields_nan (F : Format) (Q K V m : matrix) (i : nat) :
  cols Q = cols K -> rows K = rows V -> (0 < rows K)%nat ->
  rows m = rows Q -> cols m = rows K ->
  (i < rows Q)%nat ->
  (forall j, (j < rows K)%nat -> coeff m i j = PInf) ->
  exists out : matrix,
    scaled_dot_product_attention Q K V (Some m) = Ok out /\
    rows out = rows Q /\ cols out = cols V /\
    forall c, (c < cols V)%nat -> coeff out i c = NaN.
Proof.
  intros Hqk Hkv Hpos Hmr Hmc Hi Hmask.
  rewrite scaled_dot_product_attention_eq. cbn [mask_fits].
  rewrite Hqk, Hmr, Hmc, Hkv, !Nat.eqb_refl. cbn [andb].
  eexists; split; [reflexivity |].
  split; [reflexivity |]. split; [reflexivity |].
  intros c Hc. rewrite coeff_tabulate by lia.
  apply sum_s_nan. apply in_map_iff. exists 0%nat. split.
  - rewrite weight_masked_nan; [reflexivity | lia | apply Hmask; lia].
  - apply in_seq. lia.
Qed.

(** The theorem at one query, one key and the mask [[+inf]]. *)
Lemma fully_masked_row_yields_nan_witness :
  exists out : matrix,
    scaled_dot_product_attention (F := binary64)
      (one_by_one (Fin 0)) (one_by_one (Fin 0)) (one_by_one (Fin 1))
      (Some (one_by_one PInf)) = Ok out /\
    rows out = 1%nat /\ cols out = 1%nat /\
    forall c, (c < 1)%nat -> coeff out 0 c = NaN.
Proof.
  apply (fully_masked_row_yields_nan binary64
           (one_by_one (Fin 0)) (one_by_one (Fin 0)) (one_by_one (Fin 1))
           (one_by_one PInf) 0);
    try reflexivity; simpl; try lia.
  intros j Hj. assert (j = 0)%nat as -> by lia. reflexivity.
Defined.

(** C4, as the specification states it, fails: with the only key masked
    the call returns a matrix whose entry is NaN, and aborts nowhere. *)
Lemma fully_masked_row_reports_no_error :
  (exists out : matrix,
     scaled_dot_product_attention (F := binary64)
       (one_by_one (Fin 0)) (one_by_one (Fin 0)) (one_by_one (Fin 1))
       (Some (one_by_one PInf)) = Ok out /\ coeff out 0 0 = NaN) /\
  ~ (exists site : string,
       scaled_dot_product_attention (F := binary64)
         (one_by_one (Fin 0)) (one_by_one (Fin 0)) (one_by_one (Fin 1))
         (Some (one_by_one PInf)) = Aborted site).
Proof.
  assert (H : exists out : matrix,
     scaled_dot_product_attention (F := binary64)
       (one_by_one (Fin 0)) (one_by_one (Fin 0)) (one_by_one (Fin 1))
       (Some (one_by_one PInf)) = Ok out /\ coeff out 0 0 = NaN).
  { rewrite scaled_dot_product_attention_eq.
    cbn [one_by_one of_rows rows cols length Nat.eqb mask_fits andb].
    eexists; split; [reflexivity |].
    rewrite coeff_tabulate by lia.
    apply sum_s_nan. cbn [seq map]. left.
    rewrite weight_masked_nan; [reflexivity | simpl; lia | reflexivity]. }
  split; [exact H |].
  destruct H as [out [Hout _]]. intros [site Hsite].
  rewrite Hout in Hsite. discriminate.
Qed.

(** ** Multi-head attention: shapes *)

(** What the constructor establishes. *)
Definition valid_attention (a : MultiHeadAttention) : Prop :=
  num_heads_ a <> 0%nat /\
  d_model_ a = (num_heads_ a * d_k_ a)%nat /\
  d_v_ a = d_k_ a /\
  (rows (W_Q_ a) = d_model_ a /\ cols (W_Q_ a) = d_model_ a) /\
  (rows (W_K_ a) = d_model_ a /\ cols (W_K_ a) = d_model_ a) /\
  (rows (W_V_ a) = d_model_ a /\ cols (W_V_ a) = d_model_ a) /\
  (rows (W_O_ a) = d_model_ a /\ cols (W_O_ a) = d_model_ a).

Definition has_shape (r c : nat) (m : matrix) : Prop := rows m = r /\ cols m = c.

Definition head_has_shape (n d : nat) (h : matrix * matrix * matrix) : Prop :=
  let '(q, k, v) := h in has_shape n d q /\ has_shape n d k /\ has_shape n d v.

Lemma for_each_Forall {A B : Type} (f : A -> result B) (P : B -> Prop) (l : list A) :
  (forall a, In a l -> exists b, f a = Ok b /\ P b) ->
  exists bs, for_each f l = Ok bs /\ length bs = length l /\ Forall P bs.
Proof.
  induction l as [| a l IH]; intros H; simpl.
  - exists []. repeat split. constructor.
  - destruct (H a (or_introl eq_refl)) as [b [Hb HP]].
    destruct IH as [bs [Hbs [Hlen Hall]]].
    { intros a' Ha'. apply H. right; exact Ha'. }
    exists (b :: bs). rewrite Hb, Hbs. simpl. repeat split.
    + f_equal; exact Hlen.
    + constructor; assumption.
Qed.

Lemma for_each_ext_in {A B : Type} (f g : A -> result B) (l : list A) :
  (forall a, In a l -> f a = g a) -> for_each f l = for_each g l.
Proof.
  induction l as [| a l IH]; intros H; simpl; [reflexivity |].
  rewrite (H a (or_introl eq_refl)), IH; [reflexivity |].
  intros a' Ha'. apply H. right; exact Ha'.
Qed.

Section AttentionShapes.

Context {F : Format}.

Lemma product_ok (site : string) (a b : matrix) :
  cols a = rows b ->
  exists c, product site a b = Ok c /\ has_shape (rows a) (cols b) c.
Proof.
  intros H. unfold product. rewrite H, Nat.eqb_refl. cbn [eigen_assert bind].
  eexists; split; [reflexivity |]. split; reflexivity.
Qed.

Lemma product_abort (site : string) (a b : matrix) :
  cols a <> rows b -> product site a b = Aborted site.
Proof.
  intros H. unfold product. apply Nat.eqb_neq in H. rewrite H. reflexivity.
Qed.

Lemma block_ok (site : string) (m : matrix) (i0 j0 r c : nat) :
  (i0 + r <= rows m)%nat -> (j0 + c <= cols m)%nat ->
  block site m i0 j0 r c =
  Ok (tabulate r c (fun i j => coeff m (i0 + i) (j0 + j))).
Proof.
  intros Hr Hc. unfold block.
  apply Nat.leb_le in Hr, Hc. rewrite Hr, Hc. reflexivity.
Qed.

Lemma split_head_ok (a : MultiHeadAttention) (Q K V : matrix) (n h : nat) :
  d_v_ a = d_k_ a ->
  has_shape n (num_heads_ a * d_k_ a) Q ->
  has_shape n (num_heads_ a * d_k_ a) K ->
  has_shape n (num_heads_ a * d_k_ a) V ->
  (h < num_heads_ a)%nat ->
  exists t, split_head a Q K V n h = Ok t /\ head_has_shape n (d_k_ a) t.
Proof.
  intros Hv [HQr HQc] [HKr HKc] [HVr HVc] Hh.
  assert (Hin : (h * d_k_ a + d_k_ a <= num_heads_ a * d_k_ a)%nat) by nia.
  unfold split_head. rewrite Hv.
  rewrite !block_ok by (rewrite ?HQr, ?HQc, ?HKr, ?HKc, ?HVr, ?HVc; simpl; lia).
  cbn [bind]. eexists; split; [reflexivity |].
  cbn [head_has_shape]. repeat split.
Qed.

Lemma split_heads_ok (a : MultiHeadAttention) (Q K V : matrix) (n : nat) :
  d_v_ a = d_k_ a ->
  has_shape n (num_heads_ a * d_k_ a) Q ->
  has_shape n (num_heads_ a * d_k_ a) K ->
  has_shape n (num_heads_ a * d_k_ a) V ->
  exists heads,
    for_each (split_head a Q K V n) (seq 0 (num_heads_ a)) = Ok heads /\
    length heads = num_heads_ a /\
    Forall (head_has_shape n (d_k_ a)) heads.
Proof.
  intros Hv HQ HK HV.
  destruct (for_each_Forall (split_head a Q K V n) (head_has_shape n (d_k_ a))
              (seq 0 (num_heads_ a))) as [heads [H1 [H2 H3]]].
  - intros h Hh. apply in_seq in Hh. apply split_head_ok; try assumption. lia.
  - exists heads. rewrite length_seq in H2. auto.
Qed.

Lemma head_attention_ok (n d : nat) (mask : option matrix) (t : matrix * matrix * matrix) :
  mask_fits n n mask = true -> head_has_shape n d t ->
  exists o,
    (let '(qh, kh, vh) := t in scaled_dot_product_attention qh kh vh mask) = Ok o /\
    has_shape n d o.
Proof.
  intros Hm. destruct t as [[q k] v]. intros [[Hqr Hqc] [[Hkr Hkc] [Hvr Hvc]]].
  rewrite scaled_dot_product_attention_eq.
  rewrite Hqr, Hqc, Hkr, Hkc, Hvr, Hvc, !Nat.eqb_refl, Hm.
  eexists; split; [reflexivity |]. split; reflexivity.
Qed.

Lemma head_attention_abort (n d : nat) (mask : option matrix)
    (t : matrix * matrix * matrix) :
  mask_fits n n mask = false -> head_has_shape n d t ->
  (let '(qh, kh, vh) := t in scaled_dot_product_attention qh kh vh mask) =
  Aborted "scores += *mask".
Proof.
  intros Hm. destruct t as [[q k] v]. intros [[Hqr Hqc] [[Hkr Hkc] [Hvr Hvc]]].
  rewrite scaled_dot_product_attention_eq.
  rewrite Hqr, Hqc, Hkr, Hkc, !Nat.eqb_refl, Hm. reflexivity.
Qed.

Lemma set_block_ok (site : string) (m b : matrix) (i0 j0 r c : nat) :
  (i0 + r <= rows m)%nat -> (j0 + c <= cols m)%nat -> has_shape r c b ->
  exists m', set_block site m i0 j0 r c b = Ok m' /\
             has_shape (rows m) (cols m) m'.
Proof.
  intros Hr Hc [Hbr Hbc]. unfold set_block.
  apply Nat.leb_le in Hr, Hc. rewrite Hr, Hc, Hbr, Hbc, !Nat.eqb_refl.
  cbn [andb eigen_assert bind].
  eexists; split; [reflexivity |]. split; reflexivity.
Qed.

Lemma concat_heads_ok (a : MultiHeadAttention) (n : nat) (outs : list matrix) :
  Forall (has_shape n (d_k_ a)) outs ->
  forall (h : nat) (c : matrix),
    has_shape n (num_heads_ a * d_k_ a) c ->
    (h + length outs <= num_heads_ a)%nat ->
    exists c', concat_heads a n outs h c = Ok c' /\
               has_shape n (num_heads_ a * d_k_ a) c'.
Proof.
  induction 1 as [| o outs Ho Houts IH]; intros h c Hc Hlen; simpl.
  - exists c. split; [reflexivity | exact Hc].
  - simpl in Hlen. destruct Hc as [Hcr Hcc].
    destruct (set_block_ok
      "concat.block(0, h * d_k_, seq_len, d_k_) = head_outputs[h]"
      c o 0 (h * d_k_ a) n (d_k_ a)) as [c1 [Hset [Hr1 Hc1]]].
    + rewrite Hcr. simpl. lia.
    + rewrite Hcc. nia.
    + exact Ho.
    + rewrite Hset. cbn [bind]. apply IH.
      * split; congruence.
      * lia.
Qed.

(** With a configuration the constructor accepts, an input of [d_model]
    columns and a mask of the right shape, the call returns a matrix of
    the shape of the input. *)
Lemma MultiHeadAttention_call_shape (a : MultiHeadAttention) (x : matrix)
    (mask : option matrix) :
  valid_attention a -> cols x = d_model_ a ->
  mask_fits (rows x) (rows x) mask = true ->
  exists y, MultiHeadAttention_call a x mask = Ok y /\
            has_shape (rows x) (cols x) y.
Proof.
  intros [Hh [Hd [Hv [[HQr HQc] [[HKr HKc] [[HVr HVc] [HOr HOc]]]]]]] Hx Hm.
  unfold MultiHeadAttention_call.
  destruct (product_ok "x * W_Q_" x (W_Q_ a)) as [Q [-> HQ]]; [congruence |].
  destruct (product_ok "x * W_K_" x (W_K_ a)) as [K [-> HK]]; [congruence |].
  destruct (product_ok "x * W_V_" x (W_V_ a)) as [V [-> HV]]; [congruence |].
  cbn [bind].
  rewrite HQc, Hd in HQ. rewrite HKc, Hd in HK. rewrite HVc, Hd in HV.
  destruct (split_heads_ok a Q K V (rows x) Hv HQ HK HV) as [heads [-> [Hlen Hall]]].
  cbn [bind].
  destruct (for_each_Forall
              (fun '(qh, kh, vh) => scaled_dot_product_attention qh kh vh mask)
              (has_shape (rows x) (d_k_ a)) heads) as [outs [-> [Hlen' Houts]]].
  { intros t Ht. apply head_attention_ok; [exact Hm |].
    rewrite Forall_forall in Hall. apply Hall; exact Ht. }
  cbn [bind].
  destruct (concat_heads_ok a (rows x) outs Houts 0
              (uninitialized (rows x) (d_model_ a))) as [c [-> [Hcr Hcc]]].
  { split; [reflexivity |]. unfold uninitialized, constant.
    rewrite cols_tabulate. exact Hd. }
  { simpl. lia. }
  cbn [bind].
  destruct (product_ok "concat * W_O_" c (W_O_ a)) as [y [-> [Hyr Hyc]]];
    [congruence |].
  exists y. split; [reflexivity |]. split; congruence.
Qed.

End AttentionShapes.

(** ** Inputs of the wrong shape *)

(** [d_model = 2], one head, the four projections set to the identity. *)
Definition identity_attention : MultiHeadAttention :=
  {| d_model_ := 2; num_heads_ := 1; d_k_ := 2; d_v_ := 2;
     W_Q_ := identity 2; W_K_ := identity 2;
     W_V_ := identity 2; W_O_ := identity 2 |}.

(** The input [[1, 0], [0, 1]]. *)
Definition unit_rows : matrix := of_rows 2 [[Fin 1; Fin 0]; [Fin 0; Fin 1]].

Lemma identity_attention_valid : valid_attention identity_attention.
Proof. unfold valid_attention. simpl. repeat split; lia. Qed.

Section MismatchFacts.

Context {F : Format}.

Lemma for_each_abort_head {A B : Type} (f : A -> result B) (a : A) (l : list A)
    (site : string) :
  f a = Aborted site -> for_each f (a :: l) = Aborted site.
Proof. intros H. simpl. rewrite H. reflexivity. Qed.

Lemma mask_fits_false (n : nat) (m : matrix) :
  rows m <> n \/ cols m <> n -> mask_fits n n (Some m) = false.
Proof.
  intros H. cbn [mask_fits]. apply andb_false_iff.
  destruct H as [H | H]; [left | right]; apply Nat.eqb_neq; congruence.
Qed.

End MismatchFacts.

(** C5, as the code has it: the call makes no check of its own.  An input
    whose column count is not [d_model] stops the program at the first
    projection, on the dimension check of Eigen's product.  A mask whose
    shape is not [seq_len x seq_len] stops it later, in the attention of
    the first head, at the addition of the mask to the scores.  Neither
    call returns a matrix. *)
Theorem shape_mismatch_aborts_in_eigen (F : Format) (a : MultiHeadAttention)
    (x : matrix) :
  valid_attention a ->
  (cols x <> d_model_ a ->
   forall mask, MultiHeadAttention_call a x mask = Aborted "x * W_Q_") /\
  (cols x = d_model_ a ->
   forall m, rows m <> rows x \/ cols m <> rows x ->
   MultiHeadAttention_call a x (Some m) = Aborted "scores += *mask").
Proof.
  intros [Hh [Hd [Hv [[HQr HQc] [[HKr HKc] [[HVr HVc] [HOr HOc]]]]]]]. split.
  - intros Hx mask. unfold MultiHeadAttention_call.
    rewrite product_abort by congruence. reflexivity.
  - intros Hx m Hm. unfold MultiHeadAttention_call.
    destruct (product_ok "x * W_Q_" x (W_Q_ a)) as [Q [-> HQ]]; [congruence |].
    destruct (product_ok "x * W_K_" x (W_K_ a)) as [K [-> HK]]; [congruence |].
    destruct (product_ok "x * W_V_" x (W_V_ a)) as [V [-> HV]]; [congruence |].
    cbn [bind].
    rewrite HQc, Hd in HQ. rewrite HKc, Hd in HK. rewrite HVc, Hd in HV.
    destruct (split_heads_ok a Q K V (rows x) Hv HQ HK HV) as [heads [-> [Hlen Hall]]].
    cbn [bind].
    destruct heads as [| t heads]; [simpl in Hlen; congruence |].
    rewrite (for_each_abort_head _ t heads "scores += *mask"); [reflexivity |].
    apply head_attention_abort with (n := rows x) (d := d_k_ a).
    + apply mask_fits_false; exact Hm.
    + inversion Hall; assumption.
Qed.

(** The theorem at the identity projections: an input of three columns,
    and a mask of one row and one column for an input of two rows. *)
Lemma shape_mismatch_aborts_in_eigen_witness :
  MultiHeadAttention_call (F := binary64) identity_attention
    (of_rows 3 [[Fin 1; Fin 0; Fin 0]]) None = Aborted "x * W_Q_" /\
  MultiHeadAttention_call (F := binary64) identity_attention
    unit_rows (Some (one_by_one (Fin 0))) = Aborted "scores += *mask".
Proof.
  split.
  - apply (shape_mismatch_aborts_in_eigen binary64 identity_attention
             (of_rows 3 [[Fin 1; Fin 0; Fin 0]])
             identity_attention_valid).
    simpl. lia.
  - apply (shape_mismatch_aborts_in_eigen binary64 identity_attention unit_rows
             identity_attention_valid).
    + reflexivity.
    + left. simpl. lia.
Defined.

(** C5, as the specification states it, fails: a mask of the wrong shape
    is not refused at the start of the call.  The first statement, the
    projection [x * W_Q_], is computed, and the call stops at the mask
    addition inside [scaled_dot_product_attention]. *)
Lemma mask_mismatch_is_found_late :
  (exists Q : matrix,
     product (F := binary64) "x * W_Q_" unit_rows (W_Q_ identity_attention) = Ok Q) /\
  MultiHeadAttention_call (F := binary64) identity_attention
    unit_rows (Some (one_by_one (Fin 0))) = Aborted "scores += *mask" /\
  MultiHeadAttention_call (F := binary64) identity_attention
    unit_rows (Some (one_by_one (Fin 0))) <> Aborted "x * W_Q_".
Proof.
  assert (H : MultiHeadAttention_call (F := binary64) identity_attention
                unit_rows (Some (one_by_one (Fin 0))) = Aborted "scores += *mask").
  { unfold MultiHeadAttention_call.
    destruct (product_ok (F := binary64) "x * W_Q_" unit_rows (W_Q_ identity_attention))
      as [Q [-> HQ]]; [reflexivity |].
    destruct (product_ok (F := binary64) "x * W_K_" unit_rows (W_K_ identity_attention))
      as [K [-> HK]]; [reflexivity |].
    destruct (product_ok (F := binary64) "x * W_V_" unit_rows (W_V_ identity_attention))
      as [V [-> HV]]; [reflexivity |].
    cbn [bind].
    destruct (split_heads_ok identity_attention Q K V (rows unit_rows)
                eq_refl HQ HK HV) as [heads [-> [Hlen Hall]]].
    cbn [bind].
    destruct heads as [| t heads]; [discriminate Hlen |].
    rewrite (for_each_abort_head _ t heads "scores += *mask"); [reflexivity |].
    apply head_attention_abort with (n := rows unit_rows) (d := d_k_ identity_attention).
    - reflexivity.
    - inversion Hall; assumption. }
  split; [| split].
  - destruct (product_ok (F := binary64) "x * W_Q_" unit_rows (W_Q_ identity_attention))
      as [Q [HQ _]]; [reflexivity |].
    exists Q; exact HQ.
  - exact H.
  - rewrite H. discriminate.
Qed.

(** ** Layer normalization: what the body computes *)

Definition valid_layer_norm (l : LayerNorm) : Prop :=
  has_shape (ln_d_model_ l) 1 (gamma_ l) /\ has_shape (ln_d_model_ l) 1 (beta_ l).

Section LayerNormFacts.

Context {F : Format}.

(** [mean(j)]: the mean of row [j] of [x]. *)
Definition row_mean (x : matrix) (j : nat) : scalar :=
  div (sum_s (map (fun k => coeff x j k) (seq 0 (cols x)))) (of_nat (cols x)).

(** The coefficient [(i, j)] of [x.rowwise() - mean.transpose()]: entry
    [j] of the transposed vector is subtracted from column [j]. *)
Definition centered_coeff (x : matrix) (i j : nat) : scalar :=
  sub (coeff x i j) (row_mean x j).

(** [var(i)] *)
Definition row_var (x : matrix) (i : nat) : scalar :=
  div (sum_s (map (fun j => mul (centered_coeff x i j) (centered_coeff x i j))
                  (seq 0 (cols x))))
      (of_nat (cols x)).

(** The divisor of row [i]. *)
Definition denominator (l : LayerNorm) (x : matrix) (i : nat) : scalar :=
  sqrt_s (add (row_var x i) (eps_ l)).

Lemma centered_eq (x : matrix) :
  centered x =
  if (rows x =? cols x)%nat
  then Ok (tabulate (rows x) (cols x) (centered_coeff x))
  else Aborted "x.rowwise() - mean.transpose()".
Proof.
  unfold centered, rowwise, transpose, rowwise_mean.
  rewrite !rows_tabulate, !cols_tabulate. cbn [Nat.eqb andb].
  destruct (rows x =? cols x)%nat eqn:Hsq; cbn [eigen_assert bind]; [| reflexivity].
  apply Nat.eqb_eq in Hsq.
  f_equal. apply tabulate_ext; intros i j Hi Hj.
  unfold centered_coeff, row_mean. f_equal.
  rewrite !coeff_tabulate by lia. reflexivity.
Qed.

Lemma denominators_eq (l : LayerNorm) (x : matrix) :
  denominators l x =
  if (rows x =? cols x)%nat
  then Ok (tabulate (rows x) 1 (fun i _ => denominator l x i))
  else Aborted "x.rowwise() - mean.transpose()".
Proof.
  unfold denominators. rewrite centered_eq.
  destruct (rows x =? cols x)%nat; cbn [bind]; [| reflexivity].
  f_equal. rewrite unaryExpr_tabulate.
  unfold rowwise_mean, unaryExpr. rewrite !rows_tabulate, !cols_tabulate.
  apply tabulate_ext; intros i j Hi Hj.
  rewrite coeff_tabulate by lia.
  unfold denominator, row_var. f_equal. f_equal. f_equal. f_equal.
  apply map_seq_ext; intros k Hk. rewrite coeff_tabulate by lia. reflexivity.
Qed.

(** The coefficient [(i, j)] of the result. *)
Definition layer_norm_coeff (l : LayerNorm) (x : matrix) (i j : nat) : scalar :=
  add (mul (div (centered_coeff x i j) (denominator l x i)) (coeff (gamma_ l) j 0))
      (coeff (beta_ l) j 0).

(** The call returns a matrix for an input of one row and one column,
    and for no other. *)
Lemma LayerNorm_call_eq (l : LayerNorm) (x : matrix) :
  valid_layer_norm l ->
  LayerNorm_call l x =
  if (rows x =? cols x)%nat then
    if (ln_d_model_ l =? cols x)%nat then
      if (rows x =? 1)%nat
      then Ok (tabulate (rows x) (cols x) (layer_norm_coeff l x))
      else Aborted "norm.array().rowwise() * gamma_.transpose().array() + beta_.transpose().array()"
    else Aborted "norm.array().rowwise() * gamma_.transpose().array()"
  else Aborted "x.rowwise() - mean.transpose()".
Proof.
  intros [[Hgr Hgc] [Hbr Hbc]].
  unfold LayerNorm_call. rewrite denominators_eq, centered_eq.
  destruct (rows x =? cols x)%nat; cbn [bind]; [| reflexivity].
  unfold colwise. rewrite !rows_tabulate, !cols_tabulate, !Nat.eqb_refl.
  cbn [andb eigen_assert bind].
  unfold rowwise, transpose.
  rewrite !rows_tabulate, !cols_tabulate, Hgr, Hgc. cbn [Nat.eqb andb].
  destruct (ln_d_model_ l =? cols x)%nat eqn:Hd; cbn [eigen_assert bind]; [| reflexivity].
  unfold cwise. rewrite !rows_tabulate, !cols_tabulate, Hbr, Hbc.
  rewrite (Nat.eqb_sym (cols x)), Hd, andb_true_r.
  destruct (rows x =? 1)%nat eqn:H1; cbn [eigen_assert bind]; [| reflexivity].
  apply Nat.eqb_eq in Hd, H1.
  f_equal. apply tabulate_ext; intros i j Hi Hj.
  rewrite !coeff_tabulate by lia.
  assert (i = 0)%nat as -> by lia.
  unfold layer_norm_coeff. reflexivity.
Qed.

Lemma LayerNorm_new_valid (d : nat) (eps : scalar) :
  valid_layer_norm (LayerNorm_new d eps).
Proof. repeat split. Qed.

End LayerNormFacts.

(** ** The example of [main] *)

(** The mask of [main]: [+inf] above the diagonal, zero elsewhere. *)
Definition causal_mask (seq_len : nat) : matrix :=
  tabulate seq_len seq_len (fun i j => if (i <? j)%nat then PInf else zero).

Section Main.

Context {F : Format} {E : Engine}.

(** [main], from the state [g] of the engine before the first draw; the
    result is the shape it prints. *)
Definition main (g : engine) : result (nat * nat) :=
  let seq_len := 10%nat in
  let d_model := 64%nat in
  let num_heads := 8%nat in
  let d_ff := 256%nat in
  let (input, g1) := uniform_init g (uninitialized seq_len d_model) (Fin (1 / 2)) in
  let mask := causal_mask seq_len in
  bg <- TransformerEncoderBlock_new d_model num_heads d_ff g1 ;;
  let (block, _) := bg : TransformerEncoderBlock * engine in
  output <- TransformerEncoderBlock_call block input (Some mask) ;;
  Ok (rows output, cols output).

End Main.

(** ** Shapes through the block *)

Definition valid_feed_forward (f : FeedForward) : Prop :=
  has_shape (ff_d_model_ f) (d_ff_ f) (W1_ f) /\
  has_shape (d_ff_ f) 1 (b1_ f) /\
  has_shape (d_ff_ f) (ff_d_model_ f) (W2_ f) /\
  has_shape (ff_d_model_ f) 1 (b2_ f).

Definition valid_block (b : TransformerEncoderBlock) : Prop :=
  valid_attention (attn_ b) /\ valid_feed_forward (ff_ b) /\
  valid_layer_norm (ln1_ b) /\ valid_layer_norm (ln2_ b) /\
  ff_d_model_ (ff_ b) = d_model_ (attn_ b) /\
  ln_d_model_ (ln1_ b) = d_model_ (attn_ b) /\
  ln_d_model_ (ln2_ b) = d_model_ (attn_ b).

Section BlockShapes.

Context {F : Format} {E : Engine}.

Lemma uniform_init_shape (g : engine) (m : matrix) (r : scalar) :
  has_shape (rows m) (cols m) (fst (uniform_init g m r)).
Proof.
  unfold uniform_init. destruct (init_rows (rows m) (cols m) r g).
  split; reflexivity.
Qed.

Lemma uniform_init_uninitialized (g : engine) (r c : nat) (range : scalar)
    (w : matrix) (g' : engine) :
  uniform_init g (uninitialized r c) range = (w, g') -> has_shape r c w.
Proof.
  intros H. pose proof (uniform_init_shape g (uninitialized r c) range) as Hs.
  rewrite H in Hs. exact Hs.
Qed.

Lemma MultiHeadAttention_new_valid (d h : nat) (g g' : engine)
    (a : MultiHeadAttention) :
  MultiHeadAttention_new d h g = Ok (a, g') ->
  valid_attention a /\ d_model_ a = d /\ num_heads_ a = h.
Proof.
  unfold MultiHeadAttention_new.
  destruct (h =? 0)%nat eqn:Hh; cbn [negb cassert bind]; [discriminate |].
  destruct (d mod h =? 0)%nat eqn:Hmod; cbn [cassert bind]; [| discriminate].
  destruct (uniform_init g _ _) as [wq g1] eqn:E1.
  destruct (uniform_init g1 _ _) as [wk g2] eqn:E2.
  destruct (uniform_init g2 _ _) as [wv g3] eqn:E3.
  destruct (uniform_init g3 _ _) as [wo g4] eqn:E4.
  intros H; inversion H; subst; clear H.
  apply uniform_init_uninitialized in E1, E2, E3, E4.
  apply Nat.eqb_neq in Hh. apply Nat.eqb_eq in Hmod.
  unfold valid_attention; cbn.
  repeat split; try assumption; try apply E1; try apply E2; try apply E3;
    try apply E4.
  apply Nat.Div0.div_exact in Hmod. exact Hmod.
Qed.

Lemma FeedForward_new_valid (d f : nat) (g : engine) :
  valid_feed_forward (fst (FeedForward_new d f g)) /\
  ff_d_model_ (fst (FeedForward_new d f g)) = d.
Proof.
  unfold FeedForward_new.
  destruct (uniform_init g _ _) as [w1 g1] eqn:E1.
  destruct (uniform_init g1 _ _) as [w2 g2] eqn:E2.
  apply uniform_init_uninitialized in E1, E2.
  unfold valid_feed_forward; cbn. repeat split; try apply E1; try apply E2.
Qed.

Lemma TransformerEncoderBlock_new_valid (d h f : nat) (g g' : engine)
    (b : TransformerEncoderBlock) :
  TransformerEncoderBlock_new d h f g = Ok (b, g') ->
  valid_block b /\ d_model_ (attn_ b) = d.
Proof.
  unfold TransformerEncoderBlock_new.
  destruct (MultiHeadAttention_new d h g) as [[a g1] | s] eqn:Ha; cbn [bind];
    [| discriminate].
  apply MultiHeadAttention_new_valid in Ha. destruct Ha as [Hva [Hd Hh]].
  pose proof (FeedForward_new_valid d f g1) as [Hvf Hfd].
  destruct (FeedForward_new d f g1) as [ff g2]. cbn [fst] in Hvf, Hfd.
  intros H; inversion H; subst; clear H.
  unfold valid_block; cbn.
  repeat split; try assumption; try apply Hva; try apply Hvf; auto.
Qed.

Lemma rowwise_ok (site : string) (op : scalar -> scalar -> scalar) (m v : matrix) :
  rows v = 1%nat -> cols v = cols m ->
  exists y, rowwise site op m v = Ok y /\ has_shape (rows m) (cols m) y.
Proof.
  intros Hr Hc. unfold rowwise. rewrite Hr, Hc, !Nat.eqb_refl.
  cbn [andb eigen_assert bind]. eexists; split; [reflexivity |]. split; reflexivity.
Qed.

Lemma cwise_ok (site : string) (op : scalar -> scalar -> scalar) (a b : matrix) :
  rows a = rows b -> cols a = cols b ->
  exists y, cwise site op a b = Ok y /\ has_shape (rows a) (cols a) y.
Proof.
  intros Hr Hc. unfold cwise. rewrite Hr, Hc, !Nat.eqb_refl.
  cbn [andb eigen_assert bind]. eexists; split; [reflexivity |]. split; reflexivity.
Qed.

(** The feed-forward network keeps the shape of its input. *)
Lemma FeedForward_call_shape (f : FeedForward) (x : matrix) :
  valid_feed_forward f -> cols x = ff_d_model_ f ->
  exists y, FeedForward_call f x = Ok y /\ has_shape (rows x) (cols x) y.
Proof.
  intros [[H1r H1c] [[Hb1r Hb1c] [[H2r H2c] [Hb2r Hb2c]]]] Hx.
  unfold FeedForward_call.
  destruct (product_ok "x * W1_" x (W1_ f)) as [xw [-> [Hxr Hxc]]]; [congruence |].
  cbn [bind].
  destruct (rowwise_ok "x * W1_.rowwise() + b1_.transpose()" add xw
              (transpose (b1_ f))) as [pre [-> [Hpr Hpc]]].
  { unfold transpose. rewrite rows_tabulate. exact Hb1c. }
  { unfold transpose. rewrite cols_tabulate. congruence. }
  cbn [bind].
  destruct (product_ok "hidden * W2_"
              (unaryExpr (fun v => max_s v zero) pre) (W2_ f)) as [hw [-> [Hhr Hhc]]].
  { unfold unaryExpr. rewrite cols_tabulate. congruence. }
  cbn [bind].
  destruct (rowwise_ok "hidden * W2_.rowwise() + b2_.transpose()" add hw
              (transpose (b2_ f))) as [y [-> [Hyr Hyc]]].
  { unfold transpose. rewrite rows_tabulate. exact Hb2c. }
  { unfold transpose. rewrite cols_tabulate. congruence. }
  exists y. split; [reflexivity |].
  unfold unaryExpr in Hhr. rewrite rows_tabulate in Hhr.
  split; congruence.
Qed.

(** The layer normalization returns a matrix only for an input of one
    row and one column. *)
Lemma LayerNorm_call_returns (l : LayerNorm) (x y : matrix) :
  valid_layer_norm l -> LayerNorm_call l x = Ok y ->
  rows x = 1%nat /\ cols x = 1%nat /\ has_shape 1 1 y.
Proof.
  intros Hl. rewrite (LayerNorm_call_eq l x Hl).
  destruct (rows x =? cols x)%nat eqn:Hsq; [| discriminate].
  destruct (ln_d_model_ l =? cols x)%nat; [| discriminate].
  destruct (rows x =? 1)%nat eqn:H1; [| discriminate].
  apply Nat.eqb_eq in Hsq, H1.
  intros H; inversion H; subst; clear H.
  unfold has_shape. rewrite rows_tabulate, cols_tabulate. lia.
Qed.

(** On an input of [d_model] columns that is not square, the block stops
    in its first layer normalization. *)
Lemma TransformerEncoderBlock_call_aborts (b : TransformerEncoderBlock)
    (x : matrix) (mask : option matrix) :
  valid_block b -> cols x = d_model_ (attn_ b) ->
  mask_fits (rows x) (rows x) mask = true ->
  rows x <> cols x ->
  TransformerEncoderBlock_call b x mask = Aborted "x.rowwise() - mean.transpose()".
Proof.
  intros [Ha [Hf [Hl1 [Hl2 [Hfd [Hd1 Hd2]]]]]] Hx Hm Hns.
  unfold TransformerEncoderBlock_call.
  destruct (MultiHeadAttention_call_shape (attn_ b) x mask Ha Hx Hm)
    as [ao [-> [Haor Haoc]]].
  cbn [bind].
  destruct (cwise_ok "x + attn_out" add x ao) as [s1 [-> [Hsr Hsc]]];
    [congruence | congruence |].
  cbn [bind].
  rewrite (LayerNorm_call_eq (ln1_ b) s1 Hl1).
  rewrite Hsr, Hsc. apply Nat.eqb_neq in Hns. rewrite Hns. reflexivity.
Qed.

(** The block returns a matrix only for an input of one row and one
    column. *)
Lemma TransformerEncoderBlock_call_returns (b : TransformerEncoderBlock)
    (x y : matrix) (mask : option matrix) :
  valid_block b -> TransformerEncoderBlock_call b x mask = Ok y ->
  rows x = 1%nat /\ cols x = 1%nat.
Proof.
  intros [Ha [Hf [Hl1 [Hl2 _]]]] H. unfold TransformerEncoderBlock_call in H.
  apply bind_ok in H. destruct H as [ao [_ H]].
  apply bind_ok in H. destruct H as [s1 [Hs1 H]].
  apply bind_ok in H. destruct H as [x1 [Hx1 _]].
  apply (LayerNorm_call_returns _ _ _ Hl1) in Hx1. destruct Hx1 as [Hr [Hc _]].
  unfold cwise in Hs1. apply bind_ok in Hs1. destruct Hs1 as [u [_ Hs1]].
  inversion Hs1; subst s1. rewrite rows_tabulate in Hr.
  rewrite cols_tabulate in Hc. split; assumption.
Qed.

(** [main] stops in the first layer normalization of the block, whatever
    the engine draws. *)
Lemma main_aborts (g : engine) :
  main g = Aborted "x.rowwise() - mean.transpose()".
Proof.
  unfold main.
  destruct (uniform_init g _ _) as [input g1] eqn:Ei.
  apply uniform_init_uninitialized in Ei. destruct Ei as [Hir Hic].
  destruct (TransformerEncoderBlock_new 64 8 256 g1) as [[b g2] | s] eqn:Hb.
  - apply TransformerEncoderBlock_new_valid in Hb. destruct Hb as [Hv Hd].
    cbn [bind].
    rewrite (TransformerEncoderBlock_call_aborts b input (Some (causal_mask 10)) Hv).
    + reflexivity.
    + congruence.
    + rewrite Hir. reflexivity.
    + rewrite Hir, Hic. discriminate.
  - exfalso. unfold TransformerEncoderBlock_new, MultiHeadAttention_new in Hb.
    cbn [Nat.eqb negb cassert bind] in Hb.
    change (64 mod 8 =? 0)%nat with true in Hb. cbn [cassert bind] in Hb.
    destruct (uniform_init g1 _ _) as [wq g2].
    destruct (uniform_init g2 _ _) as [wk g3].
    destruct (uniform_init g3 _ _) as [wv g4].
    destruct (uniform_init g4 _ _) as [wo g5].
    cbn [bind] in Hb.
    destruct (FeedForward_new 64 256 g5). discriminate.
Qed.

End BlockShapes.

(** C3: the layer normalization, and with it the block, does not return
    a matrix of the shape of its input: on an input that is not a single
    number the call stops on a dimension check.  The mean has one entry
    per row and [x.rowwise() - mean.transpose()] subtracts it from every
    row as a row vector, which needs as many columns as rows; and
    [... + beta_.transpose().array()] adds a row vector to a whole array,
    which needs a single row.  The division of the same body uses
    [colwise()], the orientation that fits.  The run of [main] (ten rows,
    64 columns) stops at the first of the two, whatever the weights. *)
Theorem layer_norm_aborts_on_a_matrix (F : Format) (E : Engine) :
  (forall g : engine, main g = Aborted "x.rowwise() - mean.transpose()") /\
  LayerNorm_call (LayerNorm_new 2 default_eps) (of_rows 2 [[Fin 1; Fin 2]]) =
    Aborted "x.rowwise() - mean.transpose()" /\
  LayerNorm_call (LayerNorm_new 2 default_eps) unit_rows =
    Aborted "norm.array().rowwise() * gamma_.transpose().array() + beta_.transpose().array()".
Proof.
  split; [exact main_aborts |].
  split; rewrite LayerNorm_call_eq by apply LayerNorm_new_valid; reflexivity.
Qed.

(** ** Layer normalization: the divisor *)

Section DenominatorFacts.

Context {F : Format}.

(** A positive number or [+inf]. *)
Definition positive (x : scalar) : Prop :=
  match x with
  | Fin a => 0 < a
  | PInf => True
  | NInf | NaN => False
  end.

Definition not_nan (x : scalar) : Prop := x <> NaN.

Lemma rnd_not_nan (r : R) : not_nan (rnd r).
Proof.
  unfold rnd, not_nan. destruct (Rlt_dec fmax r); [discriminate |].
  destruct (Rlt_dec r (- fmax)); discriminate.
Qed.

Lemma rnd_positive (r : R) : 0 < r -> positive (rnd r).
Proof.
  intros Hr. unfold rnd. pose proof fmax_pos.
  destruct (Rlt_dec fmax r); [exact I |].
  destruct (Rlt_dec r (- fmax)); [lra | exact Hr].
Qed.

Lemma square_nonneg (c : scalar) : nonneg (mul c c).
Proof.
  destruct c as [a | | |]; simpl; try exact I.
  apply rnd_nonneg. nra.
Qed.

Lemma square_not_nan (c : scalar) : not_nan c -> not_nan (mul c c).
Proof.
  destruct c as [a | | |]; simpl; intros H; try discriminate.
  - apply rnd_not_nan.
  - exfalso; apply H; reflexivity.
Qed.

Lemma add_not_nan_nonneg (x y : scalar) :
  nonneg x -> nonneg y -> not_nan x -> not_nan y -> not_nan (add x y).
Proof.
  destruct x as [a | | |], y as [b | | |]; simpl; intros Hx Hy Hnx Hny;
    try discriminate; try contradiction; try (exfalso; apply Hnx; reflexivity);
    try (exfalso; apply Hny; reflexivity).
  apply rnd_not_nan.
Qed.

Lemma fold_add_not_nan (l : list scalar) (acc : scalar) :
  nonneg acc -> not_nan acc -> Forall nonneg l -> Forall not_nan l ->
  not_nan (fold_left add l acc).
Proof.
  revert acc. induction l as [| y l IH]; intros acc Ha Hna Hl Hnl; simpl.
  - exact Hna.
  - inversion Hl; inversion Hnl; subst. apply IH; try assumption.
    + apply add_nonneg; assumption.
    + apply add_not_nan_nonneg; assumption.
Qed.

Lemma of_nat_cases (n : nat) : of_nat n = Fin (INR n) \/ of_nat n = PInf.
Proof.
  unfold of_nat, rnd. pose proof (pos_INR n). pose proof fmax_pos.
  destruct (Rlt_dec fmax (INR n)); [right; reflexivity |].
  destruct (Rlt_dec (INR n) (- fmax)); [lra | left; reflexivity].
Qed.

Lemma div_nonneg_of_nat (s : scalar) (n : nat) : nonneg s -> nonneg (div s (of_nat n)).
Proof.
  intros Hs. pose proof (pos_INR n) as Hn.
  destruct (of_nat_cases n) as [-> | ->].
  - destruct s as [a | | |]; simpl in *; try exact I; try contradiction.
    + destruct (Req_dec_T (INR n) 0) as [H0 | H0].
      * destruct (Req_dec_T a 0); [exact I |].
        destruct (Rlt_dec 0 a); [exact I | lra].
      * apply rnd_nonneg. apply Rmult_le_pos; [exact Hs |].
        left. apply Rinv_0_lt_compat. lra.
    + unfold inf_over. destruct (Rlt_dec (INR n) 0); [lra | exact I].
  - destruct s as [a | | |]; simpl in *; try exact I; try contradiction. lra.
Qed.

Lemma add_eps_positive (v : scalar) (e : R) :
  0 < e -> nonneg v -> positive (add v (Fin e)) \/ add v (Fin e) = NaN.
Proof.
  intros He Hv. destruct v as [a | | |]; simpl in *; try contradiction.
  - left. apply rnd_positive. lra.
  - left. exact I.
  - right. reflexivity.
Qed.

Lemma sqrt_s_positive (x : scalar) : positive x -> positive (sqrt_s x).
Proof.
  destruct x as [a | | |]; simpl; intros Hx; try contradiction; try exact I.
  destruct (Rlt_dec a 0); [lra |]. apply rnd_positive. apply sqrt_lt_R0; exact Hx.
Qed.

Lemma row_var_nonneg (x : matrix) (i : nat) : nonneg (row_var x i).
Proof.
  unfold row_var. apply div_nonneg_of_nat. unfold sum_s.
  apply fold_add_nonneg; [simpl; lra |].
  apply Forall_forall; intros y Hy. apply in_map_iff in Hy.
  destruct Hy as [j [<- _]]. apply square_nonneg.
Qed.

(** For every input the divisor of a row is positive, or NaN: it is
    never zero. *)
Lemma denominator_positive_or_nan (l : LayerNorm) (x : matrix) (e : R) (i : nat) :
  eps_ l = Fin e -> 0 < e ->
  positive (denominator l x i) \/ denominator l x i = NaN.
Proof.
  intros He Hpos. unfold denominator. rewrite He.
  destruct (add_eps_positive (row_var x i) e Hpos (row_var_nonneg x i)) as [H | H].
  - left. apply sqrt_s_positive; exact H.
  - right. rewrite H. reflexivity.
Qed.

Lemma fold_add_fin_not_nan (l : list scalar) (acc : scalar) :
  not_nan acc -> Forall finite l -> not_nan (fold_left add l acc).
Proof.
  revert acc. induction l as [| y l IH]; intros acc Ha Hl; simpl; [exact Ha |].
  inversion Hl; subst. apply IH; [| assumption].
  destruct y as [b | | |]; simpl in *; try contradiction.
  destruct acc as [a | | |]; simpl; try discriminate.
  - apply rnd_not_nan.
  - exfalso; apply Ha; reflexivity.
Qed.

Lemma div_fin_nat_not_nan (s : scalar) (n : nat) :
  (0 < n)%nat -> INR n <= fmax -> not_nan s -> not_nan (div s (of_nat n)).
Proof.
  intros Hn Hmax Hs. assert (0 < INR n) as Hpos by (apply lt_0_INR; exact Hn).
  unfold of_nat. rewrite rnd_in_range by (pose proof fmax_pos; lra).
  destruct s as [a | | |]; simpl.
  - destruct (Req_dec_T (INR n) 0); [lra | apply rnd_not_nan].
  - unfold inf_over. destruct (Rlt_dec (INR n) 0); discriminate.
  - unfold inf_over. destruct (Rlt_dec (INR n) 0); discriminate.
  - exfalso; apply Hs; reflexivity.
Qed.

Lemma row_mean_not_nan (x : matrix) (j : nat) :
  all_coeffs finite x -> (j < rows x)%nat -> (0 < cols x)%nat ->
  INR (cols x) <= fmax -> not_nan (row_mean x j).
Proof.
  intros Hfin Hj Hc Hmax. unfold row_mean.
  apply div_fin_nat_not_nan; [exact Hc | exact Hmax |].
  unfold sum_s. apply fold_add_fin_not_nan; [discriminate |].
  apply Forall_forall; intros y Hy. apply in_map_iff in Hy.
  destruct Hy as [k [<- Hk]]. apply in_seq in Hk. apply Hfin; lia.
Qed.

Lemma centered_coeff_not_nan (x : matrix) (i j : nat) :
  all_coeffs finite x -> rows x = cols x -> INR (cols x) <= fmax ->
  (i < rows x)%nat -> (j < cols x)%nat -> not_nan (centered_coeff x i j).
Proof.
  intros Hfin Hsq Hmax Hi Hj.
  pose proof (row_mean_not_nan x j Hfin ltac:(lia) ltac:(lia) Hmax) as Hm.
  pose proof (Hfin i j Hi Hj) as Hx.
  unfold centered_coeff, sub.
  destruct (coeff x i j) as [a | | |]; simpl in Hx; try contradiction.
  destruct (row_mean x j) as [m | | |]; simpl; try discriminate.
  - apply rnd_not_nan.
  - exfalso; apply Hm; reflexivity.
Qed.

Lemma row_var_not_nan (x : matrix) (i : nat) :
  all_coeffs finite x -> rows x = cols x -> INR (cols x) <= fmax ->
  (i < rows x)%nat -> not_nan (row_var x i).
Proof.
  intros Hfin Hsq Hmax Hi. unfold row_var.
  apply div_fin_nat_not_nan; [lia | exact Hmax |].
  unfold sum_s. apply fold_add_not_nan.
  - simpl; lra.
  - discriminate.
  - apply Forall_forall; intros y Hy. apply in_map_iff in Hy.
    destruct Hy as [j [<- _]]. apply square_nonneg.
  - apply Forall_forall; intros y Hy. apply in_map_iff in Hy.
    destruct Hy as [j [<- Hj]]. apply in_seq in Hj.
    apply square_not_nan. apply centered_coeff_not_nan; try assumption. lia.
Qed.

(** For a finite input the divisor of a row is positive. *)
Lemma denominator_positive (l : LayerNorm) (x : matrix) (e : R) (i : nat) :
  eps_ l = Fin e -> 0 < e ->
  all_coeffs finite x -> rows x = cols x -> INR (cols x) <= fmax ->
  (i < rows x)%nat -> positive (denominator l x i).
Proof.
  intros He Hpos Hfin Hsq Hmax Hi.
  pose proof (row_var_not_nan x i Hfin Hsq Hmax Hi) as Hnn.
  pose proof (row_var_nonneg x i) as Hge.
  unfold denominator. rewrite He. apply sqrt_s_positive.
  destruct (row_var x i) as [v | | |]; simpl in *; try contradiction.
  - apply rnd_positive. lra.
  - exact I.
Qed.

End DenominatorFacts.

(** Two constant rows. *)
Definition constant_rows : matrix := of_rows 2 [[Fin 3; Fin 3]; [Fin 3; Fin 3]].

(** C10: the divisor [sqrt(var + eps)] of a row is never zero when
    [eps > 0].  Wherever the body gets as far as computing the divisors
    (it does for every square input), each is positive or NaN; and for a
    finite input each is positive (a positive number or [+inf]), also
    for a constant row, whose variance is 0. *)
Theorem layer_norm_denominator_is_positive (F : Format) (l : LayerNorm)
    (x : matrix) (e : R) :
  eps_ l = Fin e -> 0 < e ->
  (rows x = cols x ->
   exists den, denominators l x = Ok den /\ has_shape (rows x) 1 den) /\
  (forall den, denominators l x = Ok den ->
   forall i, (i < rows x)%nat ->
     (positive (coeff den i 0) \/ coeff den i 0 = NaN) /\
     (all_coeffs finite x -> INR (cols x) <= fmax -> positive (coeff den i 0))).
Proof.
  intros He Hpos. rewrite denominators_eq. split.
  - intros Hsq. rewrite Hsq, Nat.eqb_refl.
    eexists; split; [reflexivity |]. split; reflexivity.
  - intros den Hden i Hi.
    destruct (rows x =? cols x)%nat eqn:Hsq; [| discriminate].
    apply Nat.eqb_eq in Hsq. inversion Hden; subst den; clear Hden.
    rewrite coeff_tabulate by lia. split.
    + apply denominator_positive_or_nan with (e := e); assumption.
    + intros Hfin Hmax. apply denominator_positive with (e := e); assumption.
Qed.

Lemma constant_rows_finite (F : Format) : all_coeffs finite constant_rows.
Proof.
  intros i j Hi Hj. simpl in Hi, Hj.
  destruct i as [| [| i]]; [| | lia];
    (destruct j as [| [| j]]; [| | lia]); simpl; pose proof fmax_large; lra.
Qed.

(** The theorem at two constant rows and the default [eps]. *)
Lemma layer_norm_denominator_is_positive_witness :
  exists den : matrix,
    denominators (F := binary64) (LayerNorm_new 2 default_eps) constant_rows = Ok den /\
    positive (coeff den 0 0) /\ positive (coeff den 1 0).
Proof.
  pose proof (layer_norm_denominator_is_positive binary64
                (LayerNorm_new 2 default_eps) constant_rows (1 / 100000)
                eq_refl ltac:(lra)) as [Hex Hall].
  destruct (Hex eq_refl) as [den [Hden _]].
  exists den. split; [exact Hden |].
  assert (Hmax : INR (cols constant_rows) <= @fmax binary64).
  { pose proof (@fmax_large binary64).
    change (INR (cols constant_rows)) with (1 + 1). lra. }
  split.
  - apply (proj2 (Hall den Hden 0%nat ltac:(simpl; lia)));
      [apply constant_rows_finite | exact Hmax].
  - apply (proj2 (Hall den Hden 1%nat ltac:(simpl; lia)));
      [apply constant_rows_finite | exact Hmax].
Defined.

(** ** Layer normalization: the statistics of a row *)

Definition sample_mean (l : list R) : R :=
  fold_right Rplus 0 l / INR (length l).

Definition sample_variance (l : list R) : R :=
  sample_mean (map (fun a => (a - sample_mean l) * (a - sample_mean l)) l).

(** Row [i] of [y] holds numbers whose mean is within [1e-5] of 0 and
    whose variance is within [1e-3] of 1. *)
Definition row_is_normalized (y : matrix) (i : nat) : Prop :=
  exists l : list R,
    length l = cols y /\
    (forall j, (j < cols y)%nat -> coeff y i j = Fin (nth j l 0)) /\
    Rabs (sample_mean l) <= 1 / 100000 /\
    Rabs (sample_variance l - 1) <= 1 / 1000.

Section StatisticsFacts.

Context {F : Format}.

Lemma sqrt_le_fmax (e : R) : 0 <= e <= fmax -> - fmax <= sqrt e <= fmax.
Proof.
  intros [H0 He]. pose proof fmax_large as Hf. pose proof (sqrt_pos e) as Hs.
  split; [lra |].
  destruct (Rle_dec e 1) as [H1 | H1].
  - pose proof (sqrt_le_1 e 1 H0 ltac:(lra) H1) as H. rewrite sqrt_1 in H. lra.
  - pose proof (sqrt_sqrt e H0) as Hsq.
    assert (1 <= sqrt e).
    { rewrite <- sqrt_1. apply sqrt_le_1; lra. }
    nra.
Qed.

(** The body on an input of one row and one column: the mean is the
    entry, the centered entry and the variance are 0, and the result is
    [0 / sqrt(eps) * 1 + 0]. *)
Lemma layer_norm_single (x : matrix) (a e : R) :
  cols x = 1%nat -> coeff x 0 0 = Fin a -> - fmax <= a <= fmax ->
  0 < e <= fmax ->
  row_var x 0 = Fin 0 /\
  layer_norm_coeff (LayerNorm_new 1 (Fin e)) x 0 0 = Fin 0.
Proof.
  intros Hc Hx Ha He. pose proof fmax_large as Hf.
  assert (Hmean : row_mean x 0 = Fin a).
  { unfold row_mean. rewrite Hc. cbn [seq map]. rewrite Hx, of_nat_1.
    unfold sum_s, zero. cbn [fold_left add].
    rewrite Rplus_0_l, (rnd_in_range a) by exact Ha.
    rewrite div_fin by lra. replace (a / 1) with a by lra.
    apply rnd_in_range; exact Ha. }
  assert (Hcen : centered_coeff x 0 0 = Fin 0).
  { unfold centered_coeff, sub. rewrite Hx, Hmean. cbn [neg add].
    rewrite Rplus_opp_r. apply rnd_in_range; lra. }
  assert (Hvar : row_var x 0 = Fin 0).
  { unfold row_var. rewrite Hc. cbn [seq map]. rewrite Hcen, of_nat_1.
    unfold sum_s, zero. cbn [fold_left mul].
    rewrite Rmult_0_l, (rnd_in_range 0) by lra.
    cbn [add]. rewrite Rplus_0_l, (rnd_in_range 0) by lra.
    rewrite div_fin by lra. replace (0 / 1) with 0 by lra.
    apply rnd_in_range; lra. }
  split; [exact Hvar |].
  unfold layer_norm_coeff, denominator. rewrite Hcen, Hvar.
  cbn [LayerNorm_new eps_ gamma_ beta_ add].
  rewrite Rplus_0_l, (rnd_in_range e) by lra.
  rewrite sqrt_s_fin by lra.
  rewrite (rnd_in_range (sqrt e)) by (apply sqrt_le_fmax; lra).
  assert (0 < sqrt e) by (apply sqrt_lt_R0; lra).
  rewrite div_fin by lra.
  replace (0 / sqrt e) with 0 by (unfold Rdiv; ring).
  rewrite (rnd_in_range 0) by lra.
  unfold constant. rewrite !coeff_tabulate by lia.
  unfold one, zero. cbn [mul]. rewrite Rmult_0_l, (rnd_in_range 0) by lra.
  cbn [add]. rewrite Rplus_0_l. apply rnd_in_range; lra.
Qed.

Lemma sample_statistics_zero :
  sample_mean [0] = 0 /\ sample_variance [0] = 0.
Proof.
  assert (Hm : sample_mean [0] = 0).
  { unfold sample_mean. simpl. lra. }
  split; [exact Hm |].
  unfold sample_variance. rewrite Hm. unfold sample_mean. simpl. lra.
Qed.

End StatisticsFacts.


(** ** A mask of zeros *)

Section ZeroMaskFacts.

Context {F : Format}.

Lemma masked_score_zero (m Q K : matrix) (i j : nat) :
  coeff m i j = zero -> masked_score (Some m) Q K i j = masked_score None Q K i j.
Proof.
  intros Hm. cbn [masked_score]. rewrite Hm.
  apply add_zero_r. unfold score. apply div_representable.
Qed.

Lemma weight_zero_mask (m Q K : matrix) (i j : nat) :
  (forall k, (k < rows K)%nat -> coeff m i k = zero) -> (j < rows K)%nat ->
  weight (Some m) Q K i j = weight None Q K i j.
Proof.
  intros Hm Hj. unfold weight. f_equal.
  - f_equal. apply masked_score_zero. apply Hm; exact Hj.
  - f_equal. apply map_seq_ext; intros k Hk. f_equal.
    apply masked_score_zero. apply Hm; exact Hk.
Qed.

(** Attention with a mask of zeros of the shape of the scores. *)
Lemma attention_zero_mask (Q K V m : matrix) :
  has_shape (rows Q) (rows K) m ->
  (forall i j, (i < rows Q)%nat -> (j < rows K)%nat -> coeff m i j = zero) ->
  scaled_dot_product_attention Q K V (Some m) =
  scaled_dot_product_attention Q K V None.
Proof.
  intros [Hr Hc] Hm. rewrite !scaled_dot_product_attention_eq.
  cbn [mask_fits]. rewrite Hr, Hc, !Nat.eqb_refl. cbn [andb].
  destruct (cols Q =? cols K)%nat; [| reflexivity].
  destruct (rows K =? rows V)%nat; [| reflexivity].
  f_equal. apply tabulate_ext; intros i j Hi Hj. f_equal.
  apply map_seq_ext; intros k Hk. f_equal.
  apply weight_zero_mask; [| exact Hk]. intros k' Hk'. apply Hm; assumption.
Qed.

Lemma block_shape (site : string) (m b : matrix) (i0 j0 r c : nat) :
  block site m i0 j0 r c = Ok b -> has_shape r c b.
Proof.
  unfold block. intros H. apply bind_ok in H. destruct H as [u [_ H]].
  inversion H; subst. split; reflexivity.
Qed.

Lemma split_head_rows (a : MultiHeadAttention) (Q K V : matrix) (n h : nat)
    (q k v : matrix) :
  split_head a Q K V n h = Ok (q, k, v) -> rows q = n /\ rows k = n.
Proof.
  unfold split_head. intros H.
  apply bind_ok in H. destruct H as [q' [Hq H]].
  apply bind_ok in H. destruct H as [k' [Hk H]].
  apply bind_ok in H. destruct H as [v' [Hv H]].
  inversion H; subst. apply block_shape in Hq, Hk. split; [apply Hq | apply Hk].
Qed.

Lemma for_each_inv {A B : Type} (f : A -> result B) (l : list A) (bs : list B) :
  for_each f l = Ok bs -> forall b, In b bs -> exists a, In a l /\ f a = Ok b.
Proof.
  revert bs. induction l as [| a l IH]; intros bs H b Hb; simpl in H.
  - inversion H; subst. contradiction.
  - apply bind_ok in H. destruct H as [b0 [Hb0 H]].
    apply bind_ok in H. destruct H as [bs0 [Hbs0 H]].
    inversion H; subst. destruct Hb as [<- | Hb].
    + exists a. split; [left; reflexivity | exact Hb0].
    + destruct (IH bs0 Hbs0 b Hb) as [a' [Ha' Hf]].
      exists a'. split; [right; exact Ha' | exact Hf].
Qed.

(** The multi-head attention with a mask of zeros. *)
Lemma MultiHeadAttention_zero_mask (a : MultiHeadAttention) (x m : matrix) :
  has_shape (rows x) (rows x) m -> all_coeffs (fun v => v = zero) m ->
  MultiHeadAttention_call a x (Some m) = MultiHeadAttention_call a x None.
Proof.
  intros Hs Hm. unfold MultiHeadAttention_call.
  destruct (product "x * W_Q_" x (W_Q_ a)) as [Q | s]; [| reflexivity].
  destruct (product "x * W_K_" x (W_K_ a)) as [K | s]; [| reflexivity].
  destruct (product "x * W_V_" x (W_V_ a)) as [V | s]; [| reflexivity].
  cbn [bind].
  destruct (for_each (split_head a Q K V (rows x)) (seq 0 (num_heads_ a)))
    as [heads | s] eqn:Hheads; [| reflexivity].
  cbn [bind].
  rewrite (for_each_ext_in
             (fun '(qh, kh, vh) => scaled_dot_product_attention qh kh vh (Some m))
             (fun '(qh, kh, vh) => scaled_dot_product_attention qh kh vh None)
             heads); [reflexivity |].
  intros [[q k] v] Ht.
  destruct (for_each_inv _ _ _ Hheads _ Ht) as [h [_ Hh]].
  apply split_head_rows in Hh. destruct Hh as [Hq Hk].
  destruct Hs as [Hmr Hmc].
  apply attention_zero_mask.
  - split; congruence.
  - intros i j Hi Hj. apply Hm; congruence.
Qed.

End ZeroMaskFacts.

(** C8: for every input and every weights, a forward pass with a mask
    of zeros (of the shape [seq_len x seq_len] that a mask must have)
    gives what the pass without a mask gives, in the block and in the
    multi-head attention. *)
Theorem zero_mask_is_no_mask (F : Format) (x m : matrix) :
  has_shape (rows x) (rows x) m -> all_coeffs (fun v => v = zero) m ->
  (forall b : TransformerEncoderBlock,
     TransformerEncoderBlock_call b x (Some m) = TransformerEncoderBlock_call b x None) /\
  (forall a : MultiHeadAttention,
     MultiHeadAttention_call a x (Some m) = MultiHeadAttention_call a x None).
Proof.
  intros Hs Hm. split.
  - intros b. unfold TransformerEncoderBlock_call.
    rewrite (MultiHeadAttention_zero_mask (attn_ b) x m Hs Hm). reflexivity.
  - intros a. apply MultiHeadAttention_zero_mask; assumption.
Qed.

(** The theorem at the input [[1, 0], [0, 1]] and the mask of four
    zeros. *)
Lemma zero_mask_is_no_mask_witness :
  (forall b : TransformerEncoderBlock,
     TransformerEncoderBlock_call (F := binary64) b unit_rows
       (Some (of_rows 2 [[Fin 0; Fin 0]; [Fin 0; Fin 0]])) =
     TransformerEncoderBlock_call (F := binary64) b unit_rows None) /\
  (forall a : MultiHeadAttention,
     MultiHeadAttention_call (F := binary64) a unit_rows
       (Some (of_rows 2 [[Fin 0; Fin 0]; [Fin 0; Fin 0]])) =
     MultiHeadAttention_call (F := binary64) a unit_rows None).
Proof.
  apply (zero_mask_is_no_mask binary64 unit_rows
           (of_rows 2 [[Fin 0; Fin 0]; [Fin 0; Fin 0]])).
  - split; reflexivity.
  - intros i j Hi Hj. simpl in Hi, Hj.
    destruct i as [| [| i]]; [| | lia];
      (destruct j as [| [| j]]; [| | lia]); reflexivity.
Defined.

(** ** Weight initialization *)

(** An engine for examples: in state [n] it draws [1 / (n + 2)] and moves
    to state [n + 1]. *)
Definition harmonic_draw (n : nat) : R * nat := (/ (INR n + 2), S n).

Lemma harmonic_draw_range (n : nat) : 0 <= fst (harmonic_draw n) < 1.
Proof.
  unfold harmonic_draw; cbn [fst]. pose proof (pos_INR n) as Hn.
  assert (0 < / (INR n + 2)) by (apply Rinv_0_lt_compat; lra).
  split; [lra |].
  rewrite <- Rinv_1. apply Rinv_lt_contravar; lra.
Qed.

Definition harmonic_engine : Engine :=
  {| engine := nat; canonical := harmonic_draw; canonical_range := harmonic_draw_range |}.

Section InitFacts.

Context {F : Format} {E : Engine}.

(** The state of the engine after [n] draws. *)
Fixpoint advance (n : nat) (g : engine) : engine :=
  match n with
  | O => g
  | S n' => advance n' (snd (canonical g))
  end.

(** The number that [dist(rng)] returns in state [g]. *)
Definition drawn (init_range : scalar) (g : engine) : scalar :=
  fst (uniform_real_distribution (neg init_range) init_range g).

Lemma advance_add (a b : nat) (g : engine) :
  advance (a + b) g = advance b (advance a g).
Proof. revert g. induction a as [| a IH]; intros g; simpl; [reflexivity | apply IH]. Qed.

Lemma uniform_real_distribution_snd (a b : scalar) (g : engine) :
  snd (uniform_real_distribution a b g) = snd (canonical g).
Proof. unfold uniform_real_distribution. destruct (canonical g); reflexivity. Qed.

Lemma init_row_spec (c : nat) (range : scalar) (g : engine) :
  snd (init_row c range g) = advance c g /\
  forall j, (j < c)%nat ->
    nth j (fst (init_row c range g)) NaN = drawn range (advance j g).
Proof.
  revert g. induction c as [| c IH]; intros g; simpl.
  - split; [reflexivity | intros j Hj; lia].
  - pose proof (uniform_real_distribution_snd (neg range) range g) as Hs.
    unfold drawn.
    destruct (uniform_real_distribution (neg range) range g) as [v g1] eqn:Ev.
    cbn [snd] in Hs. subst g1.
    destruct (IH (snd (canonical g))) as [IH1 IH2].
    destruct (init_row c range (snd (canonical g))) as [vs g2].
    cbn [fst snd] in *. split; [exact IH1 |].
    intros [| j] Hj; simpl.
    + rewrite Ev. reflexivity.
    + apply IH2. lia.
Qed.

Lemma init_rows_spec (r c : nat) (range : scalar) (g : engine) :
  snd (init_rows r c range g) = advance (r * c) g /\
  forall i j, (i < r)%nat -> (j < c)%nat ->
    nth j (nth i (fst (init_rows r c range g)) []) NaN =
    drawn range (advance (i * c + j) g).
Proof.
  revert g. induction r as [| r IH]; intros g; simpl.
  - split; [reflexivity | intros i j Hi; lia].
  - destruct (init_row_spec c range g) as [R1 R2].
    destruct (init_row c range g) as [row g1]. cbn [fst snd] in R1, R2. subst g1.
    destruct (IH (advance c g)) as [IH1 IH2].
    destruct (init_rows r c range (advance c g)) as [rest g2].
    cbn [fst snd] in *. split.
    + rewrite IH1. symmetry. apply advance_add.
    + intros [| i] j Hi Hj; simpl.
      * apply R2; exact Hj.
      * rewrite IH2 by lia. f_equal. rewrite <- advance_add. f_equal. lia.
Qed.

(** The draw for the bound [r] lies in [[-r, r)]. *)
Lemma drawn_range (r : R) (g : engine) :
  0 < r -> r + r <= fmax ->
  exists v, drawn (Fin r) g = Fin v /\ - r <= v < r.
Proof.
  intros Hr Hmax. unfold drawn, uniform_real_distribution.
  pose proof (canonical_range g) as Hu.
  destruct (canonical g) as [u g1]. cbn [fst] in *.
  unfold sub. cbn [neg add]. rewrite Ropp_involutive.
  rewrite (rnd_in_range (r + r)) by lra.
  cbn [mul]. assert (0 <= (r + r) * u < r + r) by nra.
  rewrite (rnd_in_range ((r + r) * u)) by lra.
  cbn [add]. rewrite rnd_in_range by lra.
  eexists; split; [reflexivity | lra].
Qed.

Lemma drawn_value (r : R) (g : engine) :
  0 < r -> r + r <= fmax ->
  drawn (Fin r) g = Fin (- r + (r + r) * fst (canonical g)).
Proof.
  intros Hr Hmax. unfold drawn, uniform_real_distribution.
  pose proof (canonical_range g) as Hu.
  destruct (canonical g) as [u g1]. cbn [fst] in *.
  unfold sub. cbn [neg add]. rewrite Ropp_involutive.
  rewrite (rnd_in_range (r + r)) by lra.
  cbn [mul]. assert (0 <= (r + r) * u < r + r) by nra.
  rewrite (rnd_in_range ((r + r) * u)) by lra.
  cbn [add]. apply rnd_in_range. lra.
Qed.

Lemma uniform_init_spec (g : engine) (m : matrix) (range : scalar) :
  snd (uniform_init g m range) = advance (rows m * cols m) g /\
  forall i j, (i < rows m)%nat -> (j < cols m)%nat ->
    coeff (fst (uniform_init g m range)) i j =
    drawn range (advance (i * cols m + j) g).
Proof.
  unfold uniform_init.
  destruct (init_rows_spec (rows m) (cols m) range g) as [H1 H2].
  destruct (init_rows (rows m) (cols m) range g) as [l g'].
  cbn [fst snd] in *. split; [exact H1 |].
  intros i j Hi Hj. unfold coeff; cbn [coeffs]. apply H2; assumption.
Qed.

End InitFacts.

(** C9, as the code has it: [uniform_init] takes the matrix and the
    bound, and neither a seed nor a random source.  What it returns is
    fixed by the shape, the bound and the state in which the last call
    left the engine hidden in the function: entry [(i, j)] is draw
    number [i * cols + j] from that state, a number of [[-r, r)], and the
    call leaves the engine [rows * cols] draws further. *)
Theorem uniform_init_draws_from_hidden_engine (F : Format) (E : Engine)
    (g : engine) (m : matrix) (r : R) :
  0 < r -> r + r <= fmax ->
  has_shape (rows m) (cols m) (fst (uniform_init g m (Fin r))) /\
  snd (uniform_init g m (Fin r)) = advance (rows m * cols m) g /\
  forall i j, (i < rows m)%nat -> (j < cols m)%nat ->
    coeff (fst (uniform_init g m (Fin r))) i j =
      drawn (Fin r) (advance (i * cols m + j) g) /\
    exists v, coeff (fst (uniform_init g m (Fin r))) i j = Fin v /\ - r <= v < r.
Proof.
  intros Hr Hmax. split; [apply uniform_init_shape |].
  destruct (uniform_init_spec g m (Fin r)) as [H1 H2].
  split; [exact H1 |].
  intros i j Hi Hj. split; [apply H2; assumption |].
  rewrite H2 by assumption. apply drawn_range; assumption.
Qed.

(** The theorem at a matrix of two rows and two columns, the default
    bound and the example engine in its first state. *)
Lemma uniform_init_draws_from_hidden_engine_witness :
  has_shape 2 2
    (fst (uniform_init (F := binary64) (E := harmonic_engine) 0%nat
            (uninitialized 2 2) default_init_range)) /\
  snd (uniform_init (F := binary64) (E := harmonic_engine) 0%nat
         (uninitialized 2 2) default_init_range) =
    advance (E := harmonic_engine) 4 0%nat /\
  forall i j, (i < 2)%nat -> (j < 2)%nat ->
    coeff (fst (uniform_init (F := binary64) (E := harmonic_engine) 0%nat
                  (uninitialized 2 2) default_init_range)) i j =
      drawn (F := binary64) (E := harmonic_engine) default_init_range
        (advance (E := harmonic_engine) (i * 2 + j) 0%nat) /\
    exists v,
      coeff (fst (uniform_init (F := binary64) (E := harmonic_engine) 0%nat
                    (uninitialized 2 2) default_init_range)) i j = Fin v /\
      - (1 / 10) <= v < 1 / 10.
Proof.
  apply (uniform_init_draws_from_hidden_engine binary64 harmonic_engine
           0%nat (uninitialized 2 2) (1 / 10)).
  - lra.
  - pose proof (@fmax_large binary64). lra.
Defined.

(** C9, as the specification states it, fails: the result depends on
    state that the caller cannot seed.  In one constructor call, [W_Q_]
    and [W_K_] are initialized with the same shape and the same bound,
    and they differ, because the second call finds the engine where the
    first left it. *)
Lemma successive_initializations_differ :
  exists (a : MultiHeadAttention) (g' : nat),
    MultiHeadAttention_new (F := binary64) (E := harmonic_engine) 1 1 0%nat =
      Ok (a, g') /\
    has_shape 1 1 (W_Q_ a) /\ has_shape 1 1 (W_K_ a) /\
    W_Q_ a <> W_K_ a.
Proof.
  assert (Hr : 0 < 1 / 10) by lra.
  assert (Hmax : 1 / 10 + 1 / 10 <= @fmax binary64).
  { pose proof (@fmax_large binary64). lra. }
  unfold MultiHeadAttention_new.
  cbn [Nat.eqb negb cassert bind].
  change (1 mod 1 =? 0)%nat with true. cbn [cassert bind].
  pose proof (uniform_init_spec (F := binary64) (E := harmonic_engine)
                0%nat (uninitialized 1 1) default_init_range) as [Q1 Q2].
  pose proof (uniform_init_shape (F := binary64) (E := harmonic_engine)
                0%nat (uninitialized 1 1) default_init_range) as QS.
  destruct (uniform_init (F := binary64) (E := harmonic_engine)
              0%nat (uninitialized 1 1) default_init_range) as [wq g1].
  cbn [fst snd] in Q1, Q2, QS. subst g1.
  pose proof (uniform_init_spec (F := binary64) (E := harmonic_engine)
                (advance (E := harmonic_engine) 1 0%nat)
                (uninitialized 1 1) default_init_range) as [K1 K2].
  pose proof (uniform_init_shape (F := binary64) (E := harmonic_engine)
                (advance (E := harmonic_engine) 1 0%nat)
                (uninitialized 1 1) default_init_range) as KS.
  change (rows (uninitialized 1 1) * cols (uninitialized 1 1))%nat with 1%nat.
  destruct (uniform_init (F := binary64) (E := harmonic_engine)
              (advance (E := harmonic_engine) 1 0%nat)
              (uninitialized 1 1) default_init_range) as [wk g2].
  cbn [fst snd] in K1, K2, KS.
  destruct (uniform_init g2 (uninitialized 1 1) default_init_range) as [wv g3].
  destruct (uniform_init g3 (uninitialized 1 1) default_init_range) as [wo g4].
  eexists; eexists; split; [reflexivity |]. cbn [W_Q_ W_K_].
  split; [exact QS |]. split; [exact KS |].
  intros Heq. subst wk.
  specialize (Q2 0%nat 0%nat (Nat.lt_0_1 : (0 < rows (uninitialized 1 1))%nat)
                (Nat.lt_0_1 : (0 < cols (uninitialized 1 1))%nat)).
  specialize (K2 0%nat 0%nat (Nat.lt_0_1 : (0 < rows (uninitialized 1 1))%nat)
                (Nat.lt_0_1 : (0 < cols (uninitialized 1 1))%nat)).
  rewrite Q2 in K2. unfold default_init_range in K2.
  rewrite !drawn_value in K2 by assumption.
  inversion K2 as [Hv]. cbn in Hv. lra.
Qed.

(** ** The scenario of the identity projections *)

(** *** Numbers *)

Lemma exp_ge_partial_sum (x : R) (n : nat) :
  0 <= x -> sum_f_R0 (fun i => / INR (fact i) * x ^ i) n <= exp x.
Proof.
  intros Hx. unfold exp. destruct (exist_exp x) as [l Hl]. cbn [proj1_sig].
  apply sum_incr.
  - exact Hl.
  - intros k. apply Rmult_le_pos.
    + left. apply Rinv_0_lt_compat. apply INR_fact_lt_0.
    + apply pow_le. exact Hx.
Qed.

Lemma exp_opp_ge_partial_sum (x : R) (N : nat) :
  0 <= x <= 1 ->
  sum_f_R0 (tg_alt (fun i => x ^ i / INR (fact i))) (S (2 * N)) <= exp (- x).
Proof.
  intros [H0 H1].
  apply (alternated_series_ineq (fun i => x ^ i / INR (fact i)) (exp (- x)) N).
  - intros n. unfold Rdiv.
    assert (Hf : / INR (fact (S n)) <= / INR (fact n)).
    { apply Rinv_le_contravar; [apply INR_fact_lt_0 |].
      apply le_INR. apply fact_le. lia. }
    assert (Hp : 0 <= x ^ n) by (apply pow_le; exact H0).
    assert (Hi : 0 < / INR (fact (S n))).
    { apply Rinv_0_lt_compat. apply INR_fact_lt_0. }
    simpl pow.
    apply Rle_trans with (x ^ n * / INR (fact (S n))).
    + apply Rmult_le_compat_r; [lra |]. nra.
    + apply Rmult_le_compat_l; assumption.
  - apply cv_speed_pow_fact.
  - unfold exp. destruct (exist_exp (- x)) as [l Hl]. cbn [proj1_sig].
    intros eps Heps. destruct (Hl eps Heps) as [n0 Hn0].
    exists n0. intros n Hn. specialize (Hn0 n Hn).
    replace (sum_f_R0 (tg_alt (fun i => x ^ i / INR (fact i))) n)
      with (sum_f_R0 (fun i => / INR (fact i) * (- x) ^ i) n); [exact Hn0 |].
    apply sum_eq. intros i Hi. unfold tg_alt, Rdiv.
    replace (- x) with (-1 * x) by ring. rewrite Rpow_mult_distr. ring.
Qed.

Lemma sqrt2_bounds : 14142135 / 10000000 <= sqrt 2 <= 14142136 / 10000000.
Proof.
  pose proof (sqrt_pos 2) as Hp.
  pose proof (sqrt_sqrt 2 ltac:(lra)) as Hs.
  split; nra.
Qed.

Lemma inv_sqrt2_bounds : 707106 / 1000000 <= 1 / sqrt 2 <= 707107 / 1000000.
Proof.
  pose proof sqrt2_bounds as [Hl Hu].
  assert (Hpos : 0 < sqrt 2) by lra.
  assert (Hs : 1 / sqrt 2 * sqrt 2 = 1) by (field; lra).
  generalize dependent (1 / sqrt 2). intros s Hs.
  generalize dependent (sqrt 2). intros q Hl Hu Hpos Hs.
  split.
  - destruct (Rle_lt_dec (707106 / 1000000) s) as [H | H]; [exact H | exfalso].
    apply (Rmult_lt_compat_r q) in H; [| exact Hpos]. lra.
  - destruct (Rle_lt_dec s (707107 / 1000000)) as [H | H]; [exact H | exfalso].
    apply (Rmult_lt_compat_r q) in H; [| exact Hpos]. lra.
Qed.

Lemma exp_lower : 202801 / 100000 <= exp (707106 / 1000000).
Proof.
  pose proof (exp_ge_partial_sum (707106 / 1000000) 6 ltac:(lra)) as H.
  cbn [sum_f_R0] in H.
  change (fact 0) with 1%nat in H. change (fact 1) with 1%nat in H.
  change (fact 2) with 2%nat in H. change (fact 3) with 6%nat in H.
  change (fact 4) with 24%nat in H. change (fact 5) with 120%nat in H.
  change (fact 6) with 720%nat in H.
  rewrite !INR_IZR_INZ in H. cbn [Z.of_nat Pos.of_succ_nat Pos.succ] in H.
  cbn [pow] in H. lra.
Qed.

Lemma exp_opp_lower : 4929 / 10000 <= exp (- (707107 / 1000000)).
Proof.
  pose proof (exp_opp_ge_partial_sum (707107 / 1000000) 2 ltac:(lra)) as H.
  cbn [sum_f_R0 Nat.mul Nat.add] in H. unfold tg_alt in H.
  change (fact 0) with 1%nat in H. change (fact 1) with 1%nat in H.
  change (fact 2) with 2%nat in H. change (fact 3) with 6%nat in H.
  change (fact 4) with 24%nat in H. change (fact 5) with 120%nat in H.
  rewrite !INR_IZR_INZ in H. cbn [Z.of_nat Pos.of_succ_nat Pos.succ] in H.
  cbn [pow] in H. lra.
Qed.

Lemma exp_inv_sqrt2_bounds :
  202801 / 100000 <= exp (1 / sqrt 2) <= 20289 / 10000.
Proof.
  pose proof inv_sqrt2_bounds as [Hl Hu].
  pose proof exp_lower as HL. pose proof exp_opp_lower as HU.
  assert (Hmono : forall a b, a <= b -> exp a <= exp b).
  { intros a b [Hab | ->]; [left; apply exp_increasing; exact Hab | right; reflexivity]. }
  split.
  - apply Rle_trans with (exp (707106 / 1000000)); [exact HL | apply Hmono; exact Hl].
  - apply Rle_trans with (exp (707107 / 1000000)); [apply Hmono; exact Hu |].
    rewrite exp_Ropp in HU.
    pose proof (exp_pos (707107 / 1000000)) as Hp.
    assert (Hinv : / exp (707107 / 1000000) * exp (707107 / 1000000) = 1)
      by (apply Rinv_l; lra).
    clear Hmono HL Hl Hu.
    set (e := exp (707107 / 1000000)) in *. set (i := / e) in *.
    clearbody i. clearbody e.
    destruct (Rle_lt_dec e (20289 / 10000)) as [H | H]; [exact H | exfalso].
    assert (0 < i) by lra.
    apply (Rmult_lt_compat_l i) in H; [| assumption]. nra.
Qed.

(** *** Matrices *)

(** The matrix [[a, b], [c, d]] of four finite numbers. *)
Definition real_matrix_2 (a b c d : R) : matrix :=
  Matrix 2 2 [[Fin a; Fin b]; [Fin c; Fin d]].

Section IdentityScenario.

Context {F : Format}.

Lemma mul_fin (a b : R) : mul (Fin a) (Fin b) = rnd (a * b).
Proof. reflexivity. Qed.

Lemma add_fin (a b : R) : add (Fin a) (Fin b) = rnd (a + b).
Proof. reflexivity. Qed.

Ltac scalar_eval :=
  unfold zero, one;
  repeat first
    [ rewrite mul_fin
    | rewrite add_fin
    | progress rewrite ?Rmult_1_r, ?Rmult_0_r, ?Rmult_1_l, ?Rmult_0_l,
                       ?Rplus_0_l, ?Rplus_0_r
    | rewrite rnd_in_range by lra ].

Lemma identity_2 : identity 2 = real_matrix_2 1 0 0 1.
Proof. unfold identity. rewrite tabulate_2_2. reflexivity. Qed.

Lemma of_nat_2 : of_nat 2 = Fin 2.
Proof.
  unfold of_nat. replace (INR 2) with 2 by (simpl; lra).
  apply rnd_in_range. pose proof fmax_large; lra.
Qed.

Lemma product_right_identity (site : string) (a b c d : R) :
  - fmax <= a <= fmax -> - fmax <= b <= fmax ->
  - fmax <= c <= fmax -> - fmax <= d <= fmax ->
  product site (real_matrix_2 a b c d) (real_matrix_2 1 0 0 1) =
  Ok (real_matrix_2 a b c d).
Proof.
  intros Ha Hb Hc Hd. pose proof fmax_large as Hf.
  unfold product. cbn [real_matrix_2 rows cols Nat.eqb eigen_assert bind].
  rewrite tabulate_2_2. unfold sum_s.
  cbn [real_matrix_2 seq map coeff coeffs nth fold_left].
  scalar_eval. reflexivity.
Qed.

Lemma block_whole (site : string) (a b c d : R) :
  block site (real_matrix_2 a b c d) 0 0 2 2 = Ok (real_matrix_2 a b c d).
Proof.
  rewrite block_ok by (simpl; lia). rewrite tabulate_2_2. reflexivity.
Qed.

Lemma set_block_whole (site : string) (a b c d : R) :
  set_block site (uninitialized 2 2) 0 0 2 2 (real_matrix_2 a b c d) =
  Ok (real_matrix_2 a b c d).
Proof.
  unfold set_block, uninitialized, constant.
  rewrite rows_tabulate, cols_tabulate.
  cbn [Nat.add Nat.leb andb real_matrix_2 rows cols Nat.eqb eigen_assert bind].
  rewrite tabulate_2_2. reflexivity.
Qed.

Lemma sqrt_s_2 : sqrt_s (Fin 2) = Fin (sqrt 2).
Proof.
  rewrite sqrt_s_fin by lra. apply rnd_in_range.
  pose proof sqrt2_bounds. pose proof fmax_large. lra.
Qed.

(** The scores of the scenario: [1 / sqrt 2] on the diagonal, 0 off it. *)
Lemma score_unit_rows :
  score (real_matrix_2 1 0 0 1) (real_matrix_2 1 0 0 1) 0 0 = Fin (1 / sqrt 2) /\
  score (real_matrix_2 1 0 0 1) (real_matrix_2 1 0 0 1) 0 1 = Fin 0 /\
  score (real_matrix_2 1 0 0 1) (real_matrix_2 1 0 0 1) 1 0 = Fin 0 /\
  score (real_matrix_2 1 0 0 1) (real_matrix_2 1 0 0 1) 1 1 = Fin (1 / sqrt 2).
Proof.
  pose proof fmax_large as Hf. pose proof sqrt2_bounds as Hs.
  pose proof inv_sqrt2_bounds as Hi.
  assert (H0 : 0 / sqrt 2 = 0) by (unfold Rdiv; ring).
  unfold score, sum_s.
  cbn [real_matrix_2 cols seq map coeff coeffs nth fold_left].
  rewrite of_nat_2, sqrt_s_2. scalar_eval.
  rewrite !div_fin by lra. rewrite H0.
  rewrite !rnd_in_range by lra. repeat split.
Qed.

(** The attention weights of the scenario. *)
Lemma weight_unit_rows :
  weight None (real_matrix_2 1 0 0 1) (real_matrix_2 1 0 0 1) 0 0 =
    Fin (exp (1 / sqrt 2) / (exp (1 / sqrt 2) + 1)) /\
  weight None (real_matrix_2 1 0 0 1) (real_matrix_2 1 0 0 1) 0 1 =
    Fin (1 / (exp (1 / sqrt 2) + 1)) /\
  weight None (real_matrix_2 1 0 0 1) (real_matrix_2 1 0 0 1) 1 0 =
    Fin (1 / (1 + exp (1 / sqrt 2))) /\
  weight None (real_matrix_2 1 0 0 1) (real_matrix_2 1 0 0 1) 1 1 =
    Fin (exp (1 / sqrt 2) / (1 + exp (1 / sqrt 2))).
Proof.
  pose proof fmax_large as Hf. pose proof exp_inv_sqrt2_bounds as He.
  destruct score_unit_rows as [S00 [S01 [S10 S11]]].
  unfold weight. cbn [masked_score].
  change (rows (real_matrix_2 1 0 0 1)) with 2%nat. cbn [seq map].
  rewrite S00, S01, S10, S11. cbn [exp_s]. rewrite exp_0.
  set (e := exp (1 / sqrt 2)) in *.
  rewrite !(rnd_in_range e), !(rnd_in_range 1) by lra.
  unfold sum_s. cbn [fold_left]. scalar_eval.
  assert (H1 : 0 < e / (e + 1) < 1).
  { split; [apply Rdiv_lt_0_compat; lra |].
    apply Rmult_lt_reg_r with (e + 1); [lra |].
    unfold Rdiv. rewrite Rmult_assoc, Rinv_l by lra. lra. }
  assert (H2 : 0 < 1 / (e + 1) < 1).
  { split; [apply Rdiv_lt_0_compat; lra |].
    apply Rmult_lt_reg_r with (e + 1); [lra |].
    unfold Rdiv. rewrite Rmult_assoc, Rinv_l by lra. lra. }
  assert (E1 : e / (1 + e) = e / (e + 1)) by (f_equal; ring).
  assert (E2 : 1 / (1 + e) = 1 / (e + 1)) by (f_equal; ring).
  rewrite !div_fin by lra. rewrite ?E1, ?E2.
  rewrite !(rnd_in_range (e / (e + 1))), !(rnd_in_range (1 / (e + 1))) by lra.
  rewrite <- ?E1, <- ?E2. repeat split.
Qed.

End IdentityScenario.

(** C7: with [d_model = 2], one head, the four projections equal to the
    identity, no mask and the input [[1, 0], [0, 1]], the projections
    [Q], [K] and [V] are the input, the scores are [1 / sqrt 2] (0.7071
    to four decimals) on the diagonal and 0 off it, and the result of the
    multi-head attention is [[0.6698, 0.3302], [0.3302, 0.6698]] to four
    decimals. *)
Theorem identity_projection_scenario (F : Format) :
  product "x * W_Q_" unit_rows (W_Q_ identity_attention) = Ok unit_rows /\
  product "x * W_K_" unit_rows (W_K_ identity_attention) = Ok unit_rows /\
  product "x * W_V_" unit_rows (W_V_ identity_attention) = Ok unit_rows /\
  (exists s : R,
     score unit_rows unit_rows 0 0 = Fin s /\ score unit_rows unit_rows 0 1 = Fin 0 /\
     score unit_rows unit_rows 1 0 = Fin 0 /\ score unit_rows unit_rows 1 1 = Fin s /\
     s = 1 / sqrt 2 /\ Rabs (s - 7071 / 10000) <= 5 / 100000) /\
  (exists a b c d : R,
     MultiHeadAttention_call identity_attention unit_rows None =
       Ok (real_matrix_2 a b c d) /\
     Rabs (a - 6698 / 10000) <= 5 / 100000 /\
     Rabs (b - 3302 / 10000) <= 5 / 100000 /\
     Rabs (c - 3302 / 10000) <= 5 / 100000 /\
     Rabs (d - 6698 / 10000) <= 5 / 100000).
Proof.
  pose proof fmax_large as Hf.
  pose proof exp_inv_sqrt2_bounds as He.
  pose proof inv_sqrt2_bounds as Hi.
  change unit_rows with (real_matrix_2 1 0 0 1).
  cbn [identity_attention W_Q_ W_K_ W_V_]. rewrite identity_2.
  assert (HP : forall site,
            product site (real_matrix_2 1 0 0 1) (real_matrix_2 1 0 0 1) =
            Ok (real_matrix_2 1 0 0 1)).
  { intros site. apply product_right_identity; lra. }
  split; [apply HP |]. split; [apply HP |]. split; [apply HP |].
  destruct score_unit_rows as [S00 [S01 [S10 S11]]].
  split.
  { exists (1 / sqrt 2). repeat split; try assumption.
    apply Rabs_le. lra. }
  destruct weight_unit_rows as [W00 [W01 [W10 W11]]].
  set (e := exp (1 / sqrt 2)) in *.
  assert (B1 : 66975 / 100000 <= e / (e + 1) <= 66985 / 100000).
  { split.
    - apply Rmult_le_reg_r with (e + 1); [lra |].
      unfold Rdiv at 2. rewrite Rmult_assoc, Rinv_l by lra. lra.
    - apply Rmult_le_reg_r with (e + 1); [lra |].
      unfold Rdiv at 1. rewrite Rmult_assoc, Rinv_l by lra. lra. }
  assert (B2 : 33015 / 100000 <= 1 / (e + 1) <= 33025 / 100000).
  { split.
    - apply Rmult_le_reg_r with (e + 1); [lra |].
      unfold Rdiv at 2. rewrite Rmult_assoc, Rinv_l by lra. lra.
    - apply Rmult_le_reg_r with (e + 1); [lra |].
      unfold Rdiv at 1. rewrite Rmult_assoc, Rinv_l by lra. lra. }
  assert (E1 : e / (1 + e) = e / (e + 1)) by (f_equal; ring).
  assert (E2 : 1 / (1 + e) = 1 / (e + 1)) by (f_equal; ring).
  exists (e / (e + 1)), (1 / (e + 1)), (1 / (1 + e)), (e / (1 + e)).
  split.
  - unfold MultiHeadAttention_call.
    cbn [identity_attention W_Q_ W_K_ W_V_ W_O_ num_heads_ d_model_].
    rewrite identity_2, !HP.
    cbn [bind seq for_each]. unfold split_head.
    cbn [identity_attention d_k_ d_v_ Nat.mul].
    rewrite !block_whole. cbn [bind for_each].
    unfold scaled_dot_product_attention. rewrite attention_weights_eq.
    cbn [real_matrix_2 rows cols Nat.eqb mask_fits bind].
    rewrite tabulate_2_2.
    change (Matrix 2 2 [[Fin 1; Fin 0]; [Fin 0; Fin 1]]) with (real_matrix_2 1 0 0 1).
    rewrite W00, W01, W10, W11.
    change (Matrix 2 2 [[Fin (e / (e + 1)); Fin (1 / (e + 1))];
                        [Fin (1 / (1 + e)); Fin (e / (1 + e))]])
      with (real_matrix_2 (e / (e + 1)) (1 / (e + 1)) (1 / (1 + e)) (e / (1 + e))).
    rewrite product_right_identity by (rewrite ?E1, ?E2; lra).
    cbn [bind concat_heads identity_attention d_k_ d_model_ Nat.mul].
    rewrite set_block_whole. cbn [bind].
    apply product_right_identity; rewrite ?E1, ?E2; lra.
  - rewrite E1, E2. repeat split; apply Rabs_le; lra.
Qed.

(** ** Finite sums of real numbers *)

(** [e 0 + ... + e (n - 1)] *)
Fixpoint rsum (e : nat -> R) (n : nat) : R :=
  match n with
  | O => 0
  | S n' => rsum e n' + e n'
  end.

Lemma fold_right_Rplus_app (l : list R) (x : R) :
  fold_right Rplus 0 (l ++ [x]) = fold_right Rplus 0 l + x.
Proof. induction l as [| a l IH]; simpl; [lra | rewrite IH; lra]. Qed.

Lemma fold_right_map_seq (e : nat -> R) (n : nat) :
  fold_right Rplus 0 (map e (seq 0 n)) = rsum e n.
Proof.
  induction n as [| n IH]; [reflexivity |].
  rewrite seq_S, map_app. cbn [map Nat.add].
  rewrite fold_right_Rplus_app, IH. reflexivity.
Qed.

Lemma rsum_nonneg (e : nat -> R) (n : nat) :
  (forall k, (k < n)%nat -> 0 <= e k) -> 0 <= rsum e n.
Proof.
  induction n as [| n IH]; intros H; cbn [rsum]; [lra |].
  pose proof (IH ltac:(intros; apply H; lia)). pose proof (H n ltac:(lia)). lra.
Qed.

Lemma rsum_bounds (e : nat -> R) (n : nat) (M : R) :
  (forall k, (k < n)%nat -> 0 <= e k <= M) -> 0 <= rsum e n <= INR n * M.
Proof.
  induction n as [| n IH]; intros H.
  - simpl. lra.
  - rewrite S_INR. cbn [rsum].
    destruct IH as [I1 I2]; [intros k Hk; apply H; lia |].
    destruct (H n ltac:(lia)) as [H1 H2]. lra.
Qed.

Lemma rsum_scale (e : nat -> R) (c : R) (n : nat) :
  rsum (fun k => e k / c) n = rsum e n / c.
Proof.
  induction n as [| n IH]; cbn [rsum]; [unfold Rdiv; ring |].
  rewrite IH. unfold Rdiv. ring.
Qed.

Lemma rsum_ge_term (e : nat -> R) (n j : nat) :
  (forall k, (k < n)%nat -> 0 <= e k) -> (j < n)%nat -> e j <= rsum e n.
Proof.
  induction n as [| n IH]; intros H Hj; [lia |]. cbn [rsum].
  pose proof (rsum_nonneg e n ltac:(intros; apply H; lia)) as H0.
  pose proof (H n ltac:(lia)) as Hn.
  destruct (Nat.eq_dec j n) as [-> | Hne]; [lra |].
  pose proof (IH ltac:(intros; apply H; lia) ltac:(lia)). lra.
Qed.

Section BoundedScores.

Context {F : Format}.

Lemma sum_s_fin (e : nat -> R) (n : nat) (M : R) :
  (forall k, (k < n)%nat -> 0 <= e k <= M) -> INR n * M <= fmax ->
  sum_s (map (fun k => Fin (e k)) (seq 0 n)) = Fin (rsum e n).
Proof.
  unfold sum_s. induction n as [| n IH]; intros H Hmax; [reflexivity |].
  pose proof (rsum_bounds e (S n) M H) as Hb. pose proof fmax_pos as Hf.
  destruct (H n ltac:(lia)) as [Hn0 HnM].
  rewrite seq_S, map_app, fold_left_app. cbn [map Nat.add fold_left].
  rewrite IH.
  - cbn [add]. change (rsum e (S n)) with (rsum e n + e n) in *.
    apply rnd_in_range. destruct Hb as [Hb0 Hb1].
    split; [lra | eapply Rle_trans; eassumption].
  - intros k Hk. apply H; lia.
  - rewrite S_INR in Hmax. pose proof (pos_INR n).
    assert (0 <= M) by lra.
    apply Rle_trans with ((INR n + 1) * M); [| exact Hmax].
    apply Rmult_le_compat_r; lra.
Qed.

End BoundedScores.

(** ** Layer normalization: the statistics of a normalized row *)

(** The number that a scalar holds (0 for the special values). *)
Definition value (s : scalar) : R :=
  match s with
  | Fin a => a
  | _ => 0
  end.

(** A number of [[-M, M]]. *)
Definition bounded (M : R) (s : scalar) : Prop :=
  match s with
  | Fin a => - M <= a <= M
  | _ => False
  end.

Lemma bounded_value (M : R) (s : scalar) :
  bounded M s -> s = Fin (value s) /\ - M <= value s <= M.
Proof. destruct s; simpl; intros H; try contradiction. split; [reflexivity | exact H]. Qed.

Lemma rsum_ext (e e' : nat -> R) (n : nat) :
  (forall k, (k < n)%nat -> e k = e' k) -> rsum e n = rsum e' n.
Proof.
  induction n as [| n IH]; intros H; cbn [rsum]; [reflexivity |].
  rewrite IH by (intros k Hk; apply H; lia). rewrite (H n) by lia. reflexivity.
Qed.

Lemma rsum_minus_const (e : nat -> R) (m : R) (n : nat) :
  rsum (fun k => e k - m) n = rsum e n - INR n * m.
Proof.
  induction n as [| n IH]; [simpl; lra |].
  cbn [rsum]. rewrite IH, S_INR. lra.
Qed.

Lemma rsum_abs_bounds (e : nat -> R) (n : nat) (M : R) :
  (forall k, (k < n)%nat -> - M <= e k <= M) ->
  - (INR n * M) <= rsum e n <= INR n * M.
Proof.
  induction n as [| n IH]; intros H.
  - simpl. lra.
  - rewrite S_INR. cbn [rsum].
    destruct IH as [I1 I2]; [intros k Hk; apply H; lia |].
    destruct (H n ltac:(lia)) as [H1 H2]. lra.
Qed.

Section RowStatistics.

Context {F : Format}.

(** The local [norm]: every centered entry divided by the divisor of its
    row. *)
Definition normalized (l : LayerNorm) (x : matrix) : result matrix :=
  den <- denominators l x ;;
  c <- centered x ;;
  colwise "(x.rowwise() - mean.transpose()).array().colwise() / (var.array() + eps_).sqrt()"
    div c den.

(** [norm(i, j)] *)
Definition normalized_coeff (l : LayerNorm) (x : matrix) (i j : nat) : scalar :=
  div (centered_coeff x i j) (denominator l x i).

(** The call is [norm], then the product with [gamma] and the addition
    of [beta]. *)
Lemma LayerNorm_call_normalized (l : LayerNorm) (x : matrix) :
  LayerNorm_call l x =
  (norm <- normalized l x ;;
   scaled <- rowwise "norm.array().rowwise() * gamma_.transpose().array()"
               mul norm (transpose (gamma_ l)) ;;
   cwise "norm.array().rowwise() * gamma_.transpose().array() + beta_.transpose().array()"
     add scaled (transpose (beta_ l))).
Proof.
  unfold LayerNorm_call, normalized.
  destruct (denominators l x) as [den | s]; cbn [bind]; [| reflexivity].
  destruct (centered x) as [c | s]; cbn [bind]; [| reflexivity].
  reflexivity.
Qed.

Lemma normalized_eq (l : LayerNorm) (x : matrix) :
  normalized l x =
  if (rows x =? cols x)%nat
  then Ok (tabulate (rows x) (cols x) (normalized_coeff l x))
  else Aborted "x.rowwise() - mean.transpose()".
Proof.
  unfold normalized. rewrite denominators_eq, centered_eq.
  destruct (rows x =? cols x)%nat; cbn [bind]; [| reflexivity].
  unfold colwise. rewrite !rows_tabulate, !cols_tabulate, !Nat.eqb_refl.
  cbn [andb eigen_assert bind].
  f_equal. apply tabulate_ext; intros i j Hi Hj.
  rewrite !coeff_tabulate by lia. reflexivity.
Qed.

Lemma sum_s_fin_abs (e : nat -> R) (n : nat) (M : R) :
  (forall k, (k < n)%nat -> - M <= e k <= M) -> INR n * M <= fmax ->
  sum_s (map (fun k => Fin (e k)) (seq 0 n)) = Fin (rsum e n).
Proof.
  unfold sum_s. induction n as [| n IH]; intros H Hmax; [reflexivity |].
  pose proof (rsum_abs_bounds e (S n) M H) as Hb. pose proof fmax_pos as Hf.
  destruct (H n ltac:(lia)) as [Hn0 HnM].
  assert (HM : 0 <= M) by lra.
  rewrite S_INR in Hmax, Hb.
  replace ((INR n + 1) * M) with (INR n * M + M) in Hmax, Hb by ring.
  rewrite seq_S, map_app, fold_left_app. cbn [map Nat.add fold_left].
  rewrite IH; [| intros k Hk; apply H; lia | lra].
  rewrite add_fin. cbn [rsum] in Hb |- *. apply rnd_in_range. lra.
Qed.

(** One row of a square input whose rows have one mean, with entries
    small enough for no sum to overflow. *)
Section OneRow.

Variables (x : matrix) (M e : R) (d i : nat).

Hypothesis Hsq : rows x = cols x.
Hypothesis Hi : (i < rows x)%nat.
Hypothesis HM : 1 <= M.
Hypothesis He : 0 < e.
Hypothesis Hfit : INR (cols x) * (4 * M * M) + e <= fmax.
Hypothesis Hx : all_coeffs (bounded M) x.
Hypothesis Hmean : forall r, (r < rows x)%nat -> row_mean x r = row_mean x i.

(** The entries of the row, their mean, the centered entries, their
    mean square and the divisor, as real numbers. *)
Definition entry (j : nat) : R := value (coeff x i j).
Definition mean_r : R := rsum entry (cols x) / INR (cols x).
Definition centered_r (j : nat) : R := entry j - mean_r.
Definition var_r : R := rsum (fun j => centered_r j * centered_r j) (cols x) / INR (cols x).
Definition divisor_r : R := sqrt (var_r + e).

Lemma one_le_cols : 1 <= INR (cols x).
Proof.
  assert (H : (1 <= cols x)%nat) by lia.
  apply le_INR in H. simpl in H. exact H.
Qed.

Lemma fit_facts :
  INR (cols x) <= fmax /\ INR (cols x) * M <= fmax /\
  INR (cols x) * (4 * M * M) <= fmax /\ 4 * M * M + e <= fmax /\ 2 * M <= fmax.
Proof.
  pose proof one_le_cols as Hn.
  assert (H1 : M <= M * M) by nra.
  assert (H2 : 4 * M * M <= INR (cols x) * (4 * M * M)) by nra.
  assert (H3 : INR (cols x) * M <= INR (cols x) * (4 * M * M)) by nra.
  assert (H4 : INR (cols x) <= INR (cols x) * M) by nra.
  repeat split; lra.
Qed.

Lemma entry_eq (j : nat) :
  (j < cols x)%nat -> coeff x i j = Fin (entry j) /\ - M <= entry j <= M.
Proof. intros Hj. apply bounded_value. apply Hx; [exact Hi | exact Hj]. Qed.

Lemma of_nat_cols : of_nat (cols x) = Fin (INR (cols x)).
Proof.
  unfold of_nat. apply rnd_in_range.
  pose proof one_le_cols as Hn. pose proof fit_facts as [Hf _]. lra.
Qed.

Lemma mean_r_bounds : - M <= mean_r <= M.
Proof.
  pose proof one_le_cols as Hn.
  pose proof (rsum_abs_bounds entry (cols x) M
                (fun k Hk => proj2 (entry_eq k Hk))) as [H1 H2].
  unfold mean_r.
  split.
  - apply Rmult_le_reg_r with (r := INR (cols x)); [lra |].
    unfold Rdiv. rewrite Rmult_assoc, Rinv_l by lra. lra.
  - apply Rmult_le_reg_r with (r := INR (cols x)); [lra |].
    unfold Rdiv. rewrite Rmult_assoc, Rinv_l by lra. lra.
Qed.

Lemma row_mean_value : row_mean x i = Fin mean_r.
Proof.
  pose proof one_le_cols as Hn. pose proof fit_facts as [_ [HnM [_ [_ H2M]]]].
  unfold row_mean.
  rewrite (map_seq_ext _ (fun k => Fin (entry k)))
    by (intros k Hk; apply (entry_eq k Hk)).
  rewrite (sum_s_fin_abs entry (cols x) M)
    by (try exact HnM; intros k Hk; apply (entry_eq k Hk)).
  rewrite of_nat_cols, div_fin by lra.
  apply rnd_in_range. pose proof mean_r_bounds. fold mean_r. lra.
Qed.

Lemma centered_r_bounds (j : nat) :
  (j < cols x)%nat -> - (2 * M) <= centered_r j <= 2 * M.
Proof.
  intros Hj. destruct (entry_eq j Hj) as [_ Ha]. pose proof mean_r_bounds.
  unfold centered_r. lra.
Qed.

Lemma centered_value (j : nat) :
  (j < cols x)%nat -> centered_coeff x i j = Fin (centered_r j).
Proof.
  intros Hj. pose proof fit_facts as [_ [_ [_ [_ H2M]]]].
  unfold centered_coeff, sub.
  rewrite (Hmean j) by lia. rewrite row_mean_value.
  destruct (entry_eq j Hj) as [-> _]. cbn [neg]. rewrite add_fin.
  pose proof (centered_r_bounds j Hj). unfold centered_r in *.
  apply rnd_in_range. lra.
Qed.

Lemma square_r_bounds (j : nat) :
  (j < cols x)%nat -> 0 <= centered_r j * centered_r j <= 4 * M * M.
Proof. intros Hj. pose proof (centered_r_bounds j Hj). nra. Qed.

Lemma var_r_bounds : 0 <= var_r <= 4 * M * M.
Proof.
  pose proof one_le_cols as Hn.
  pose proof (rsum_bounds (fun j => centered_r j * centered_r j) (cols x) (4 * M * M)
                square_r_bounds) as [H1 H2].
  unfold var_r. split.
  - apply Rmult_le_reg_r with (r := INR (cols x)); [lra |].
    unfold Rdiv. rewrite Rmult_assoc, Rinv_l by lra. lra.
  - apply Rmult_le_reg_r with (r := INR (cols x)); [lra |].
    unfold Rdiv. rewrite Rmult_assoc, Rinv_l by lra. lra.
Qed.

Lemma row_var_value : row_var x i = Fin var_r.
Proof.
  pose proof one_le_cols as Hn.
  pose proof fit_facts as [_ [_ [Hn4 [H4 _]]]].
  unfold row_var.
  rewrite (map_seq_ext _ (fun j => Fin (centered_r j * centered_r j))).
  2: { intros j Hj. rewrite (centered_value j Hj), mul_fin.
       apply rnd_in_range. pose proof (square_r_bounds j Hj). lra. }
  rewrite (sum_s_fin (fun j => centered_r j * centered_r j) (cols x) (4 * M * M))
    by (try exact Hn4; exact square_r_bounds).
  rewrite of_nat_cols, div_fin by lra.
  apply rnd_in_range. pose proof var_r_bounds. fold var_r. lra.
Qed.

Lemma divisor_r_pos : 0 < divisor_r.
Proof. unfold divisor_r. apply sqrt_lt_R0. pose proof var_r_bounds. lra. Qed.

Lemma divisor_r_square : divisor_r * divisor_r = var_r + e.
Proof. unfold divisor_r. apply sqrt_sqrt. pose proof var_r_bounds. lra. Qed.

Lemma denominator_value :
  denominator (LayerNorm_new d (Fin e)) x i = Fin divisor_r.
Proof.
  pose proof fit_facts as [_ [_ [_ [H4 _]]]]. pose proof var_r_bounds as Hv.
  pose proof fmax_pos as Hf.
  unfold denominator. rewrite row_var_value. cbn [LayerNorm_new eps_].
  rewrite add_fin, rnd_in_range by lra.
  rewrite sqrt_s_fin by lra.
  apply rnd_in_range. apply sqrt_le_fmax. lra.
Qed.

Lemma quotient_bounds (j : nat) :
  (j < cols x)%nat -> - fmax <= centered_r j / divisor_r <= fmax.
Proof.
  intros Hj. pose proof one_le_cols as Hn. pose proof fit_facts as [Hnf _].
  pose proof fmax_large as Hf.
  pose proof divisor_r_pos as Hs. pose proof divisor_r_square as Hss.
  pose proof var_r_bounds as [Hv0 _].
  pose proof (rsum_ge_term (fun j => centered_r j * centered_r j) (cols x) j
                (fun k Hk => proj1 (square_r_bounds k Hk)) Hj) as Hterm.
  cbn beta in Hterm.
  assert (Hsum : rsum (fun j => centered_r j * centered_r j) (cols x) =
                 var_r * INR (cols x)).
  { unfold var_r. field. lra. }
  set (q := centered_r j / divisor_r).
  assert (Hq : centered_r j = q * divisor_r) by (unfold q; field; lra).
  assert (Hq2 : q * q * (var_r + e) <= INR (cols x) * (var_r + e)).
  { rewrite <- Hss.
    replace (q * q * (divisor_r * divisor_r)) with (centered_r j * centered_r j)
      by (rewrite Hq; ring).
    rewrite Hss. rewrite Hsum in Hterm. nra. }
  assert (Hqn : q * q <= INR (cols x)).
  { apply Rmult_le_reg_r with (r := var_r + e); [lra | exact Hq2]. }
  split; nra.
Qed.

Lemma normalized_value (j : nat) :
  (j < cols x)%nat ->
  normalized_coeff (LayerNorm_new d (Fin e)) x i j = Fin (centered_r j / divisor_r).
Proof.
  intros Hj. pose proof divisor_r_pos as Hs.
  unfold normalized_coeff. rewrite (centered_value j Hj), denominator_value.
  rewrite div_fin by lra. apply rnd_in_range. apply quotient_bounds; exact Hj.
Qed.

(** The row of [norm], as real numbers. *)
Definition normalized_row : list R :=
  map (fun j => centered_r j / divisor_r) (seq 0 (cols x)).

Lemma centered_r_sum : rsum centered_r (cols x) = 0.
Proof.
  pose proof one_le_cols as Hn.
  unfold centered_r. rewrite rsum_minus_const. unfold mean_r. field. lra.
Qed.

Lemma normalized_row_mean : sample_mean normalized_row = 0.
Proof.
  unfold sample_mean, normalized_row.
  rewrite fold_right_map_seq, rsum_scale, centered_r_sum.
  unfold Rdiv. ring.
Qed.

Lemma normalized_row_variance :
  sample_variance normalized_row = var_r / (var_r + e).
Proof.
  pose proof one_le_cols as Hn. pose proof divisor_r_pos as Hs.
  pose proof var_r_bounds as [Hv0 _].
  unfold sample_variance. rewrite normalized_row_mean.
  unfold sample_mean, normalized_row. rewrite map_map, !length_map, length_seq.
  rewrite fold_right_map_seq.
  rewrite (rsum_ext _ (fun j => centered_r j * centered_r j / (divisor_r * divisor_r)))
    by (intros k _; field; lra).
  rewrite rsum_scale, divisor_r_square.
  assert (Hsum : rsum (fun j => centered_r j * centered_r j) (cols x) =
                 var_r * INR (cols x)).
  { unfold var_r. field. lra. }
  rewrite Hsum. field. lra.
Qed.

(** The row of the input, as real numbers: [var_r] is its variance. *)
Definition input_row : list R := map entry (seq 0 (cols x)).

Lemma input_row_variance : sample_variance input_row = var_r.
Proof.
  assert (Hm : sample_mean input_row = mean_r).
  { unfold sample_mean, input_row.
    rewrite fold_right_map_seq, length_map, length_seq. reflexivity. }
  unfold sample_variance. rewrite Hm.
  unfold sample_mean, input_row. rewrite map_map, !length_map, length_seq.
  rewrite fold_right_map_seq. reflexivity.
Qed.

Lemma nth_normalized_row (j : nat) :
  (j < cols x)%nat -> nth j normalized_row 0 = centered_r j / divisor_r.
Proof.
  intros Hj. unfold normalized_row.
  rewrite (nth_map_seq (fun k => centered_r k / divisor_r)) by exact Hj. reflexivity.
Qed.

Lemma nth_input_row (j : nat) :
  (j < cols x)%nat -> nth j input_row 0 = entry j.
Proof.
  intros Hj. unfold input_row. rewrite (nth_map_seq entry) by exact Hj. reflexivity.
Qed.

(** With [gamma = 1] and [beta = 0], the product and the addition that
    follow leave the row of [norm] as it is. *)
Lemma layer_norm_coeff_normalized (j : nat) :
  (j < cols x)%nat -> (j < d)%nat ->
  layer_norm_coeff (LayerNorm_new d (Fin e)) x i j =
  normalized_coeff (LayerNorm_new d (Fin e)) x i j.
Proof.
  intros Hj Hd. pose proof (quotient_bounds j Hj) as Hq.
  unfold layer_norm_coeff.
  change (div (centered_coeff x i j) (denominator (LayerNorm_new d (Fin e)) x i))
    with (normalized_coeff (LayerNorm_new d (Fin e)) x i j).
  rewrite (normalized_value j Hj). cbn [LayerNorm_new gamma_ beta_].
  unfold constant. rewrite !coeff_tabulate by lia. unfold one, zero.
  rewrite mul_fin, Rmult_1_r, rnd_in_range by exact Hq.
  rewrite add_fin, Rplus_0_r. apply rnd_in_range. exact Hq.
Qed.

Lemma LayerNorm_call_is_normalized (y' : matrix) :
  LayerNorm_call (LayerNorm_new d (Fin e)) x = Ok y' ->
  y' = tabulate (rows x) (cols x) (normalized_coeff (LayerNorm_new d (Fin e)) x).
Proof.
  intros Hy.
  rewrite (LayerNorm_call_eq _ x (LayerNorm_new_valid d (Fin e))) in Hy.
  destruct (rows x =? cols x)%nat; [| discriminate].
  destruct (ln_d_model_ (LayerNorm_new d (Fin e)) =? cols x)%nat eqn:Hd; [| discriminate].
  destruct (rows x =? 1)%nat eqn:H1; [| discriminate].
  apply Nat.eqb_eq in Hd, H1. cbn [LayerNorm_new ln_d_model_] in Hd.
  inversion Hy. apply tabulate_ext; intros i0 j Hi0 Hj.
  assert (i0 = i) as -> by lia.
  apply layer_norm_coeff_normalized; lia.
Qed.

End OneRow.

End RowStatistics.

(** The input [[1, 3], [3, 1]]: both rows have the mean 2 and the
    variance 1. *)
Definition common_mean_rows : matrix := real_matrix_2 1 3 3 1.

Lemma common_mean_rows_mean (F : Format) (r : nat) :
  (r < 2)%nat -> row_mean common_mean_rows r = Fin 2.
Proof.
  intros Hr. pose proof fmax_large as Hf.
  unfold row_mean. change (cols common_mean_rows) with 2%nat.
  rewrite of_nat_2. cbn [seq map]. unfold sum_s, zero. cbn [fold_left].
  destruct r as [| [| r]]; [| | lia].
  - change (coeff common_mean_rows 0 0) with (Fin 1).
    change (coeff common_mean_rows 0 1) with (Fin 3).
    rewrite add_fin, rnd_in_range by lra. rewrite add_fin, rnd_in_range by lra.
    rewrite div_fin by lra. rewrite rnd_in_range by lra. f_equal. lra.
  - change (coeff common_mean_rows 1 0) with (Fin 3).
    change (coeff common_mean_rows 1 1) with (Fin 1).
    rewrite add_fin, rnd_in_range by lra. rewrite add_fin, rnd_in_range by lra.
    rewrite div_fin by lra. rewrite rnd_in_range by lra. f_equal. lra.
Qed.

Lemma common_mean_rows_bounded : all_coeffs (bounded 3) common_mean_rows.
Proof.
  intros i j Hi Hj. change (rows common_mean_rows) with 2%nat in Hi.
  change (cols common_mean_rows) with 2%nat in Hj.
  destruct i as [| [| i]]; [| | lia]; (destruct j as [| [| j]]; [| | lia]);
    simpl; lra.
Qed.



(** * Further properties of the code *)

(** ** Constructors *)

Section ConstructorFacts.

Context {F : Format} {E : Engine}.

Lemma default_init_range_fits : 0 < 1 / 10 /\ 1 / 10 + 1 / 10 <= fmax.
Proof. pose proof fmax_large. lra. Qed.

(** Every entry that [uniform_init] writes with the default bound is a
    number of [[-0.1, 0.1)]. *)
Lemma uniform_init_default_entry (g : engine) (m w : matrix) (g' : engine)
    (i j : nat) :
  uniform_init g m default_init_range = (w, g') ->
  (i < rows m)%nat -> (j < cols m)%nat ->
  exists v, coeff w i j = Fin v /\ - (1 / 10) <= v < 1 / 10.
Proof.
  intros H Hi Hj. destruct default_init_range_fits as [Hr Hmax].
  destruct (uniform_init_spec g m default_init_range) as [_ Hc].
  rewrite H in Hc. cbn [fst] in Hc. rewrite (Hc i j Hi Hj).
  apply drawn_range; assumption.
Qed.

Lemma uniform_init_advance (g : engine) (m w : matrix) (g' : engine) :
  forall range, uniform_init g m range = (w, g') ->
  g' = advance (rows m * cols m) g.
Proof.
  intros range H. destruct (uniform_init_spec g m range) as [Hs _].
  rewrite H in Hs. exact Hs.
Qed.

End ConstructorFacts.

(** ** Attention: the range of the weights *)

Section WeightRange.

Context {F : Format}.

Lemma rnd_fin_inv (r c : R) : rnd r = Fin c -> c = r.
Proof.
  unfold rnd. destruct (Rlt_dec fmax r); [discriminate |].
  destruct (Rlt_dec r (- fmax)); [discriminate |].
  intros H; inversion H; reflexivity.
Qed.

Lemma add_fin_inv (x y : scalar) (c : R) :
  add x y = Fin c -> exists a b, x = Fin a /\ y = Fin b /\ c = a + b.
Proof.
  destruct x as [a | | |], y as [b | | |]; simpl; intros H; try discriminate.
  exists a, b. repeat split. apply rnd_fin_inv; exact H.
Qed.

(** A finite sum of terms that are not negative is at least its start
    and each of its terms. *)
Lemma fold_add_fin_dominates (l : list scalar) (acc : scalar) (s : R) :
  nonneg acc -> Forall nonneg l -> fold_left add l acc = Fin s ->
  (exists a, acc = Fin a /\ 0 <= a <= s) /\
  (forall y, In y l -> exists b, y = Fin b /\ 0 <= b <= s).
Proof.
  revert acc. induction l as [| y l IH]; intros acc Hacc Hl H; simpl in H.
  - subst acc. simpl in Hacc. split; [exists s; split; [reflexivity | lra] |].
    intros y [].
  - inversion Hl as [| ? ? Hy Hl']; subst.
    destruct (IH (add acc y) (add_nonneg acc y Hacc Hy) Hl' H) as [[c [Hc Hcs]] Hrest].
    destruct (add_fin_inv acc y c Hc) as [a [b [-> [-> ->]]]].
    simpl in Hacc, Hy. split.
    + exists a. split; [reflexivity | lra].
    + intros z [<- | Hz].
      * exists b. split; [reflexivity | lra].
      * apply Hrest; exact Hz.
Qed.

Definition weight_in_range (w : scalar) : Prop :=
  w = NaN \/ exists a, w = Fin a /\ 0 <= a <= 1.

Lemma div_by_sum_in_range (e S : scalar) :
  nonneg e -> nonneg S ->
  (e = PInf -> inf_or_nan S) ->
  (forall a s, e = Fin a -> S = Fin s -> a <= s) ->
  weight_in_range (div e S).
Proof.
  intros He HS Hinf Hle. pose proof fmax_large as Hf.
  destruct e as [a | | |]; simpl in He; try contradiction.
  - destruct S as [s | | |]; simpl in HS; try contradiction.
    + specialize (Hle a s eq_refl eq_refl). simpl.
      destruct (Req_dec_T s 0) as [Hs | Hs].
      * destruct (Req_dec_T a 0); [left; reflexivity | lra].
      * right. assert (0 < s) by lra.
        assert (0 <= a / s <= 1).
        { split; [apply Rmult_le_pos; [lra | left; apply Rinv_0_lt_compat; lra] |].
          apply Rmult_le_reg_r with s; [lra |].
          unfold Rdiv. rewrite Rmult_assoc, Rinv_l by lra. lra. }
        exists (a / s). split; [apply rnd_in_range; lra | assumption].
    + right. exists 0. split; [reflexivity | lra].
    + left. reflexivity.
  - left. destruct (Hinf eq_refl) as [-> | ->]; reflexivity.
  - left. reflexivity.
Qed.

(** Every attention weight is a number of [[0, 1]] or NaN. *)
Lemma weight_range (mask : option matrix) (Q K : matrix) (i j : nat) :
  (j < rows K)%nat -> weight_in_range (weight mask Q K i j).
Proof.
  intros Hj. unfold weight.
  set (e := fun k => exp_s (masked_score mask Q K i k)).
  change (exp_s (masked_score mask Q K i j)) with (e j).
  change (map (fun k => exp_s (masked_score mask Q K i k)) (seq 0 (rows K)))
    with (map e (seq 0 (rows K))).
  assert (Hall : Forall nonneg (map e (seq 0 (rows K)))).
  { apply Forall_forall; intros y Hy. apply in_map_iff in Hy.
    destruct Hy as [k [<- _]]. apply exp_s_nonneg. }
  assert (Hin : In (e j) (map e (seq 0 (rows K)))).
  { apply in_map_iff. exists j. split; [reflexivity | apply in_seq; lia]. }
  apply div_by_sum_in_range.
  - apply exp_s_nonneg.
  - unfold sum_s. apply fold_add_nonneg; [simpl; lra | exact Hall].
  - intros Hinf. unfold sum_s. apply fold_add_absorbs; [simpl; lra | exact Hall |].
    apply Exists_exists. exists (e j). split; [exact Hin |]. left; exact Hinf.
  - intros a s Ha Hs. unfold sum_s in Hs.
    destruct (fold_add_fin_dominates _ zero s ltac:(simpl; lra) Hall Hs) as [_ Hd].
    destruct (Hd (e j) Hin) as [b [Hb Hbs]]. rewrite Ha in Hb.
    inversion Hb; subst. lra.
Qed.

End WeightRange.

(** X6: whatever the queries, the keys and the mask hold, every weight
    that the softmax of the attention produces is a number of [[0, 1]] or
    NaN: never negative, never above 1, never infinite. *)
Theorem attention_weights_in_unit_interval_or_nan (F : Format) (Q K : matrix)
    (mask : option matrix) (W : matrix) :
  attention_weights Q K mask = Ok W ->
  rows W = rows Q /\ cols W = rows K /\
  forall i j, (i < rows Q)%nat -> (j < rows K)%nat ->
    coeff W i j = NaN \/ exists a, coeff W i j = Fin a /\ 0 <= a <= 1.
Proof.
  rewrite attention_weights_eq.
  destruct (cols Q =? cols K)%nat; [| discriminate].
  destruct (mask_fits (rows Q) (rows K) mask); [| discriminate].
  intros H; inversion H; subst W; clear H.
  rewrite rows_tabulate, cols_tabulate. split; [reflexivity |]. split; [reflexivity |].
  intros i j Hi Hj. rewrite coeff_tabulate by assumption.
  apply weight_range; exact Hj.
Qed.

(** The theorem at the two queries and keys of the masking example. *)
Lemma attention_weights_in_unit_interval_or_nan_witness :
  exists W : matrix,
    attention_weights (F := binary64) zero_pair zero_pair (Some mask_second_key) = Ok W /\
    rows W = 2%nat /\ cols W = 2%nat /\
    forall i j, (i < 2)%nat -> (j < 2)%nat ->
      coeff W i j = NaN \/ exists a, coeff W i j = Fin a /\ 0 <= a <= 1.
Proof.
  assert (H : exists W, attention_weights (F := binary64) zero_pair zero_pair
                          (Some mask_second_key) = Ok W).
  { rewrite attention_weights_eq. eexists; reflexivity. }
  destruct H as [W HW]. exists W. split; [exact HW |].
  exact (attention_weights_in_unit_interval_or_nan binary64 zero_pair zero_pair
           (Some mask_second_key) W HW).
Defined.

(** ** Attention: rows of bounded scores *)

(** X7: when the scores of a row all lie in [[-B, B]] and [n * exp B]
    (for [n] keys, at least one) does not exceed the largest finite
    number, no exponential overflows and the row of weights is a
    distribution: numbers of [[0, 1]] that sum to 1. *)
Theorem softmax_row_of_bounded_scores_is_distribution (F : Format)
    (Q K : matrix) (mask : option matrix) (W : matrix) (i : nat)
    (s : nat -> R) (B : R) :
  attention_weights Q K mask = Ok W ->
  (i < rows Q)%nat -> (0 < rows K)%nat ->
  (forall k, (k < rows K)%nat ->
     masked_score mask Q K i k = Fin (s k) /\ - B <= s k <= B) ->
  INR (rows K) * exp B <= fmax ->
  row_is_distribution W i.
Proof.
  intros HW Hi Hn Hs Hmax.
  rewrite attention_weights_eq in HW.
  destruct (cols Q =? cols K)%nat; [| discriminate].
  destruct (mask_fits (rows Q) (rows K) mask); [| discriminate].
  inversion HW; subst W; clear HW.
  set (n := rows K) in *.
  set (e := fun k => exp (s k)).
  assert (Hmono : forall a b, a <= b -> exp a <= exp b).
  { intros a b [Hab | ->]; [left; apply exp_increasing; exact Hab | right; reflexivity]. }
  assert (He : forall k, (k < n)%nat -> 0 <= e k <= exp B).
  { intros k Hk. unfold e. split; [left; apply exp_pos |].
    apply Hmono. apply Hs; exact Hk. }
  assert (Hn1 : 1 <= INR n).
  { change 1 with (INR 1). apply le_INR. lia. }
  pose proof (exp_pos B) as HB. pose proof fmax_pos as Hf.
  assert (HeB : exp B <= fmax) by nra.
  assert (Hexp : forall k, (k < n)%nat ->
            exp_s (masked_score mask Q K i k) = Fin (e k)).
  { intros k Hk. rewrite (proj1 (Hs k Hk)). cbn [exp_s].
    apply rnd_in_range. destruct (He k Hk). fold (e k). lra. }
  set (S := rsum e n).
  assert (HS : 0 < S).
  { pose proof (rsum_ge_term e n 0 ltac:(intros; apply He; assumption) Hn).
    pose proof (exp_pos (s 0%nat)). unfold S, e in *. lra. }
  assert (Hsum : sum_s (map (fun k => exp_s (masked_score mask Q K i k)) (seq 0 n)) =
                 Fin S).
  { rewrite (map_seq_ext _ (fun k => Fin (e k)) n Hexp).
    apply sum_s_fin with (M := exp B); assumption. }
  assert (Hw : forall j, (j < n)%nat ->
            weight mask Q K i j = Fin (e j / S) /\ 0 <= e j / S <= 1).
  { intros j Hj. unfold weight. fold n. rewrite Hsum, (Hexp j Hj).
    pose proof (rsum_ge_term e n j ltac:(intros; apply He; assumption) Hj) as Hle.
    fold S in Hle. destruct (He j Hj) as [He0 _].
    assert (Hr : 0 <= e j / S <= 1).
    { split; [apply Rmult_le_pos; [lra | left; apply Rinv_0_lt_compat; lra] |].
      apply Rmult_le_reg_r with S; [lra |].
      unfold Rdiv. rewrite Rmult_assoc, Rinv_l by lra. lra. }
    split; [| exact Hr].
    rewrite div_fin by lra. apply rnd_in_range. pose proof fmax_large. lra. }
  exists (map (fun k => e k / S) (seq 0 n)).
  rewrite cols_tabulate. split; [rewrite length_map, length_seq; reflexivity |].
  split.
  { intros j Hj. rewrite coeff_tabulate by assumption.
    rewrite (nth_map_seq (fun k => e k / S)) by exact Hj.
    apply Hw; exact Hj. }
  split.
  { apply Forall_forall; intros a Ha. apply in_map_iff in Ha.
    destruct Ha as [k [<- Hk]]. apply in_seq in Hk. apply Hw; lia. }
  rewrite fold_right_map_seq, rsum_scale. fold S.
  replace (S / S - 1) with 0 by (field; lra).
  rewrite Rabs_R0. lra.
Qed.

(** The theorem at two queries and keys that are all zero: the scores
    of row 0 are 0, and [B = 0]. *)
Lemma softmax_row_of_bounded_scores_is_distribution_witness :
  exists W : matrix,
    attention_weights (F := binary64) zero_pair zero_pair None = Ok W /\
    row_is_distribution W 0.
Proof.
  assert (H : exists W, attention_weights (F := binary64) zero_pair zero_pair None = Ok W).
  { rewrite attention_weights_eq. eexists; reflexivity. }
  destruct H as [W HW]. exists W. split; [exact HW |].
  apply (softmax_row_of_bounded_scores_is_distribution binary64 zero_pair zero_pair
           None W 0 (fun _ => 0) 0 HW).
  - simpl; lia.
  - simpl; lia.
  - intros k Hk. split; [| lra].
    cbn [masked_score]. apply (score_zero_pair (F := binary64)); [lia | exact Hk].
  - change (INR (rows zero_pair)) with (1 + 1). rewrite exp_0.
    pose proof (@fmax_large binary64). lra.
Defined.

(** ** Attention: accepted shapes, masks, independent queries *)

(** [sum_exp(i)], the sum of the exponentials of row [i]. *)
Definition exp_row_sum {F : Format} (mask : option matrix) (Q K : matrix) (i : nat)
  : scalar :=
  sum_s (map (fun k => exp_s (masked_score mask Q K i k)) (seq 0 (rows K))).

(** The second key hidden from the first query with [-inf]. *)
Definition mask_second_key_ninf : matrix :=
  of_rows 2 [[Fin 0; NInf]; [Fin 0; Fin 0]].

(** X8: the attention accepts queries and keys of the same width, a mask
    of the shape of the scores and as many values as keys, and returns a
    matrix with the rows of [Q] and the columns of [V]; any other shape
    stops the program, at the product [Q * K.transpose()], at the mask
    addition or at the product [attn * V], in this order. *)
Theorem attention_accepts_matching_shapes (F : Format) (Q K V : matrix)
    (mask : option matrix) :
  (cols Q = cols K -> mask_fits (rows Q) (rows K) mask = true -> rows K = rows V ->
   exists out, scaled_dot_product_attention Q K V mask = Ok out /\
               rows out = rows Q /\ cols out = cols V) /\
  (cols Q <> cols K ->
   scaled_dot_product_attention Q K V mask = Aborted "Q * K.transpose()") /\
  (cols Q = cols K -> mask_fits (rows Q) (rows K) mask = false ->
   scaled_dot_product_attention Q K V mask = Aborted "scores += *mask") /\
  (cols Q = cols K -> mask_fits (rows Q) (rows K) mask = true -> rows K <> rows V ->
   scaled_dot_product_attention Q K V mask = Aborted "attn * V").
Proof.
  rewrite scaled_dot_product_attention_eq. repeat split.
  - intros Hqk Hm Hkv. rewrite Hm, Hqk, Hkv, !Nat.eqb_refl.
    eexists; split; [reflexivity |]. split; reflexivity.
  - intros Hqk. apply Nat.eqb_neq in Hqk. rewrite Hqk. reflexivity.
  - intros Hqk Hm. rewrite Hqk, Nat.eqb_refl, Hm. reflexivity.
  - intros Hqk Hm Hkv. apply Nat.eqb_neq in Hkv.
    rewrite Hqk, Nat.eqb_refl, Hm, Hkv. reflexivity.
Qed.

(** The theorem at queries, keys and values of two rows, and at a query
    of another width, a mask of one entry, and a single value. *)
Lemma attention_accepts_matching_shapes_witness :
  (exists out, scaled_dot_product_attention (F := binary64)
                 zero_pair zero_pair zero_pair (Some mask_second_key) = Ok out /\
               rows out = 2%nat /\ cols out = 1%nat) /\
  scaled_dot_product_attention (F := binary64) unit_rows zero_pair zero_pair None =
    Aborted "Q * K.transpose()" /\
  scaled_dot_product_attention (F := binary64) zero_pair zero_pair zero_pair
    (Some (one_by_one (Fin 0))) = Aborted "scores += *mask" /\
  scaled_dot_product_attention (F := binary64) zero_pair zero_pair
    (one_by_one (Fin 1)) None = Aborted "attn * V".
Proof.
  split; [| split; [| split]].
  - apply (attention_accepts_matching_shapes binary64 zero_pair zero_pair zero_pair
             (Some mask_second_key)); reflexivity.
  - apply (attention_accepts_matching_shapes binary64 unit_rows zero_pair zero_pair
             None). simpl. lia.
  - apply (attention_accepts_matching_shapes binary64 zero_pair zero_pair zero_pair
             (Some (one_by_one (Fin 0)))); reflexivity.
  - apply (attention_accepts_matching_shapes binary64 zero_pair zero_pair
             (one_by_one (Fin 1)) None); try reflexivity. simpl. lia.
Defined.

Section MaskFacts.

Context {F : Format}.

Lemma weight_eq_div (mask : option matrix) (Q K : matrix) (i j : nat) :
  weight mask Q K i j =
  div (exp_s (masked_score mask Q K i j)) (exp_row_sum mask Q K i).
Proof. reflexivity. Qed.

Lemma exp_row_sum_term_not_nan (mask : option matrix) (Q K : matrix) (i j : nat) :
  (j < rows K)%nat -> positive (exp_row_sum mask Q K i) ->
  exp_s (masked_score mask Q K i j) <> NaN.
Proof.
  intros Hj Hpos Hnan. unfold exp_row_sum in Hpos.
  rewrite sum_s_nan in Hpos; [exact Hpos |].
  apply in_map_iff. exists j. split; [exact Hnan | apply in_seq; lia].
Qed.

Lemma div_zero_positive (S : scalar) : positive S -> div (Fin 0) S = Fin 0.
Proof.
  destruct S as [s | | |]; simpl; intros H; try contradiction; [| reflexivity].
  destruct (Req_dec_T s 0); [lra |].
  replace (0 / s) with 0 by (unfold Rdiv; ring).
  apply rnd_in_range. pose proof fmax_pos. lra.
Qed.

Lemma coeff_causal_mask (n i j : nat) :
  (i < n)%nat -> (j < n)%nat ->
  coeff (causal_mask n) i j = if (i <? j)%nat then PInf else zero.
Proof.
  intros Hi Hj. unfold causal_mask. rewrite coeff_tabulate by assumption. reflexivity.
Qed.

End MaskFacts.

(** X9: a key masked with [-inf] gets the weight 0, provided the sum of
    the exponentials of the row is positive (a positive number or
    [+inf]). *)
Theorem key_masked_with_negative_infinity_gets_zero (F : Format) (Q K m W : matrix)
    (i j : nat) :
  attention_weights Q K (Some m) = Ok W ->
  (i < rows Q)%nat -> (j < rows K)%nat ->
  coeff m i j = NInf ->
  positive (exp_row_sum (Some m) Q K i) ->
  coeff W i j = Fin 0.
Proof.
  intros HW Hi Hj Hm Hpos.
  rewrite attention_weights_eq in HW.
  destruct (cols Q =? cols K)%nat; [| discriminate].
  destruct (mask_fits (rows Q) (rows K) (Some m)); [| discriminate].
  inversion HW; subst W; clear HW.
  rewrite coeff_tabulate by assumption. rewrite weight_eq_div.
  pose proof (exp_row_sum_term_not_nan (Some m) Q K i j Hj Hpos) as Hnn.
  cbn [masked_score] in *. rewrite Hm in *.
  destruct (score Q K i j) as [a | | |]; cbn [add exp_s] in *;
    try (exfalso; apply Hnn; reflexivity);
    apply div_zero_positive; exact Hpos.
Qed.

(** The theorem at the two zero queries and keys, the second key hidden
    from the first query. *)
Lemma key_masked_with_negative_infinity_gets_zero_witness :
  exists W : matrix,
    attention_weights (F := binary64) zero_pair zero_pair
      (Some mask_second_key_ninf) = Ok W /\
    coeff W 0 1 = Fin 0.
Proof.
  assert (H : exists W, attention_weights (F := binary64) zero_pair zero_pair
                          (Some mask_second_key_ninf) = Ok W).
  { rewrite attention_weights_eq. eexists; reflexivity. }
  destruct H as [W HW]. exists W. split; [exact HW |].
  apply (key_masked_with_negative_infinity_gets_zero binary64 zero_pair zero_pair
           mask_second_key_ninf W 0 1 HW).
  - simpl; lia.
  - simpl; lia.
  - reflexivity.
  - unfold exp_row_sum. change (rows zero_pair) with 2%nat. cbn [seq map masked_score].
    rewrite !(score_zero_pair (F := binary64)) by lia.
    change (coeff mask_second_key_ninf 0 0) with (Fin 0).
    change (coeff mask_second_key_ninf 0 1) with NInf.
    pose proof (@fmax_large binary64) as Hf.
    rewrite (add_fin (F := binary64)), Rplus_0_l, (rnd_in_range (F := binary64) 0) by lra.
    cbn [add exp_s]. rewrite exp_0, (rnd_in_range (F := binary64) 1) by lra.
    unfold sum_s, zero. cbn [fold_left].
    rewrite (add_fin (F := binary64)), Rplus_0_l, (rnd_in_range (F := binary64) 1) by lra.
    rewrite (add_fin (F := binary64)), Rplus_0_r, (rnd_in_range (F := binary64) 1) by lra.
    cbn [positive]. lra.
Defined.

(** X10: with the mask of [main] ([+inf] above the diagonal), every
    entry of every row but the last of the attention output is NaN,
    whatever the queries, keys and values hold. *)
Theorem causal_mask_of_main_yields_nan_rows (F : Format) (Q K V out : matrix)
    (n i : nat) :
  scaled_dot_product_attention Q K V (Some (causal_mask n)) = Ok out ->
  (S i < n)%nat ->
  rows out = n /\ forall c, (c < cols V)%nat -> coeff out i c = NaN.
Proof.
  intros Hout Hi. rewrite scaled_dot_product_attention_eq in Hout.
  destruct (cols Q =? cols K)%nat; [| discriminate].
  destruct (mask_fits (rows Q) (rows K) (Some (causal_mask n))) eqn:Hm; [| discriminate].
  destruct (rows K =? rows V)%nat; [| discriminate].
  cbn [mask_fits] in Hm. apply andb_true_iff in Hm. destruct Hm as [Hr Hc].
  apply Nat.eqb_eq in Hr, Hc. unfold causal_mask in Hr, Hc.
  rewrite rows_tabulate in Hr. rewrite cols_tabulate in Hc.
  inversion Hout; subst out; clear Hout.
  rewrite rows_tabulate. split; [exact Hr |].
  intros c Hc'. rewrite coeff_tabulate by lia.
  apply sum_s_nan. apply in_map_iff. exists (S i). split.
  - rewrite weight_masked_nan; [reflexivity | lia |].
    rewrite coeff_causal_mask by lia.
    replace (i <? S i)%nat with true by (symmetry; apply Nat.ltb_lt; lia).
    reflexivity.
  - apply in_seq. lia.
Qed.

(** The theorem at two zero queries, keys and values. *)
Lemma causal_mask_of_main_yields_nan_rows_witness :
  exists out : matrix,
    scaled_dot_product_attention (F := binary64) zero_pair zero_pair zero_pair
      (Some (causal_mask 2)) = Ok out /\
    rows out = 2%nat /\ forall c, (c < 1)%nat -> coeff out 0 c = NaN.
Proof.
  assert (H : exists out, scaled_dot_product_attention (F := binary64)
                zero_pair zero_pair zero_pair (Some (causal_mask 2)) = Ok out).
  { rewrite scaled_dot_product_attention_eq. eexists; reflexivity. }
  destruct H as [out Hout]. exists out. split; [exact Hout |].
  apply (causal_mask_of_main_yields_nan_rows binary64 zero_pair zero_pair zero_pair
           out 2 0 Hout). lia.
Defined.

(** X11: the queries are attended independently.  Row [i] of the result
    is fixed by row [i] of [Q] (with the keys, the values and the mask):
    changing the other queries leaves it as it is. *)
Theorem attention_rows_are_independent (F : Format) (Q Q' K V : matrix)
    (mask : option matrix) (out out' : matrix) (i : nat) :
  scaled_dot_product_attention Q K V mask = Ok out ->
  scaled_dot_product_attention Q' K V mask = Ok out' ->
  (i < rows Q)%nat -> (i < rows Q')%nat ->
  (forall t, (t < cols K)%nat -> coeff Q i t = coeff Q' i t) ->
  forall c, (c < cols V)%nat -> coeff out i c = coeff out' i c.
Proof.
  intros Hout Hout' Hi Hi' Hrow c Hc.
  rewrite scaled_dot_product_attention_eq in Hout, Hout'.
  destruct (cols Q =? cols K)%nat eqn:Hq; [| discriminate].
  destruct (cols Q' =? cols K)%nat eqn:Hq'; [| discriminate].
  destruct (mask_fits (rows Q) (rows K) mask); [| discriminate].
  destruct (mask_fits (rows Q') (rows K) mask); [| discriminate].
  destruct (rows K =? rows V)%nat; [| discriminate].
  apply Nat.eqb_eq in Hq, Hq'.
  inversion Hout; subst out. inversion Hout'; subst out'.
  rewrite !coeff_tabulate by assumption.
  assert (Hs : forall k, score Q K i k = score Q' K i k).
  { intros k. unfold score. rewrite Hq, Hq'. f_equal. f_equal.
    apply map_seq_ext; intros t Ht. f_equal. apply Hrow; exact Ht. }
  assert (Hms : forall k, masked_score mask Q K i k = masked_score mask Q' K i k).
  { intros k. unfold masked_score. rewrite Hs. reflexivity. }
  f_equal. apply map_seq_ext; intros k Hk. f_equal.
  unfold weight. rewrite Hms. f_equal. f_equal.
  apply map_seq_ext; intros k' Hk'. rewrite Hms. reflexivity.
Qed.

(** The theorem at the queries [[1, 0], [0, 1]] and [[1, 0], [1, 0]],
    which share their first row. *)
Lemma attention_rows_are_independent_witness :
  exists out out' : matrix,
    scaled_dot_product_attention (F := binary64) unit_rows unit_rows unit_rows None =
      Ok out /\
    scaled_dot_product_attention (F := binary64)
      (of_rows 2 [[Fin 1; Fin 0]; [Fin 1; Fin 0]]) unit_rows unit_rows None = Ok out' /\
    forall c, (c < 2)%nat -> coeff out 0 c = coeff out' 0 c.
Proof.
  assert (H : exists out, scaled_dot_product_attention (F := binary64)
                unit_rows unit_rows unit_rows None = Ok out).
  { rewrite scaled_dot_product_attention_eq. eexists; reflexivity. }
  assert (H' : exists out', scaled_dot_product_attention (F := binary64)
                 (of_rows 2 [[Fin 1; Fin 0]; [Fin 1; Fin 0]]) unit_rows unit_rows None =
                 Ok out').
  { rewrite scaled_dot_product_attention_eq. eexists; reflexivity. }
  destruct H as [out Hout]. destruct H' as [out' Hout'].
  exists out, out'. split; [exact Hout |]. split; [exact Hout' |].
  apply (attention_rows_are_independent binary64 unit_rows
           (of_rows 2 [[Fin 1; Fin 0]; [Fin 1; Fin 0]]) unit_rows unit_rows None
           out out' 0 Hout Hout').
  - simpl; lia.
  - simpl; lia.
  - intros t Ht. simpl in Ht.
    destruct t as [| [| t]]; [reflexivity | reflexivity | lia].
Defined.

(** ** Multi-head attention: accepted inputs *)

Section AcceptedInputs.

Context {F : Format}.

Lemma MultiHeadAttention_call_mask_abort (a : MultiHeadAttention) (x : matrix)
    (mask : option matrix) :
  valid_attention a -> cols x = d_model_ a ->
  mask_fits (rows x) (rows x) mask = false ->
  MultiHeadAttention_call a x mask = Aborted "scores += *mask".
Proof.
  intros [Hh [Hd [Hv [[HQr HQc] [[HKr HKc] [[HVr HVc] _]]]]]] Hx Hm.
  unfold MultiHeadAttention_call.
  destruct (product_ok "x * W_Q_" x (W_Q_ a)) as [Q [-> HQ]]; [congruence |].
  destruct (product_ok "x * W_K_" x (W_K_ a)) as [K [-> HK]]; [congruence |].
  destruct (product_ok "x * W_V_" x (W_V_ a)) as [V [-> HV]]; [congruence |].
  cbn [bind].
  rewrite HQc, Hd in HQ. rewrite HKc, Hd in HK. rewrite HVc, Hd in HV.
  destruct (split_heads_ok a Q K V (rows x) Hv HQ HK HV) as [heads [-> [Hlen Hall]]].
  cbn [bind].
  destruct heads as [| t heads]; [simpl in Hlen; congruence |].
  rewrite (for_each_abort_head _ t heads "scores += *mask"); [reflexivity |].
  apply head_attention_abort with (n := rows x) (d := d_k_ a); [exact Hm |].
  inversion Hall; assumption.
Qed.

End AcceptedInputs.

(** X1: with a configuration that the constructor accepts, the
    multi-head attention returns a matrix exactly when the input has
    [d_model] columns and the mask, if there is one, has the shape
    [seq_len x seq_len]; the result then has the shape of the input. *)
Theorem multi_head_attention_accepts_fitting_inputs (F : Format)
    (a : MultiHeadAttention) (x : matrix) (mask : option matrix) :
  valid_attention a ->
  (cols x = d_model_ a -> mask_fits (rows x) (rows x) mask = true ->
   exists y, MultiHeadAttention_call a x mask = Ok y /\
             rows y = rows x /\ cols y = cols x) /\
  (forall y, MultiHeadAttention_call a x mask = Ok y ->
   cols x = d_model_ a /\ mask_fits (rows x) (rows x) mask = true).
Proof.
  intros Ha. split.
  - intros Hx Hm. apply MultiHeadAttention_call_shape; assumption.
  - intros y Hy.
    destruct (Nat.eq_dec (cols x) (d_model_ a)) as [Hx | Hx].
    + split; [exact Hx |].
      destruct (mask_fits (rows x) (rows x) mask) eqn:Hm; [reflexivity |].
      rewrite (MultiHeadAttention_call_mask_abort a x mask Ha Hx Hm) in Hy.
      discriminate.
    + exfalso. destruct Ha as [_ [_ [_ [[HQr _] _]]]].
      unfold MultiHeadAttention_call in Hy.
      rewrite product_abort in Hy by congruence. discriminate.
Qed.

(** The theorem at the identity projections, the input
    [[1, 0], [0, 1]] and the mask of [main] for two positions. *)
Lemma multi_head_attention_accepts_fitting_inputs_witness :
  exists y : matrix,
    MultiHeadAttention_call (F := binary64) identity_attention unit_rows
      (Some (causal_mask 2)) = Ok y /\
    rows y = 2%nat /\ cols y = 2%nat.
Proof.
  destruct (multi_head_attention_accepts_fitting_inputs binary64 identity_attention
              unit_rows (Some (causal_mask 2)) identity_attention_valid) as [Hok _].
  apply Hok; reflexivity.
Defined.

(** ** Constructors: what they accept and what they draw *)

Section ConstructorDraws.

Context {F : Format} {E : Engine}.

Lemma advance_advance (m n : nat) (g : engine) :
  advance n (advance m g) = advance (m + n) g.
Proof. symmetry. apply advance_add. Qed.

(** Every entry of [w] is a number of [[-0.1, 0.1)]. *)
Definition default_weights (w : matrix) : Prop :=
  forall i j, (i < rows w)%nat -> (j < cols w)%nat ->
    exists v, coeff w i j = Fin v /\ - (1 / 10) <= v < 1 / 10.

Lemma uniform_init_default_weights (g : engine) (r c : nat) (w : matrix)
    (g' : engine) :
  uniform_init g (uninitialized r c) default_init_range = (w, g') ->
  has_shape r c w /\ default_weights w /\ g' = advance (r * c) g.
Proof.
  intros H. pose proof (uniform_init_uninitialized g r c default_init_range w g' H)
    as [Hr Hc].
  split; [split; assumption |]. split.
  - intros i j Hi Hj. rewrite Hr in Hi. rewrite Hc in Hj.
    apply (uniform_init_default_entry g (uninitialized r c) w g' i j H); assumption.
  - apply (uniform_init_advance g (uninitialized r c) w g' default_init_range H).
Qed.

End ConstructorDraws.

(** ** Layer normalization of a single entry *)

Section SingleEntry.

Context {F : Format}.

(** The normalization of a single entry with [gamma = 1] and [beta = 0]:
    a finite entry is its own mean and becomes 0; any other entry becomes
    NaN. *)
Lemma layer_norm_single_entry (x : matrix) (e : R) :
  cols x = 1%nat -> 0 < e <= fmax ->
  (finite (coeff x 0 0) ->
   layer_norm_coeff (LayerNorm_new 1 (Fin e)) x 0 0 = Fin 0) /\
  (~ finite (coeff x 0 0) ->
   layer_norm_coeff (LayerNorm_new 1 (Fin e)) x 0 0 = NaN).
Proof.
  intros Hc He. pose proof fmax_large as Hf. split.
  - intros Hx. destruct (coeff x 0 0) as [a | | |] eqn:Ex; try contradiction.
    apply (layer_norm_single x a e Hc Ex Hx He).
  - intros Hx.
    assert (Hpi : div PInf (Fin 1) = PInf).
    { unfold div, inf_over. destruct (Rlt_dec 1 0); [lra | reflexivity]. }
    assert (Hni : div NInf (Fin 1) = NInf).
    { unfold div, inf_over. destruct (Rlt_dec 1 0); [lra | reflexivity]. }
    assert (Hcen : centered_coeff x 0 0 = NInf \/ centered_coeff x 0 0 = PInf \/
                   centered_coeff x 0 0 = NaN).
    { unfold centered_coeff, row_mean, sub. rewrite Hc. cbn [seq map].
      rewrite of_nat_1. unfold sum_s, zero. cbn [fold_left].
      destruct (coeff x 0 0) as [a | | |] eqn:Ex.
      - cbn [add]. rewrite Rplus_0_l.
        destruct (Rlt_dec fmax a) as [Hhi | Hhi].
        + rewrite (rnd_overflow a Hhi), Hpi. left. reflexivity.
        + destruct (Rlt_dec a (- fmax)) as [Hlo | Hlo].
          * assert (Hr : rnd a = NInf).
            { unfold rnd. destruct (Rlt_dec fmax a); [lra |].
              destruct (Rlt_dec a (- fmax)); [reflexivity | lra]. }
            rewrite Hr, Hni. right. left. reflexivity.
          * exfalso. apply Hx. cbn [finite]. lra.
      - cbn [add]. rewrite Hpi. right. right. reflexivity.
      - cbn [add]. rewrite Hni. right. right. reflexivity.
      - right. right. reflexivity. }
    unfold layer_norm_coeff, denominator, row_var.
    rewrite Hc. cbn [seq map]. rewrite of_nat_1. unfold sum_s, zero.
    cbn [fold_left].
    destruct Hcen as [-> | [-> | ->]].
    + cbn [mul add]. rewrite Hpi. reflexivity.
    + cbn [mul add]. rewrite Hpi. reflexivity.
    + reflexivity.
Qed.

End SingleEntry.

(** ** Multi-head attention: the heads and their concatenation *)

Section Heads.

Context {F : Format}.

(** The entry [(i, j)] of the product [x * W]. *)
Definition projection (x W : matrix) (i j : nat) : scalar :=
  sum_s (map (fun k => mul (coeff x i k) (coeff W k j)) (seq 0 (cols x))).

(** [(x * W).block(0, h * d_k_, seq_len, d_k_)]: the columns of head [h]. *)
Definition head_of (a : MultiHeadAttention) (x W : matrix) (h : nat) : matrix :=
  tabulate (rows x) (d_k_ a) (fun i j => projection x W i (h * d_k_ a + j)).

(** [head_outputs[h]] *)
Definition head_output (a : MultiHeadAttention) (x : matrix) (mask : option matrix)
    (h : nat) : matrix :=
  tabulate (rows x) (d_k_ a)
    (fun i j =>
       sum_s (map (fun k =>
                     mul (weight mask (head_of a x (W_Q_ a) h) (head_of a x (W_K_ a) h) i k)
                         (coeff (head_of a x (W_V_ a) h) k j))
                  (seq 0 (rows x)))).

(** [concat(i, c)]: column [c] belongs to head [c / d_k_]. *)
Definition concat_coeff (a : MultiHeadAttention) (x : matrix) (mask : option matrix)
    (i c : nat) : scalar :=
  coeff (head_output a x mask (c / d_k_ a)) i (c mod d_k_ a).

(** The entry [(i, j)] of [concat * W_O_]. *)
Definition multi_head_coeff (a : MultiHeadAttention) (x : matrix)
    (mask : option matrix) (i j : nat) : scalar :=
  sum_s (map (fun c => mul (concat_coeff a x mask i c) (coeff (W_O_ a) c j))
             (seq 0 (d_model_ a))).

Lemma product_eq (site : string) (a b : matrix) :
  cols a = rows b ->
  product site a b = Ok (tabulate (rows a) (cols b) (projection a b)).
Proof.
  intros H. unfold product. rewrite H, Nat.eqb_refl. cbn [eigen_assert bind].
  unfold projection. rewrite H. reflexivity.
Qed.

Lemma for_each_map {A B C : Type} (f : B -> result C) (g : A -> B) (k : A -> C)
    (l : list A) :
  (forall a, In a l -> f (g a) = Ok (k a)) ->
  for_each f (map g l) = Ok (map k l).
Proof.
  induction l as [| a l IH]; intros H; simpl; [reflexivity |].
  rewrite (H a (or_introl eq_refl)). cbn [bind].
  rewrite IH by (intros a' Ha'; apply H; right; exact Ha'). reflexivity.
Qed.

Lemma split_head_eq (a : MultiHeadAttention) (x : matrix) (h : nat) :
  valid_attention a -> cols x = d_model_ a -> (h < num_heads_ a)%nat ->
  split_head a
    (tabulate (rows x) (d_model_ a) (projection x (W_Q_ a)))
    (tabulate (rows x) (d_model_ a) (projection x (W_K_ a)))
    (tabulate (rows x) (d_model_ a) (projection x (W_V_ a)))
    (rows x) h =
  Ok (head_of a x (W_Q_ a) h, head_of a x (W_K_ a) h, head_of a x (W_V_ a) h).
Proof.
  intros [Hh [Hd [Hv _]]] Hx Hlt.
  assert (Hin : (h * d_k_ a + d_k_ a <= d_model_ a)%nat) by (rewrite Hd; nia).
  unfold split_head. rewrite Hv.
  rewrite !block_ok by (rewrite ?rows_tabulate, ?cols_tabulate; simpl; lia).
  cbn [bind].
  assert (Hb : forall W,
            tabulate (rows x) (d_k_ a)
              (fun i j => coeff (tabulate (rows x) (d_model_ a) (projection x W))
                            (0 + i) (h * d_k_ a + j)) =
            head_of a x W h).
  { intros W. unfold head_of. apply tabulate_ext; intros i j Hi Hj.
    rewrite coeff_tabulate by (simpl; lia). reflexivity. }
  rewrite !Hb. reflexivity.
Qed.

Lemma head_attention_eq (a : MultiHeadAttention) (x : matrix) (mask : option matrix)
    (h : nat) :
  mask_fits (rows x) (rows x) mask = true ->
  scaled_dot_product_attention (head_of a x (W_Q_ a) h) (head_of a x (W_K_ a) h)
    (head_of a x (W_V_ a) h) mask =
  Ok (head_output a x mask h).
Proof.
  intros Hm. rewrite scaled_dot_product_attention_eq.
  unfold head_of at 1 2 3 4 5 6 7 8.
  rewrite !rows_tabulate, !cols_tabulate, !Nat.eqb_refl, Hm. reflexivity.
Qed.

(** After the loop over the heads [h0, h0 + 1, ...], the columns of these
    heads hold the head outputs and the other columns are as before. *)
Lemma concat_heads_coeff (a : MultiHeadAttention) (n : nat) (outs : list matrix) :
  Forall (has_shape n (d_k_ a)) outs ->
  forall (h0 : nat) (c c' : matrix),
    has_shape n (num_heads_ a * d_k_ a) c ->
    (h0 + length outs <= num_heads_ a)%nat ->
    concat_heads a n outs h0 c = Ok c' ->
    forall i h j, (i < n)%nat -> (h < num_heads_ a)%nat -> (j < d_k_ a)%nat ->
      coeff c' i (h * d_k_ a + j) =
      if ((h0 <=? h) && (h <? h0 + length outs))%nat
      then coeff (nth (h - h0) outs (uninitialized 0 0)) i j
      else coeff c i (h * d_k_ a + j).
Proof.
  induction 1 as [| o outs Ho Houts IH]; intros h0 c c' Hc Hlen Hcat i h j Hi Hh Hj.
  - simpl in Hcat. inversion Hcat; subst c'. simpl length.
    replace ((h0 <=? h) && (h <? h0 + 0))%nat with false; [reflexivity |].
    symmetry. apply andb_false_iff.
    destruct (Nat.leb_spec h0 h); [right; apply Nat.ltb_ge; lia | left; reflexivity].
  - simpl in Hcat, Hlen. apply bind_ok in Hcat. destruct Hcat as [c1 [Hset Hcat]].
    destruct Hc as [Hcr Hcc]. destruct Ho as [Hor Hoc].
    assert (Hc1 : c1 = tabulate (rows c) (cols c)
              (fun i j =>
                 if ((0 <=? i) && (i <? 0 + n) && (h0 * d_k_ a <=? j) &&
                     (j <? h0 * d_k_ a + d_k_ a))%nat
                 then coeff o (i - 0) (j - h0 * d_k_ a)
                 else coeff c i j)).
    { unfold set_block in Hset.
      apply bind_ok in Hset. destruct Hset as [u1 [_ Hset]].
      apply bind_ok in Hset. destruct Hset as [u2 [_ Hset]].
      inversion Hset. reflexivity. }
    assert (Hcol : (h * d_k_ a + j < num_heads_ a * d_k_ a)%nat) by nia.
    rewrite (IH (S h0) c1 c') with (i := i) (h := h) (j := j); try assumption;
      [| subst c1; split; [rewrite rows_tabulate | rewrite cols_tabulate]; assumption
       | lia].
    simpl length.
    destruct (Nat.lt_trichotomy h h0) as [Hlt | [Heq | Hgt]].
    + replace ((S h0 <=? h) && (h <? S h0 + length outs))%nat with false
        by (symmetry; apply andb_false_iff; left; apply Nat.leb_gt; lia).
      replace ((h0 <=? h) && (h <? h0 + S (length outs)))%nat with false
        by (symmetry; apply andb_false_iff; left; apply Nat.leb_gt; lia).
      subst c1. rewrite coeff_tabulate by lia.
      replace (h0 * d_k_ a <=? h * d_k_ a + j)%nat with false
        by (symmetry; apply Nat.leb_gt; nia).
      rewrite andb_false_r. reflexivity.
    + subst h.
      replace ((S h0 <=? h0) && (h0 <? S h0 + length outs))%nat with false
        by (symmetry; apply andb_false_iff; left; apply Nat.leb_gt; lia).
      replace ((h0 <=? h0) && (h0 <? h0 + S (length outs)))%nat with true
        by (symmetry; apply andb_true_iff; split;
            [apply Nat.leb_le | apply Nat.ltb_lt]; lia).
      rewrite Nat.sub_diag. cbn [nth].
      subst c1. rewrite coeff_tabulate by lia.
      replace (0 <=? i)%nat with true by reflexivity.
      replace (i <? 0 + n)%nat with true by (symmetry; apply Nat.ltb_lt; lia).
      replace (h0 * d_k_ a <=? h0 * d_k_ a + j)%nat with true
        by (symmetry; apply Nat.leb_le; lia).
      replace (h0 * d_k_ a + j <? h0 * d_k_ a + d_k_ a)%nat with true
        by (symmetry; apply Nat.ltb_lt; lia).
      cbn [andb]. f_equal; lia.
    + replace (h0 <=? h)%nat with true by (symmetry; apply Nat.leb_le; lia).
      replace (S h0 <=? h)%nat with true by (symmetry; apply Nat.leb_le; lia).
      replace (h <? h0 + S (length outs))%nat with (h <? S h0 + length outs)%nat
        by (f_equal; lia).
      cbn [andb].
      destruct (h <? S h0 + length outs)%nat.
      * replace (h - h0)%nat with (S (h - S h0)) by lia. reflexivity.
      * subst c1. rewrite coeff_tabulate by lia.
        replace (h * d_k_ a + j <? h0 * d_k_ a + d_k_ a)%nat with false
          by (symmetry; apply Nat.ltb_ge; nia).
        rewrite andb_false_r. reflexivity.
Qed.

(** The call in closed form. *)
Lemma MultiHeadAttention_call_eq (a : MultiHeadAttention) (x : matrix)
    (mask : option matrix) :
  valid_attention a -> cols x = d_model_ a ->
  mask_fits (rows x) (rows x) mask = true ->
  MultiHeadAttention_call a x mask =
  Ok (tabulate (rows x) (d_model_ a) (multi_head_coeff a x mask)).
Proof.
  intros Ha Hx Hm.
  pose proof Ha as [Hh [Hd [Hv [[HQr HQc] [[HKr HKc] [[HVr HVc] [HOr HOc]]]]]]].
  unfold MultiHeadAttention_call.
  rewrite !product_eq by congruence. cbn [bind].
  rewrite HQc, HKc, HVc.
  rewrite (for_each_ext_in _
             (fun h => Ok (head_of a x (W_Q_ a) h, head_of a x (W_K_ a) h,
                           head_of a x (W_V_ a) h))).
  2: { intros h Hin. apply in_seq in Hin. apply split_head_eq; [assumption .. | lia]. }
  rewrite <- (map_id (seq 0 (num_heads_ a))) at 1.
  rewrite (for_each_map _ (fun h => h)
             (fun h => (head_of a x (W_Q_ a) h, head_of a x (W_K_ a) h,
                        head_of a x (W_V_ a) h)))
    by (intros; reflexivity).
  cbn [bind].
  rewrite (for_each_map _ _ (head_output a x mask))
    by (intros h _; apply head_attention_eq; exact Hm).
  cbn [bind].
  set (outs := map (head_output a x mask) (seq 0 (num_heads_ a))).
  assert (Houts : Forall (has_shape (rows x) (d_k_ a)) outs).
  { apply Forall_forall. intros o Ho. apply in_map_iff in Ho.
    destruct Ho as [h [<- _]]. unfold head_output.
    split; [apply rows_tabulate | apply cols_tabulate]. }
  assert (Hun : has_shape (rows x) (num_heads_ a * d_k_ a)
                  (uninitialized (rows x) (d_model_ a))).
  { unfold uninitialized, constant.
    split; [apply rows_tabulate | rewrite cols_tabulate; exact Hd]. }
  assert (Hlen : (0 + length outs <= num_heads_ a)%nat).
  { unfold outs. rewrite length_map, length_seq. lia. }
  destruct (concat_heads_ok a (rows x) outs Houts 0 _ Hun Hlen) as [c [Hcat [Hcr Hcc]]].
  rewrite Hcat. cbn [bind].
  rewrite product_eq by congruence. rewrite Hcr, HOc. f_equal.
  apply tabulate_ext; intros i j Hi Hj.
  unfold projection, multi_head_coeff. rewrite Hcc, <- Hd.
  f_equal. apply map_seq_ext; intros k Hk. f_equal.
  rewrite Hd in Hk.
  assert (Hdk : d_k_ a <> 0%nat) by (intros H0; rewrite H0 in Hk; lia).
  assert (Hq : (k / d_k_ a < num_heads_ a)%nat).
  { apply Nat.Div0.div_lt_upper_bound. lia. }
  assert (Hr : (k mod d_k_ a < d_k_ a)%nat) by (apply Nat.mod_upper_bound; exact Hdk).
  assert (Hk' : k = (k / d_k_ a * d_k_ a + k mod d_k_ a)%nat).
  { rewrite (Nat.div_mod_eq k (d_k_ a)) at 1. lia. }
  rewrite Hk' at 1.
  rewrite (concat_heads_coeff a (rows x) outs Houts 0 _ c Hun Hlen Hcat
             i (k / d_k_ a) (k mod d_k_ a) Hi Hq Hr).
  replace ((0 <=? k / d_k_ a) && (k / d_k_ a <? 0 + length outs))%nat with true.
  - unfold concat_coeff, outs. rewrite Nat.sub_0_r.
    rewrite nth_map_seq by exact Hq. reflexivity.
  - symmetry. apply andb_true_iff. split; [reflexivity |].
    apply Nat.ltb_lt. unfold outs. rewrite length_map, length_seq. lia.
Qed.

End Heads.

Section HeadFacts.

Context {F : Format}.

Lemma concat_coeff_head (a : MultiHeadAttention) (x : matrix) (mask : option matrix)
    (i h j : nat) :
  (j < d_k_ a)%nat ->
  concat_coeff a x mask i (h * d_k_ a + j) = coeff (head_output a x mask h) i j.
Proof.
  intros Hj. unfold concat_coeff.
  assert (Hdk : d_k_ a <> 0%nat) by lia.
  replace (h * d_k_ a + j)%nat with (j + h * d_k_ a)%nat by lia.
  rewrite Nat.div_add by exact Hdk. rewrite Nat.Div0.mod_add.
  rewrite Nat.div_small, Nat.mod_small by exact Hj. reflexivity.
Qed.

Lemma head_output_causal_nan (a : MultiHeadAttention) (x : matrix) (h i j : nat) :
  (S i < rows x)%nat -> (j < d_k_ a)%nat ->
  coeff (head_output a x (Some (causal_mask (rows x))) h) i j = NaN.
Proof.
  intros Hi Hj. unfold head_output. rewrite coeff_tabulate by lia.
  apply sum_s_nan. apply in_map_iff. exists (S i). split; [| apply in_seq; lia].
  rewrite weight_masked_nan; [reflexivity | |].
  - unfold head_of. rewrite rows_tabulate. exact Hi.
  - rewrite coeff_causal_mask by lia.
    replace (i <? S i)%nat with true by (symmetry; apply Nat.ltb_lt; lia).
    reflexivity.
Qed.

Lemma causal_mask_fits (n : nat) : mask_fits n n (Some (causal_mask n)) = true.
Proof.
  unfold causal_mask. cbn [mask_fits].
  rewrite rows_tabulate, cols_tabulate, Nat.eqb_refl. reflexivity.
Qed.

End HeadFacts.

(** X16: the multi-head attention in closed form.  For a configuration
    that the constructor accepts, an input of [d_model] columns and a
    fitting mask, the call returns [concat * W_O_], where the columns
    [h * d_k, ..., h * d_k + d_k - 1] of [concat] are the result of the
    scaled dot-product attention on the same columns of [x * W_Q_],
    [x * W_K_] and [x * W_V_]: the heads are attended separately and
    concatenated in their order. *)
Theorem multi_head_attention_concatenates_heads (F : Format)
    (a : MultiHeadAttention) (x : matrix) (mask : option matrix) :
  valid_attention a -> cols x = d_model_ a ->
  mask_fits (rows x) (rows x) mask = true ->
  MultiHeadAttention_call a x mask =
    Ok (tabulate (rows x) (d_model_ a)
          (fun i j =>
             sum_s (map (fun c => mul (concat_coeff a x mask i c) (coeff (W_O_ a) c j))
                        (seq 0 (d_model_ a))))) /\
  forall h, (h < num_heads_ a)%nat ->
    scaled_dot_product_attention (head_of a x (W_Q_ a) h) (head_of a x (W_K_ a) h)
      (head_of a x (W_V_ a) h) mask = Ok (head_output a x mask h) /\
    forall i j, (j < d_k_ a)%nat ->
      concat_coeff a x mask i (h * d_k_ a + j) = coeff (head_output a x mask h) i j.
Proof.
  intros Ha Hx Hm. split.
  - apply (MultiHeadAttention_call_eq a x mask Ha Hx Hm).
  - intros h Hh. split.
    + apply head_attention_eq. exact Hm.
    + intros i j Hj. apply concat_coeff_head. exact Hj.
Qed.

(** The theorem at the identity projections with the input [[1, 0], [0, 1]]. *)
Lemma multi_head_attention_concatenates_heads_witness :
  MultiHeadAttention_call (F := binary64) identity_attention unit_rows None =
    Ok (tabulate 2 2
          (fun i j =>
             sum_s (F := binary64)
               (map (fun c => mul (F := binary64)
                                (concat_coeff (F := binary64) identity_attention
                                   unit_rows None i c)
                                (coeff (identity 2) c j))
                    (seq 0 2)))) /\
  forall h, (h < 1)%nat ->
    scaled_dot_product_attention (F := binary64)
      (head_of (F := binary64) identity_attention unit_rows (identity 2) h)
      (head_of (F := binary64) identity_attention unit_rows (identity 2) h)
      (head_of (F := binary64) identity_attention unit_rows (identity 2) h) None =
      Ok (head_output (F := binary64) identity_attention unit_rows None h) /\
    forall i j, (j < 2)%nat ->
      concat_coeff (F := binary64) identity_attention unit_rows None i (h * 2 + j) =
      coeff (head_output (F := binary64) identity_attention unit_rows None h) i j.
Proof.
  apply (multi_head_attention_concatenates_heads binary64 identity_attention
           unit_rows None identity_attention_valid).
  - reflexivity.
  - reflexivity.
Defined.

(** X17: with a mask that holds [+inf] above the diagonal, as the one
    [main] builds, the multi-head attention returns NaN in every entry
    of every row but the last, whatever the input and the weights
    hold. *)
Theorem multi_head_attention_causal_mask_yields_nan_rows (F : Format)
    (a : MultiHeadAttention) (x : matrix) :
  valid_attention a -> cols x = d_model_ a ->
  exists y,
    MultiHeadAttention_call a x (Some (causal_mask (rows x))) = Ok y /\
    has_shape (rows x) (d_model_ a) y /\
    forall i j, (S i < rows x)%nat -> (j < d_model_ a)%nat -> coeff y i j = NaN.
Proof.
  intros Ha Hx.
  rewrite (MultiHeadAttention_call_eq a x _ Ha Hx (causal_mask_fits (rows x))).
  eexists. split; [reflexivity |].
  split; [split; [apply rows_tabulate | apply cols_tabulate] |].
  intros i j Hi Hj. rewrite coeff_tabulate by lia.
  destruct Ha as [Hh [Hd _]].
  assert (Hdk : d_k_ a <> 0%nat) by (intros H0; rewrite Hd, H0 in Hj; lia).
  unfold multi_head_coeff. apply sum_s_nan. apply in_map_iff.
  exists 0%nat. split; [| apply in_seq; lia].
  unfold concat_coeff.
  rewrite head_output_causal_nan;
    [reflexivity | exact Hi | apply Nat.mod_upper_bound; exact Hdk].
Qed.

(** The theorem at the identity projections with the input [[1, 0], [0, 1]]. *)
Lemma multi_head_attention_causal_mask_yields_nan_rows_witness :
  exists y,
    MultiHeadAttention_call (F := binary64) identity_attention unit_rows
      (Some (causal_mask 2)) = Ok y /\
    has_shape 2 2 y /\
    forall i j, (S i < 2)%nat -> (j < 2)%nat -> coeff y i j = NaN.
Proof.
  apply (multi_head_attention_causal_mask_yields_nan_rows binary64 identity_attention
           unit_rows identity_attention_valid).
  reflexivity.
Defined.

(** ** Layer normalization: every case of the call *)

(** X18: the call of a layer normalization built by the constructor, by
    the shape of the input.  An input that is not square stops the
    program at the subtraction of the means; a square input whose width
    is not [d_model] stops it at the product with [gamma]; a square
    input of width [d_model] with more than one row (or none) stops it
    at the addition of [beta].  The single input shape that is left,
    one row and one column with [d_model = 1], returns one entry: 0 for
    a finite input entry, NaN for any other. *)
Theorem layer_norm_call_by_shape (F : Format) (d : nat) (e : R) (x : matrix) :
  0 < e <= fmax ->
  (rows x <> cols x ->
   LayerNorm_call (LayerNorm_new d (Fin e)) x =
     Aborted "x.rowwise() - mean.transpose()") /\
  (rows x = cols x -> d <> cols x ->
   LayerNorm_call (LayerNorm_new d (Fin e)) x =
     Aborted "norm.array().rowwise() * gamma_.transpose().array()") /\
  (rows x = cols x -> d = cols x -> rows x <> 1%nat ->
   LayerNorm_call (LayerNorm_new d (Fin e)) x =
     Aborted "norm.array().rowwise() * gamma_.transpose().array() + beta_.transpose().array()") /\
  (has_shape 1 1 x -> d = 1%nat ->
   exists y,
     LayerNorm_call (LayerNorm_new d (Fin e)) x = Ok y /\ has_shape 1 1 y /\
     (finite (coeff x 0 0) -> coeff y 0 0 = Fin 0) /\
     (~ finite (coeff x 0 0) -> coeff y 0 0 = NaN)).
Proof.
  intros He.
  rewrite (LayerNorm_call_eq (LayerNorm_new d (Fin e)) x (LayerNorm_new_valid d (Fin e))).
  cbn [LayerNorm_new ln_d_model_].
  split; [| split; [| split]].
  - intros H. apply Nat.eqb_neq in H. rewrite H. reflexivity.
  - intros H1 H2. apply Nat.eqb_eq in H1. apply Nat.eqb_neq in H2.
    rewrite H1, H2. reflexivity.
  - intros H1 H2 H3. apply Nat.eqb_eq in H1, H2. apply Nat.eqb_neq in H3.
    rewrite H1, H2, H3. reflexivity.
  - intros [Hr Hc] ->. rewrite Hr, Hc. cbn [Nat.eqb].
    eexists. split; [reflexivity |].
    split; [split; [apply rows_tabulate | apply cols_tabulate] |].
    rewrite coeff_tabulate by lia.
    apply (layer_norm_single_entry x e Hc He).
Qed.

(** The theorem at the entry 3, and at an input of one row and two
    columns. *)
Lemma layer_norm_call_by_shape_witness :
  (exists y,
     LayerNorm_call (F := binary64) (LayerNorm_new 1 (Fin (1 / 100000)))
       (one_by_one (Fin 3)) = Ok y /\
     coeff y 0 0 = Fin 0) /\
  LayerNorm_call (F := binary64) (LayerNorm_new 2 (Fin (1 / 100000)))
    (of_rows 2 [[Fin 1; Fin 2]]) = Aborted "x.rowwise() - mean.transpose()".
Proof.
  assert (He : 0 < 1 / 100000 <= @fmax binary64).
  { pose proof (@fmax_large binary64). lra. }
  split.
  - destruct (layer_norm_call_by_shape binary64 1 (1 / 100000) (one_by_one (Fin 3)) He)
      as [_ [_ [_ H]]].
    destruct (H (conj eq_refl eq_refl) eq_refl) as [y [Hy [_ [Hfin _]]]].
    exists y. split; [exact Hy |]. apply Hfin.
    change (coeff (one_by_one (Fin 3)) 0 0) with (Fin 3). cbn [finite].
    pose proof (@fmax_large binary64). lra.
  - destruct (layer_norm_call_by_shape binary64 2 (1 / 100000)
                (of_rows 2 [[Fin 1; Fin 2]]) He) as [H _].
    apply H. discriminate.
Defined.

(** ** The constructors on their [int] arguments *)

(** The constructors of the source take [int]s.  A negative size is a
    value the code can be given: Eigen checks it when a matrix is
    built.  A zero divisor is one too, and the language gives the
    division no meaning.  The definitions of this section cover every
    [int]; the constructors on natural numbers, above, are their
    restrictions.  Memory is not bounded: a matrix of any size that is
    not negative is built. *)

(** An [int] of the build is a 32-bit integer.  The division of the
    least [int] by -1 has no result that is an [int]. *)
Definition int_min : Z := (- 2 ^ 31)%Z.

(** What the evaluation of an expression with an integer division
    gives: a result, or nothing that the language defines (a division
    by zero, or a quotient that is not an [int]). *)
Inductive evaluation (A : Type) : Type :=
  | Evaluated (r : result A)
  | Undefined.

Arguments Evaluated {A} r.
Arguments Undefined {A}.

(** [a / b] and [a % b] on [int]s are defined unless [b] is zero or the
    quotient overflows; they round towards zero. *)
Definition int_division_defined (a b : Z) : bool :=
  negb ((b =? 0)%Z || ((a =? int_min)%Z && (b =? -1)%Z)).

(** The members of a [MultiHeadAttention] as the source declares them:
    four [int]s, which the constructor can leave negative, and the four
    weights. *)
Record MultiHeadAttention_members : Type := {
  int_d_model_ : Z;
  int_num_heads_ : Z;
  int_d_k_ : Z;
  int_d_v_ : Z;
  int_W_Q_ : matrix;
  int_W_K_ : matrix;
  int_W_V_ : matrix;
  int_W_O_ : matrix
}.

(** The members of an object none of whose [int]s is negative. *)
Definition members (a : MultiHeadAttention) : MultiHeadAttention_members :=
  {| int_d_model_ := Z.of_nat (d_model_ a);
     int_num_heads_ := Z.of_nat (num_heads_ a);
     int_d_k_ := Z.of_nat (d_k_ a);
     int_d_v_ := Z.of_nat (d_v_ a);
     int_W_Q_ := W_Q_ a; int_W_K_ := W_K_ a;
     int_W_V_ := W_V_ a; int_W_O_ := W_O_ a |}.

(** The block with the members of its attention. *)
Record TransformerEncoderBlock_members : Type := {
  int_attn_ : MultiHeadAttention_members;
  int_ff_ : FeedForward;
  int_ln1_ : LayerNorm;
  int_ln2_ : LayerNorm
}.

(** The members of a block whose attention holds no negative [int]. *)
Definition block_members (b : TransformerEncoderBlock) : TransformerEncoderBlock_members :=
  {| int_attn_ := members (attn_ b); int_ff_ := ff_ b;
     int_ln1_ := ln1_ b; int_ln2_ := ln2_ b |}.

Section IntConstructors.

Context {F : Format} {E : Engine}.

(** [Matrix(rows, cols)] and [Matrix<Scalar, Dynamic, 1>(size)]: Eigen
    checks that no size is negative and leaves the coefficients
    uninitialized. *)
Definition Matrix_new (site : string) (r c : Z) : result matrix :=
  _ <- eigen_assert ((0 <=? r)%Z && (0 <=? c)%Z) site ;;
  Ok (uninitialized (Z.to_nat r) (Z.to_nat c)).

Definition Vector_new (site : string) (n : Z) : result matrix :=
  Matrix_new site n 1.

(** [MultiHeadAttention(int d_model, int num_heads)]: the initializer
    list divides before the body asserts. *)
Definition MultiHeadAttention_ctor (d_model num_heads : Z) (g : engine)
  : evaluation (MultiHeadAttention_members * engine) :=
  if int_division_defined d_model num_heads then
    Evaluated (
      let d_k := Z.quot d_model num_heads in
      _ <- cassert (Z.rem d_model num_heads =? 0)%Z
             "assert(d_model % num_heads == 0)" ;;
      wq0 <- Matrix_new "W_Q_ = Matrix(d_model, d_model)" d_model d_model ;;
      wk0 <- Matrix_new "W_K_ = Matrix(d_model, d_model)" d_model d_model ;;
      wv0 <- Matrix_new "W_V_ = Matrix(d_model, d_model)" d_model d_model ;;
      wo0 <- Matrix_new "W_O_ = Matrix(d_model, d_model)" d_model d_model ;;
      let (wq, g1) := uniform_init g wq0 default_init_range in
      let (wk, g2) := uniform_init g1 wk0 default_init_range in
      let (wv, g3) := uniform_init g2 wv0 default_init_range in
      let (wo, g4) := uniform_init g3 wo0 default_init_range in
      Ok ({| int_d_model_ := d_model; int_num_heads_ := num_heads;
             int_d_k_ := d_k; int_d_v_ := d_k;
             int_W_Q_ := wq; int_W_K_ := wk; int_W_V_ := wv; int_W_O_ := wo |}, g4))
  else Undefined.

(** [FeedForward(int d_model, int d_ff)] *)
Definition FeedForward_ctor (d_model d_ff : Z) (g : engine)
  : result (FeedForward * engine) :=
  w1 <- Matrix_new "W1_ = Matrix(d_model, d_ff)" d_model d_ff ;;
  _ <- Vector_new "b1_ = Matrix(d_ff)" d_ff ;;
  w2 <- Matrix_new "W2_ = Matrix(d_ff, d_model)" d_ff d_model ;;
  _ <- Vector_new "b2_ = Matrix(d_model)" d_model ;;
  let (w1', g1) := uniform_init g w1 default_init_range in
  let (w2', g2) := uniform_init g1 w2 default_init_range in
  Ok ({| ff_d_model_ := Z.to_nat d_model; d_ff_ := Z.to_nat d_ff;
         W1_ := w1'; W2_ := w2';
         b1_ := constant (Z.to_nat d_ff) 1 zero;
         b2_ := constant (Z.to_nat d_model) 1 zero |}, g2).

(** [LayerNorm(int d_model, Scalar eps)] *)
Definition LayerNorm_ctor (d_model : Z) (eps : scalar) : result LayerNorm :=
  _ <- Vector_new "gamma_ = Matrix(d_model)" d_model ;;
  _ <- Vector_new "beta_ = Matrix(d_model)" d_model ;;
  Ok {| ln_d_model_ := Z.to_nat d_model; eps_ := eps;
        gamma_ := constant (Z.to_nat d_model) 1 one;
        beta_ := constant (Z.to_nat d_model) 1 zero |}.

(** [TransformerEncoderBlock(int d_model, int num_heads, int d_ff)]: the
    members are built in the order of their declaration. *)
Definition TransformerEncoderBlock_ctor (d_model num_heads d_ff : Z) (g : engine)
  : evaluation (TransformerEncoderBlock_members * engine) :=
  match MultiHeadAttention_ctor d_model num_heads g with
  | Undefined => Undefined
  | Evaluated r =>
      Evaluated (
        ag <- r ;;
        let (a, g1) := ag : MultiHeadAttention_members * engine in
        fg <- FeedForward_ctor d_model d_ff g1 ;;
        let (f, g2) := fg : FeedForward * engine in
        l1 <- LayerNorm_ctor d_model default_eps ;;
        l2 <- LayerNorm_ctor d_model default_eps ;;
        Ok ({| int_attn_ := a; int_ff_ := f; int_ln1_ := l1; int_ln2_ := l2 |}, g2))
  end.

Lemma Matrix_new_ok (site : string) (r c : Z) :
  (0 <= r)%Z -> (0 <= c)%Z ->
  Matrix_new site r c = Ok (uninitialized (Z.to_nat r) (Z.to_nat c)).
Proof.
  intros Hr Hc. unfold Matrix_new.
  apply Z.leb_le in Hr, Hc. rewrite Hr, Hc. reflexivity.
Qed.

Lemma Matrix_new_abort (site : string) (r c : Z) :
  (r < 0 \/ c < 0)%Z -> Matrix_new site r c = Aborted site.
Proof.
  intros H. unfold Matrix_new.
  replace ((0 <=? r)%Z && (0 <=? c)%Z) with false; [reflexivity |].
  symmetry. apply andb_false_iff.
  destruct H as [H | H]; [left | right]; apply Z.leb_gt; exact H.
Qed.

Lemma int_division_defined_true (a b : Z) :
  b <> 0%Z -> ~ (a = int_min /\ b = (-1)%Z) -> int_division_defined a b = true.
Proof.
  intros Hb Hov. unfold int_division_defined. apply negb_true_iff.
  apply orb_false_iff. split; [apply Z.eqb_neq; exact Hb |].
  apply andb_false_iff.
  destruct (Z.eqb_spec a int_min) as [Ha | Ha]; [| left; reflexivity].
  right. apply Z.eqb_neq. intros Hb1. apply Hov. split; assumption.
Qed.

Lemma int_division_defined_false (a b : Z) :
  b = 0%Z \/ (a = int_min /\ b = (-1)%Z) -> int_division_defined a b = false.
Proof.
  intros H. unfold int_division_defined. apply negb_false_iff. apply orb_true_iff.
  destruct H as [-> | [-> ->]]; [left; reflexivity | right; reflexivity].
Qed.

(** The constructor from the assertion on, for a divisor that the
    division accepts and a [d_model] that is not negative. *)
Lemma MultiHeadAttention_ctor_returns (d_model num_heads : Z) (g : engine) :
  num_heads <> 0%Z -> ~ (d_model = int_min /\ num_heads = (-1)%Z) ->
  Z.rem d_model num_heads = 0%Z -> (0 <= d_model)%Z ->
  exists a,
    MultiHeadAttention_ctor d_model num_heads g =
      Evaluated (Ok (a, advance (4 * (Z.to_nat d_model * Z.to_nat d_model)) g)) /\
    int_d_model_ a = d_model /\ int_num_heads_ a = num_heads /\
    int_d_k_ a = Z.quot d_model num_heads /\ int_d_v_ a = Z.quot d_model num_heads /\
    (has_shape (Z.to_nat d_model) (Z.to_nat d_model) (int_W_Q_ a) /\
     default_weights (int_W_Q_ a)) /\
    (has_shape (Z.to_nat d_model) (Z.to_nat d_model) (int_W_K_ a) /\
     default_weights (int_W_K_ a)) /\
    (has_shape (Z.to_nat d_model) (Z.to_nat d_model) (int_W_V_ a) /\
     default_weights (int_W_V_ a)) /\
    (has_shape (Z.to_nat d_model) (Z.to_nat d_model) (int_W_O_ a) /\
     default_weights (int_W_O_ a)).
Proof.
  intros Hh Hov Hrem Hd. unfold MultiHeadAttention_ctor.
  rewrite (int_division_defined_true _ _ Hh Hov), Hrem.
  cbn [Z.eqb cassert bind].
  rewrite !Matrix_new_ok by exact Hd. cbn [bind].
  destruct (uniform_init g _ _) as [wq g1] eqn:E1.
  destruct (uniform_init g1 _ _) as [wk g2] eqn:E2.
  destruct (uniform_init g2 _ _) as [wv g3] eqn:E3.
  destruct (uniform_init g3 _ _) as [wo g4] eqn:E4.
  apply uniform_init_default_weights in E1, E2, E3, E4.
  destruct E1 as [S1 [D1 G1]]. destruct E2 as [S2 [D2 G2]].
  destruct E3 as [S3 [D3 G3]]. destruct E4 as [S4 [D4 G4]].
  eexists. split.
  - do 3 f_equal. rewrite G4, G3, G2, G1, !advance_advance. f_equal. lia.
  - cbn. repeat split; assumption || apply S1 || apply S2 || apply S3 || apply S4.
Qed.

Lemma of_nat_eqb_0 (n : nat) : (Z.of_nat n =? 0)%Z = (n =? 0)%nat.
Proof. destruct n; reflexivity. Qed.

(** On arguments that are not negative, with a positive [num_heads],
    the constructor is [MultiHeadAttention_new]. *)
Lemma MultiHeadAttention_ctor_of_nat (d h : nat) (g : engine) :
  h <> 0%nat ->
  MultiHeadAttention_ctor (Z.of_nat d) (Z.of_nat h) g =
  Evaluated (ag <- MultiHeadAttention_new d h g ;; Ok (members (fst ag), snd ag)).
Proof.
  intros Hh. unfold MultiHeadAttention_ctor, MultiHeadAttention_new.
  rewrite int_division_defined_true by (unfold int_min; lia).
  rewrite Z.rem_mod_nonneg, <- Nat2Z.inj_mod, of_nat_eqb_0 by lia.
  apply Nat.eqb_neq in Hh. rewrite Hh. cbn [negb cassert bind]. f_equal.
  destruct (d mod h =? 0)%nat; cbn [cassert bind]; [| reflexivity].
  rewrite !Matrix_new_ok by lia. cbn [bind]. rewrite Nat2Z.id.
  destruct (uniform_init g _ _) as [wq g1].
  destruct (uniform_init g1 _ _) as [wk g2].
  destruct (uniform_init g2 _ _) as [wv g3].
  destruct (uniform_init g3 _ _) as [wo g4].
  cbn [bind fst snd]. unfold members. cbn.
  apply Nat.eqb_neq in Hh.
  rewrite Z.quot_div_nonneg, <- Nat2Z.inj_div by lia. reflexivity.
Qed.

(** On sizes that are not negative, the constructor of the feed-forward
    network is [FeedForward_new]. *)
Lemma FeedForward_ctor_of_nat (d_model d_ff : Z) (g : engine) :
  (0 <= d_model)%Z -> (0 <= d_ff)%Z ->
  FeedForward_ctor d_model d_ff g =
  Ok (FeedForward_new (Z.to_nat d_model) (Z.to_nat d_ff) g).
Proof.
  intros Hd Hf. unfold FeedForward_ctor, Vector_new, FeedForward_new.
  rewrite !Matrix_new_ok by lia. cbn [bind].
  destruct (uniform_init g _ _) as [w1 g1].
  destruct (uniform_init g1 _ _) as [w2 g2]. reflexivity.
Qed.

Lemma LayerNorm_ctor_of_nat (d_model : Z) (eps : scalar) :
  (0 <= d_model)%Z ->
  LayerNorm_ctor d_model eps = Ok (LayerNorm_new (Z.to_nat d_model) eps).
Proof.
  intros Hd. unfold LayerNorm_ctor, Vector_new, LayerNorm_new.
  rewrite !Matrix_new_ok by lia. reflexivity.
Qed.

(** What [FeedForward_new] builds: [W1_] is drawn first, row by row,
    then [W2_]. *)
Lemma FeedForward_new_spec (n m : nat) (g : engine) :
  exists f,
    FeedForward_new n m g = (f, advance (2 * (n * m)) g) /\
    valid_feed_forward f /\ ff_d_model_ f = n /\ d_ff_ f = m /\
    default_weights (W1_ f) /\ default_weights (W2_ f) /\
    b1_ f = constant m 1 zero /\ b2_ f = constant n 1 zero /\
    (forall i j, (i < n)%nat -> (j < m)%nat ->
       coeff (W1_ f) i j = drawn default_init_range (advance (i * m + j) g)) /\
    (forall i j, (i < m)%nat -> (j < n)%nat ->
       coeff (W2_ f) i j = drawn default_init_range (advance (n * m + (i * n + j)) g)).
Proof.
  pose proof (FeedForward_new_valid n m g) as [Hv Hd].
  unfold FeedForward_new in *.
  pose proof (uniform_init_spec g (uninitialized n m) default_init_range) as [_ Hc1].
  destruct (uniform_init g _ _) as [w1 g1] eqn:E1.
  pose proof (uniform_init_spec g1 (uninitialized m n) default_init_range) as [_ Hc2].
  destruct (uniform_init g1 _ _) as [w2 g2] eqn:E2.
  apply uniform_init_default_weights in E1, E2.
  destruct E1 as [S1 [D1 G1]]. destruct E2 as [S2 [D2 G2]].
  cbn [fst snd] in *.
  assert (Hr : forall r c, rows (uninitialized r c) = r /\ cols (uninitialized r c) = c).
  { intros r c. unfold uninitialized, constant.
    split; [apply rows_tabulate | apply cols_tabulate]. }
  eexists. split.
  - f_equal. rewrite G2, G1, advance_advance. f_equal. lia.
  - cbn. split; [exact Hv |]. do 6 (split; [reflexivity || assumption |]).
    split.
    + intros i j Hi Hj. rewrite Hc1 by (rewrite ?(proj1 (Hr n m)), ?(proj2 (Hr n m)); lia).
      rewrite (proj2 (Hr n m)). reflexivity.
    + intros i j Hi Hj. rewrite Hc2 by (rewrite ?(proj1 (Hr m n)), ?(proj2 (Hr m n)); lia).
      rewrite (proj2 (Hr m n)), G1, advance_advance. reflexivity.
Qed.

(** On arguments that are not negative, with a positive [num_heads],
    the constructor of the block is [TransformerEncoderBlock_new]. *)
Lemma TransformerEncoderBlock_ctor_of_nat (d h f : nat) (g : engine) :
  h <> 0%nat ->
  TransformerEncoderBlock_ctor (Z.of_nat d) (Z.of_nat h) (Z.of_nat f) g =
  Evaluated (bg <- TransformerEncoderBlock_new d h f g ;;
             Ok (block_members (fst bg), snd bg)).
Proof.
  intros Hh. unfold TransformerEncoderBlock_ctor, TransformerEncoderBlock_new.
  rewrite (MultiHeadAttention_ctor_of_nat d h g Hh). f_equal.
  destruct (MultiHeadAttention_new d h g) as [[a g1] | s]; cbn [bind fst snd];
    [| reflexivity].
  rewrite FeedForward_ctor_of_nat, !LayerNorm_ctor_of_nat by lia.
  rewrite !Nat2Z.id. cbn [bind].
  destruct (FeedForward_new d f g1) as [ff g2]. reflexivity.
Qed.

End IntConstructors.

(** X13: the constructor of the multi-head attention on every pair of
    [int]s.  With [num_heads = 0] (or the one quotient that overflows)
    the division of the initializer list is undefined.  Otherwise the
    program stops at the assertion when [num_heads] does not divide
    [d_model], and at the size check of Eigen when it does and
    [d_model] is negative.  In the case that is left the constructor
    returns: [d_k = d_v = d_model / num_heads], four weights of
    [d_model] rows and columns with entries in [[-0.1, 0.1)], the
    engine [4 * d_model * d_model] draws further.  A negative
    [num_heads] that divides [d_model] is accepted, and leaves
    [num_heads_ < 0] and [d_k_ <= 0] in the object; with a positive one
    the object is the one [MultiHeadAttention_new] builds, which is
    valid. *)
Theorem multi_head_attention_constructor (F : Format) (E : Engine)
    (d_model num_heads : Z) (g : engine) :
  (num_heads = 0%Z \/ (d_model = int_min /\ num_heads = (-1)%Z) ->
   MultiHeadAttention_ctor d_model num_heads g = Undefined) /\
  (num_heads <> 0%Z -> ~ (d_model = int_min /\ num_heads = (-1)%Z) ->
   (Z.rem d_model num_heads <> 0%Z ->
    MultiHeadAttention_ctor d_model num_heads g =
      Evaluated (Aborted "assert(d_model % num_heads == 0)")) /\
   (Z.rem d_model num_heads = 0%Z -> (d_model < 0)%Z ->
    MultiHeadAttention_ctor d_model num_heads g =
      Evaluated (Aborted "W_Q_ = Matrix(d_model, d_model)")) /\
   (Z.rem d_model num_heads = 0%Z -> (0 <= d_model)%Z ->
    exists a,
      MultiHeadAttention_ctor d_model num_heads g =
        Evaluated (Ok (a, advance (4 * (Z.to_nat d_model * Z.to_nat d_model)) g)) /\
      int_d_model_ a = d_model /\ int_num_heads_ a = num_heads /\
      int_d_k_ a = Z.quot d_model num_heads /\ int_d_v_ a = Z.quot d_model num_heads /\
      (has_shape (Z.to_nat d_model) (Z.to_nat d_model) (int_W_Q_ a) /\
       default_weights (int_W_Q_ a)) /\
      (has_shape (Z.to_nat d_model) (Z.to_nat d_model) (int_W_K_ a) /\
       default_weights (int_W_K_ a)) /\
      (has_shape (Z.to_nat d_model) (Z.to_nat d_model) (int_W_V_ a) /\
       default_weights (int_W_V_ a)) /\
      (has_shape (Z.to_nat d_model) (Z.to_nat d_model) (int_W_O_ a) /\
       default_weights (int_W_O_ a)) /\
      ((num_heads < 0)%Z -> (int_num_heads_ a < 0)%Z /\ (int_d_k_ a <= 0)%Z) /\
      ((0 < num_heads)%Z ->
       exists a',
         MultiHeadAttention_new (Z.to_nat d_model) (Z.to_nat num_heads) g =
           Ok (a', advance (4 * (Z.to_nat d_model * Z.to_nat d_model)) g) /\
         a = members a' /\ valid_attention a'))).
Proof.
  split.
  - intros H. unfold MultiHeadAttention_ctor.
    rewrite (int_division_defined_false _ _ H). reflexivity.
  - intros Hh Hov. split; [| split].
    + intros Hrem. unfold MultiHeadAttention_ctor.
      rewrite (int_division_defined_true _ _ Hh Hov).
      apply Z.eqb_neq in Hrem. rewrite Hrem. reflexivity.
    + intros Hrem Hd. unfold MultiHeadAttention_ctor.
      rewrite (int_division_defined_true _ _ Hh Hov), Hrem.
      cbn [Z.eqb cassert bind].
      rewrite Matrix_new_abort by (left; exact Hd). reflexivity.
    + intros Hrem Hd.
      destruct (MultiHeadAttention_ctor_returns d_model num_heads g Hh Hov Hrem Hd)
        as [a [Ha [H1 [H2 [H3 [H4 [HQ [HK [HV HO]]]]]]]]].
      exists a. repeat (split; [assumption |]). split.
      * intros Hneg. rewrite H2, H3. split; [exact Hneg |].
        replace num_heads with (- - num_heads)%Z by lia.
        rewrite Z.quot_opp_r by lia.
        pose proof (Z.quot_pos d_model (- num_heads) Hd ltac:(lia)). lia.
      * intros Hpos.
        pose proof (MultiHeadAttention_ctor_of_nat (Z.to_nat d_model)
                      (Z.to_nat num_heads) g ltac:(lia)) as Hnat.
        rewrite !Z2Nat.id in Hnat by lia. rewrite Ha in Hnat.
        destruct (MultiHeadAttention_new (Z.to_nat d_model) (Z.to_nat num_heads) g)
          as [[a' g'] | s] eqn:Hnew; cbn [bind fst snd] in Hnat; [| discriminate].
        remember (members a') as am eqn:Ham.
        inversion Hnat; subst g'. exists a'. split; [reflexivity |].
        split; [congruence |].
        apply (MultiHeadAttention_new_valid _ _ _ _ _ Hnew).
Qed.

(** The theorem at the example engine: no head; three heads for
    [d_model = 4]; a negative [d_model]; a negative [num_heads]; and the
    configuration of [main]. *)
Lemma multi_head_attention_constructor_witness :
  MultiHeadAttention_ctor (F := binary64) (E := harmonic_engine) 4 0 0%nat = Undefined /\
  MultiHeadAttention_ctor (F := binary64) (E := harmonic_engine) 4 3 0%nat =
    Evaluated (Aborted "assert(d_model % num_heads == 0)") /\
  MultiHeadAttention_ctor (F := binary64) (E := harmonic_engine) (-4) 2 0%nat =
    Evaluated (Aborted "W_Q_ = Matrix(d_model, d_model)") /\
  (exists a,
     MultiHeadAttention_ctor (F := binary64) (E := harmonic_engine) 4 (-2) 0%nat =
       Evaluated (Ok (a, advance (E := harmonic_engine) (4 * (4 * 4)) 0%nat)) /\
     int_num_heads_ a = (-2)%Z /\ int_d_k_ a = (-2)%Z) /\
  (exists a',
     MultiHeadAttention_new (F := binary64) (E := harmonic_engine) 64 8 0%nat =
       Ok (a', advance (E := harmonic_engine) (4 * (64 * 64)) 0%nat) /\
     MultiHeadAttention_ctor (F := binary64) (E := harmonic_engine) 64 8 0%nat =
       Evaluated (Ok (members a', advance (E := harmonic_engine) (4 * (64 * 64)) 0%nat)) /\
     valid_attention a').
Proof.
  split; [| split; [| split; [| split]]].
  - apply (multi_head_attention_constructor binary64 harmonic_engine 4 0 0%nat).
    left. reflexivity.
  - apply (multi_head_attention_constructor binary64 harmonic_engine 4 3 0%nat);
      [discriminate | intros [H _]; discriminate | discriminate].
  - apply (multi_head_attention_constructor binary64 harmonic_engine (-4) 2 0%nat);
      [discriminate | intros [H _]; discriminate | reflexivity | reflexivity].
  - destruct (multi_head_attention_constructor binary64 harmonic_engine 4 (-2) 0%nat)
      as [_ H].
    destruct H as [_ [_ H]]; [discriminate | intros [H _]; discriminate |].
    destruct H as [a [Ha [_ [H2 [H3 _]]]]]; [reflexivity | discriminate |].
    exists a. split; [exact Ha |]. split; [exact H2 | exact H3].
  - destruct (multi_head_attention_constructor binary64 harmonic_engine 64 8 0%nat)
      as [_ H].
    destruct H as [_ [_ H]]; [discriminate | intros [H _]; discriminate |].
    destruct H as [a [Ha [_ [_ [_ [_ [_ [_ [_ [_ [_ H]]]]]]]]]]];
      [reflexivity | discriminate |].
    destruct H as [a' [Hnew [-> Hv]]]; [reflexivity |].
    exists a'. split; [exact Hnew |]. split; [exact Ha | exact Hv].
Defined.

(** X5: the constructor of the feed-forward network on every pair of
    [int]s.  A negative [d_model] or [d_ff] stops the program at the
    size check of the first matrix.  Otherwise the constructor returns
    the object that [FeedForward_new] builds: [W1_] of
    [d_model x d_ff] and [W2_] of [d_ff x d_model] with entries in
    [[-0.1, 0.1)], [W1_] drawn first and each matrix row by row, zero
    biases, the engine [2 * d_model * d_ff] draws further. *)
Theorem feed_forward_constructor (F : Format) (E : Engine)
    (d_model d_ff : Z) (g : engine) :
  ((d_model < 0 \/ d_ff < 0)%Z ->
   FeedForward_ctor d_model d_ff g = Aborted "W1_ = Matrix(d_model, d_ff)") /\
  ((0 <= d_model)%Z -> (0 <= d_ff)%Z ->
   exists f,
     FeedForward_ctor d_model d_ff g =
       Ok (f, advance (2 * (Z.to_nat d_model * Z.to_nat d_ff)) g) /\
     FeedForward_new (Z.to_nat d_model) (Z.to_nat d_ff) g =
       (f, advance (2 * (Z.to_nat d_model * Z.to_nat d_ff)) g) /\
     valid_feed_forward f /\
     ff_d_model_ f = Z.to_nat d_model /\ d_ff_ f = Z.to_nat d_ff /\
     default_weights (W1_ f) /\ default_weights (W2_ f) /\
     b1_ f = constant (Z.to_nat d_ff) 1 zero /\
     b2_ f = constant (Z.to_nat d_model) 1 zero /\
     (forall i j, (i < Z.to_nat d_model)%nat -> (j < Z.to_nat d_ff)%nat ->
        coeff (W1_ f) i j =
        drawn default_init_range (advance (i * Z.to_nat d_ff + j) g)) /\
     (forall i j, (i < Z.to_nat d_ff)%nat -> (j < Z.to_nat d_model)%nat ->
        coeff (W2_ f) i j =
        drawn default_init_range
          (advance (Z.to_nat d_model * Z.to_nat d_ff + (i * Z.to_nat d_model + j)) g))).
Proof.
  split.
  - intros H. unfold FeedForward_ctor.
    rewrite (Matrix_new_abort _ _ _ H). reflexivity.
  - intros Hd Hf.
    destruct (FeedForward_new_spec (Z.to_nat d_model) (Z.to_nat d_ff) g)
      as [f [Hnew Hrest]].
    exists f. split; [| split; [exact Hnew | exact Hrest]].
    rewrite (FeedForward_ctor_of_nat d_model d_ff g Hd Hf), Hnew. reflexivity.
Qed.

(** The theorem at a negative [d_ff] and at the sizes of [main]. *)
Lemma feed_forward_constructor_witness :
  FeedForward_ctor (F := binary64) (E := harmonic_engine) 64 (-1) 0%nat =
    Aborted "W1_ = Matrix(d_model, d_ff)" /\
  exists f,
    FeedForward_ctor (F := binary64) (E := harmonic_engine) 64 256 0%nat =
      Ok (f, advance (E := harmonic_engine) (2 * (64 * 256)) 0%nat) /\
    valid_feed_forward f /\ default_weights (W1_ f) /\
    default_weights (W2_ f).
Proof.
  split.
  - apply (feed_forward_constructor binary64 harmonic_engine 64 (-1) 0%nat).
    right. reflexivity.
  - destruct (feed_forward_constructor binary64 harmonic_engine 64 256 0%nat)
      as [_ H].
    destruct H as [f [Hf [_ [Hv [_ [_ [H1 [H2 _]]]]]]]]; [discriminate | discriminate |].
    exists f. split; [exact Hf |]. split; [exact Hv |]. split; [exact H1 | exact H2].
Defined.

(** X14: the constructor of the block on every triple of [int]s.  The
    members are built in the order of their declaration: the
    attention, with every outcome of its own constructor (undefined
    for [num_heads = 0], stopped at the assertion or at the size
    check); then the feed-forward network, from the engine as the
    attention left it, which stops the program for a negative [d_ff];
    then the two normalizations with [eps = 1e-5].  When all are
    built, the engine is [4 * d_model * d_model + 2 * d_model * d_ff]
    draws further; for a positive [num_heads] the block is the one
    [TransformerEncoderBlock_new] builds, whose parts fit together. *)
Theorem encoder_block_constructor (F : Format) (E : Engine)
    (d_model num_heads d_ff : Z) (g : engine) :
  (num_heads = 0%Z \/ (d_model = int_min /\ num_heads = (-1)%Z) ->
   TransformerEncoderBlock_ctor d_model num_heads d_ff g = Undefined) /\
  (num_heads <> 0%Z -> ~ (d_model = int_min /\ num_heads = (-1)%Z) ->
   (Z.rem d_model num_heads <> 0%Z ->
    TransformerEncoderBlock_ctor d_model num_heads d_ff g =
      Evaluated (Aborted "assert(d_model % num_heads == 0)")) /\
   (Z.rem d_model num_heads = 0%Z -> (d_model < 0)%Z ->
    TransformerEncoderBlock_ctor d_model num_heads d_ff g =
      Evaluated (Aborted "W_Q_ = Matrix(d_model, d_model)")) /\
   (Z.rem d_model num_heads = 0%Z -> (0 <= d_model)%Z -> (d_ff < 0)%Z ->
    TransformerEncoderBlock_ctor d_model num_heads d_ff g =
      Evaluated (Aborted "W1_ = Matrix(d_model, d_ff)")) /\
   (Z.rem d_model num_heads = 0%Z -> (0 <= d_model)%Z -> (0 <= d_ff)%Z ->
    exists b,
      TransformerEncoderBlock_ctor d_model num_heads d_ff g =
        Evaluated
          (Ok (b, advance (4 * (Z.to_nat d_model * Z.to_nat d_model) +
                           2 * (Z.to_nat d_model * Z.to_nat d_ff)) g)) /\
      MultiHeadAttention_ctor d_model num_heads g =
        Evaluated (Ok (int_attn_ b,
                       advance (4 * (Z.to_nat d_model * Z.to_nat d_model)) g)) /\
      FeedForward_ctor d_model d_ff
          (advance (4 * (Z.to_nat d_model * Z.to_nat d_model)) g) =
        Ok (int_ff_ b, advance (4 * (Z.to_nat d_model * Z.to_nat d_model) +
                                2 * (Z.to_nat d_model * Z.to_nat d_ff)) g) /\
      int_ln1_ b = LayerNorm_new (Z.to_nat d_model) default_eps /\
      int_ln2_ b = LayerNorm_new (Z.to_nat d_model) default_eps /\
      ((0 < num_heads)%Z ->
       exists b',
         TransformerEncoderBlock_new (Z.to_nat d_model) (Z.to_nat num_heads)
             (Z.to_nat d_ff) g =
           Ok (b', advance (4 * (Z.to_nat d_model * Z.to_nat d_model) +
                            2 * (Z.to_nat d_model * Z.to_nat d_ff)) g) /\
         b = block_members b' /\ valid_block b'))).
Proof.
  split.
  - intros H. unfold TransformerEncoderBlock_ctor, MultiHeadAttention_ctor.
    rewrite (int_division_defined_false _ _ H). reflexivity.
  - intros Hh Hov. split; [| split; [| split]].
    + intros Hrem. unfold TransformerEncoderBlock_ctor, MultiHeadAttention_ctor.
      rewrite (int_division_defined_true _ _ Hh Hov).
      apply Z.eqb_neq in Hrem. rewrite Hrem. reflexivity.
    + intros Hrem Hd. unfold TransformerEncoderBlock_ctor, MultiHeadAttention_ctor.
      rewrite (int_division_defined_true _ _ Hh Hov), Hrem.
      cbn [Z.eqb cassert bind].
      rewrite Matrix_new_abort by (left; exact Hd). reflexivity.
    + intros Hrem Hd Hf.
      destruct (MultiHeadAttention_ctor_returns d_model num_heads g Hh Hov Hrem Hd)
        as [a [Ha _]].
      unfold TransformerEncoderBlock_ctor. rewrite Ha. cbn [bind].
      unfold FeedForward_ctor.
      rewrite Matrix_new_abort by (right; exact Hf). reflexivity.
    + intros Hrem Hd Hf.
      destruct (MultiHeadAttention_ctor_returns d_model num_heads g Hh Hov Hrem Hd)
        as [a [Ha _]].
      set (g1 := advance (4 * (Z.to_nat d_model * Z.to_nat d_model)) g) in *.
      destruct (FeedForward_new_spec (Z.to_nat d_model) (Z.to_nat d_ff) g1)
        as [f [Hnew _]].
      assert (Hg : advance (2 * (Z.to_nat d_model * Z.to_nat d_ff)) g1 =
                   advance (4 * (Z.to_nat d_model * Z.to_nat d_model) +
                            2 * (Z.to_nat d_model * Z.to_nat d_ff)) g).
      { unfold g1. apply advance_advance. }
      rewrite Hg in Hnew.
      assert (Hctor : TransformerEncoderBlock_ctor d_model num_heads d_ff g =
                Evaluated
                  (Ok ({| int_attn_ := a; int_ff_ := f;
                          int_ln1_ := LayerNorm_new (Z.to_nat d_model) default_eps;
                          int_ln2_ := LayerNorm_new (Z.to_nat d_model) default_eps |},
                       advance (4 * (Z.to_nat d_model * Z.to_nat d_model) +
                                2 * (Z.to_nat d_model * Z.to_nat d_ff)) g))).
      { unfold TransformerEncoderBlock_ctor. rewrite Ha. cbn [bind].
        rewrite (FeedForward_ctor_of_nat d_model d_ff g1 Hd Hf), Hnew. cbn [bind].
        rewrite !(LayerNorm_ctor_of_nat d_model default_eps Hd). reflexivity. }
      eexists. split; [exact Hctor |]. cbn [int_attn_ int_ff_ int_ln1_ int_ln2_].
      split; [exact Ha |].
      split; [rewrite (FeedForward_ctor_of_nat d_model d_ff g1 Hd Hf), Hnew; reflexivity |].
      split; [reflexivity |]. split; [reflexivity |].
      intros Hpos.
      pose proof (TransformerEncoderBlock_ctor_of_nat (Z.to_nat d_model)
                    (Z.to_nat num_heads) (Z.to_nat d_ff) g ltac:(lia)) as Hnat.
      rewrite !Z2Nat.id in Hnat by lia. rewrite Hctor in Hnat.
      destruct (TransformerEncoderBlock_new (Z.to_nat d_model) (Z.to_nat num_heads)
                  (Z.to_nat d_ff) g) as [[b' g'] | s] eqn:Hb;
        cbn [bind fst snd] in Hnat; [| discriminate].
      remember (block_members b') as bm eqn:Hbm.
      inversion Hnat; subst g'. exists b'. split; [reflexivity |].
      split; [congruence |].
      apply (TransformerEncoderBlock_new_valid _ _ _ _ _ _ Hb).
Qed.

(** The theorem at the example engine: the configuration of [main], a
    negative [num_heads], a negative [d_ff] and no head. *)
Lemma encoder_block_constructor_witness :
  (exists b',
     TransformerEncoderBlock_new (F := binary64) (E := harmonic_engine) 64 8 256 0%nat =
       Ok (b', advance (E := harmonic_engine) (4 * (64 * 64) + 2 * (64 * 256)) 0%nat) /\
     TransformerEncoderBlock_ctor (F := binary64) (E := harmonic_engine) 64 8 256 0%nat =
       Evaluated (Ok (block_members b',
                      advance (E := harmonic_engine)
                        (4 * (64 * 64) + 2 * (64 * 256)) 0%nat)) /\
     valid_block b') /\
  (exists b,
     TransformerEncoderBlock_ctor (F := binary64) (E := harmonic_engine) 4 (-2) 8 0%nat =
       Evaluated (Ok (b, advance (E := harmonic_engine)
                           (4 * (4 * 4) + 2 * (4 * 8)) 0%nat))) /\
  TransformerEncoderBlock_ctor (F := binary64) (E := harmonic_engine) 4 2 (-8) 0%nat =
    Evaluated (Aborted "W1_ = Matrix(d_model, d_ff)") /\
  TransformerEncoderBlock_ctor (F := binary64) (E := harmonic_engine) 4 0 8 0%nat =
    Undefined.
Proof.
  split; [| split; [| split]].
  - destruct (encoder_block_constructor binary64 harmonic_engine 64 8 256 0%nat)
      as [_ H].
    destruct H as [_ [_ [_ H]]]; [discriminate | intros [H _]; discriminate |].
    destruct H as [b [Hb [_ [_ [_ [_ H]]]]]]; [reflexivity | discriminate | discriminate |].
    destruct H as [b' [Hnew [-> Hv]]]; [reflexivity |].
    exists b'. split; [exact Hnew |]. split; [exact Hb | exact Hv].
  - destruct (encoder_block_constructor binary64 harmonic_engine 4 (-2) 8 0%nat)
      as [_ H].
    destruct H as [_ [_ [_ H]]]; [discriminate | intros [H _]; discriminate |].
    destruct H as [b [Hb _]]; [reflexivity | discriminate | discriminate |].
    exists b. exact Hb.
  - destruct (encoder_block_constructor binary64 harmonic_engine 4 2 (-8) 0%nat)
      as [_ H].
    destruct H as [_ [_ [H _]]]; [discriminate | intros [H _]; discriminate |].
    apply H; [reflexivity | discriminate | reflexivity].
  - apply (encoder_block_constructor binary64 harmonic_engine 4 0 8 0%nat).
    left. reflexivity.
Defined.
